(** * contentful-to-algolia: the reconciliation core

    A shallow embedding of [src/lib/Contentful.js] (locale flattening) and
    [src/lib/Sync.js] (fingerprinting, snapshot cache, diff, commit and the
    orchestrator), with the properties of the specification stated over it.

    JavaScript objects live in an explicit heap, so that the aliasing the
    code relies on (one entry object returned once per locale, the incoming
    records both in [data] and in [entriesIndex]) is visible in the model.
    Calls that can raise a [TypeError] or recurse return an [outcome]. *)

From Stdlib Require Import ZArith String Ascii List Lia Bool DecimalString.
From stdpp Require Import base option list.
Import ListNotations.

#[local] Set Warnings "-register-all".

Local Open Scope Z_scope.

(** ** SHA-256, as computed by [crypto.createHash('sha256')]

    The digest context is the streaming one of FIPS 180-4: eight chaining
    words, the bytes of the block being filled and the number of bytes seen.
    [update] feeds bytes one at a time and compresses each time a 64-byte
    block is complete; [digest] pads and finishes. *)
Module SHA256.

Definition w32 (x : Z) : Z := Z.land x 4294967295.
Definition add32 (x y : Z) : Z := w32 (x + y).
Definition not32 (x : Z) : Z := Z.lxor x 4294967295.
Definition rotr (n x : Z) : Z :=
  Z.lor (Z.shiftr x n) (w32 (Z.shiftl x (32 - n))).

Definition Ch (x y z : Z) : Z := Z.lxor (Z.land x y) (Z.land (not32 x) z).
Definition Maj (x y z : Z) : Z :=
  Z.lxor (Z.lxor (Z.land x y) (Z.land x z)) (Z.land y z).
Definition bsig0 (x : Z) : Z := Z.lxor (Z.lxor (rotr 2 x) (rotr 13 x)) (rotr 22 x).
Definition bsig1 (x : Z) : Z := Z.lxor (Z.lxor (rotr 6 x) (rotr 11 x)) (rotr 25 x).
Definition ssig0 (x : Z) : Z := Z.lxor (Z.lxor (rotr 7 x) (rotr 18 x)) (Z.shiftr x 3).
Definition ssig1 (x : Z) : Z := Z.lxor (Z.lxor (rotr 17 x) (rotr 19 x)) (Z.shiftr x 10).

Definition is_prime (n : nat) : bool :=
  forallb (fun d => negb (n mod d =? 0)%nat) (seq 2 (n - 2)).

(** The first sixty-four primes. *)
Definition primes : list Z :=
  map Z.of_nat (firstn 64 (List.filter is_prime (seq 2 400))).

(** The integer cube root below [2 ^ bits], one bit at a time from the top. *)
Fixpoint cube_root (bits : nat) (n r : Z) : Z :=
  match bits with
  | O => r
  | S b =>
      let c := r + Z.shiftl 1 (Z.of_nat b) in
      cube_root b n (if c * c * c <=? n then c else r)
  end.

(** The round constants: the first thirty-two bits of the fractional parts
    of the cube roots of the first sixty-four primes. *)
Definition K : list Z :=
  Eval vm_compute in map (fun p => w32 (cube_root 40 (Z.shiftl p 96) 0)) primes.

(** The initial chaining value: the same of the square roots of the first
    eight primes. *)
Definition H0 : list Z :=
  Eval vm_compute in map (fun p => w32 (Z.sqrt (Z.shiftl p 64))) (firstn 8 primes).

(** Big-endian 32-bit words of a block of bytes. *)
Fixpoint words_of_bytes (bs : list Z) : list Z :=
  match bs with
  | b0 :: b1 :: b2 :: b3 :: rest =>
      (b0 * 16777216 + b1 * 65536 + b2 * 256 + b3) :: words_of_bytes rest
  | _ => []
  end.

(** The message schedule, most recent word first: [n] more words are
    derived from the sixteen of the block. *)
Fixpoint schedule (n : nat) (rev_w : list Z) : list Z :=
  match n with
  | O => rev_w
  | S n' =>
      let wt := add32 (add32 (add32 (ssig1 (nth 1 rev_w 0)) (nth 6 rev_w 0))
                             (ssig0 (nth 14 rev_w 0))) (nth 15 rev_w 0) in
      schedule n' (wt :: rev_w)
  end.

Record regs := Regs { ra : Z; rb : Z; rc : Z; rd : Z; re : Z; rf : Z; rg : Z; rh : Z }.

Definition round (r : regs) (kw : Z * Z) : regs :=
  let t1 := add32 (add32 (add32 (add32 (rh r) (bsig1 (re r))) (Ch (re r) (rf r) (rg r)))
                         (fst kw)) (snd kw) in
  let t2 := add32 (bsig0 (ra r)) (Maj (ra r) (rb r) (rc r)) in
  Regs (add32 t1 t2) (ra r) (rb r) (rc r) (add32 (rd r) t1) (re r) (rf r) (rg r).

Definition regs_of (h : list Z) : regs :=
  Regs (nth 0 h 0) (nth 1 h 0) (nth 2 h 0) (nth 3 h 0)
       (nth 4 h 0) (nth 5 h 0) (nth 6 h 0) (nth 7 h 0).

Definition compress (h : list Z) (block : list Z) : list Z :=
  let ws := rev (schedule 48 (rev (words_of_bytes block))) in
  let r0 := regs_of h in
  let r := fold_left round (combine K ws) r0 in
  [ add32 (ra r0) (ra r); add32 (rb r0) (rb r); add32 (rc r0) (rc r);
    add32 (rd r0) (rd r); add32 (re r0) (re r); add32 (rf r0) (rf r);
    add32 (rg r0) (rg r); add32 (rh r0) (rh r) ].

Record ctx := Ctx { chain : list Z; pending : list Z; seen : Z }.

Definition init : ctx := Ctx H0 [] 0.

Definition update_byte (c : ctx) (b : Z) : ctx :=
  let buf := pending c ++ [b] in
  if (length buf =? 64)%nat
  then Ctx (compress (chain c) buf) [] (seen c + 1)
  else Ctx (chain c) buf (seen c + 1).

Definition update_bytes (c : ctx) (bs : list Z) : ctx := fold_left update_byte bs c.

Definition byte_at (x : Z) (i : Z) : Z := Z.land (Z.shiftr x (8 * i)) 255.

Definition length_block (bits : Z) : list Z :=
  map (byte_at bits) [7; 6; 5; 4; 3; 2; 1; 0].

(** Padding: a byte 128, zeros up to 56 mod 64, then the 64-bit bit length. *)
Definition padding (c : ctx) : list Z :=
  let used := S (length (pending c)) in
  let zeros := if (used <=? 56)%nat then (56 - used)%nat else (120 - used)%nat in
  128 :: repeat 0 zeros ++ length_block (8 * seen c).

Definition bytes_of_word (x : Z) : list Z := map (byte_at x) [3; 2; 1; 0].

Definition final (c : ctx) : list Z :=
  flat_map bytes_of_word (chain (update_bytes c (padding c))).

Definition hex_digit (n : Z) : ascii :=
  ascii_of_nat (Z.to_nat (if n <? 10 then 48 + n else 87 + n)).

Fixpoint hex (bs : list Z) : string :=
  match bs with
  | [] => EmptyString
  | b :: rest =>
      String (hex_digit (Z.shiftr b 4)) (String (hex_digit (Z.land b 15)) (hex rest))
  end.

Fixpoint bytes_of_string (s : string) : list Z :=
  match s with
  | EmptyString => []
  | String a rest => Z.of_nat (nat_of_ascii a) :: bytes_of_string rest
  end.

(** [hash.update(s)] for a string [s] (its UTF-8 bytes) and
    [hash.digest('hex')]. *)
Definition update (c : ctx) (s : string) : ctx := update_bytes c (bytes_of_string s).
Definition digest_hex (c : ctx) : string := hex (final c).

End SHA256.

Local Close Scope Z_scope.
Local Open Scope string_scope.
Local Open Scope list_scope.

(** ** JavaScript values and the object heap *)

Definition loc := nat.

Inductive value :=
| VUndef
| VNull
| VBool (b : bool)
| VNum (n : Z)
| VStr (s : string)
| VRef (l : loc).
Arguments VRef l%_nat.

(** A plain object keeps its own properties in insertion order (the order
    of [for ... in]); an array keeps its elements. *)
Inductive object :=
| Obj (props : list (string * value))
| Arr (elems : list value).

Definition heap := list object.

(** [TypeError] is the exception the code can raise; [OutOfFuel] is the
    model's bound on recursion depth; [Unmodelled] marks JavaScript corners
    left out (holes in arrays, named properties on arrays, dangling
    references). *)
Inductive failure := TypeError | OutOfFuel | Unmodelled.

Inductive outcome (A : Type) :=
| Ret (a : A)
| Fail (e : failure).
Arguments Ret {A} a.
Arguments Fail {A} e.

(** A computation on the heap: its outcome and the heap it leaves, which
    after an exception holds the writes made before it. *)
Definition M (A : Type) : Type := heap -> outcome A * heap.

Definition ret {A} (a : A) : M A := fun h => (Ret a, h).
Definition fail {A} (e : failure) : M A := fun h => (Fail e, h).
Definition bind {A B} (c : M A) (k : A -> M B) : M B :=
  fun h => match c h with
           | (Ret a, h') => k a h'
           | (Fail e, h') => (Fail e, h')
           end.
Definition modify (f : heap -> heap) : M unit := fun h => (Ret tt, f h).

Declare Scope js_scope.
Delimit Scope js_scope with js.
Notation "x <- c ;; k" := (bind c (fun x => k))
  (at level 100, c at next level, right associativity) : js_scope.
Notation "c ;;; k" := (bind c (fun _ => k))
  (at level 100, right associativity) : js_scope.
Local Open Scope js_scope.

Fixpoint forM {A} (l : list A) (body : A -> M unit) : M unit :=
  match l with
  | [] => ret tt
  | x :: rest => body x ;;; forM rest body
  end.

Fixpoint mapM {A B} (f : A -> M B) (l : list A) : M (list B) :=
  match l with
  | [] => ret []
  | x :: rest => y <- f x ;; ys <- mapM f rest ;; ret (y :: ys)
  end.

Fixpoint foldM {A S} (f : S -> A -> M S) (l : list A) (s : S) : M S :=
  match l with
  | [] => ret s
  | x :: rest => s' <- f s x ;; foldM f rest s'
  end.

(** *** Primitive operations *)

Definition truthy (v : value) : bool :=
  match v with
  | VUndef | VNull => false
  | VBool b => b
  | VNum n => negb (n =? 0)%Z
  | VStr s => negb (s =? "")%string
  | VRef _ => true
  end.

(** [a === b] (and lodash's [eq]; NaN is not modelled). *)
Definition strict_eq (a b : value) : bool :=
  match a, b with
  | VUndef, VUndef | VNull, VNull => true
  | VBool x, VBool y => Bool.eqb x y
  | VNum x, VNum y => (x =? y)%Z
  | VStr x, VStr y => (x =? y)%string
  | VRef x, VRef y => (x =? y)%nat
  | _, _ => false
  end.

(** [typeof v === 'object'] holds of objects, arrays and [null]. *)
Definition typeof_object (v : value) : bool :=
  match v with
  | VNull | VRef _ => true
  | _ => false
  end.

Definition is_undefined (v : value) : bool :=
  match v with VUndef => true | _ => false end.

Fixpoint assoc_get (k : string) (ps : list (string * value)) : option value :=
  match ps with
  | [] => None
  | (k', v) :: rest => if (k' =? k)%string then Some v else assoc_get k rest
  end.

Fixpoint assoc_set (k : string) (v : value) (ps : list (string * value))
  : list (string * value) :=
  match ps with
  | [] => [(k, v)]
  | (k', v') :: rest =>
      if (k' =? k)%string then (k', v) :: rest else (k', v') :: assoc_set k v rest
  end.

Definition assoc_del (k : string) (ps : list (string * value)) : list (string * value) :=
  List.filter (fun p => negb (fst p =? k)%string) ps.

(** The property name of array index [i]. *)
Definition idx_key (i : nat) : string :=
  NilEmpty.string_of_uint (Nat.to_uint i).

Fixpoint key_index_from (k : string) (i count : nat) : option nat :=
  match count with
  | O => None
  | S c => if (idx_key i =? k)%string then Some i else key_index_from k (S i) c
  end.

(** The index below [n] that the property name [k] denotes, if any. *)
Definition key_index (k : string) (n : nat) : option nat := key_index_from k 0 n.

Definition index_keys (n : nat) : list string := map idx_key (seq 0 n).

Fixpoint chars (s : string) : list value :=
  match s with
  | EmptyString => []
  | String a rest => VStr (String a EmptyString) :: chars rest
  end.

Definition elems_get (es : list value) (k : string) : value :=
  if (k =? "length")%string then VNum (Z.of_nat (length es))
  else match key_index k (length es) with
       | Some i => nth i es VUndef
       | None => VUndef
       end.

(** Own property read on an object; prototype properties are not
    modelled (no property is called [constructor], [toString], ...). *)
Definition obj_get (o : object) (k : string) : value :=
  match o with
  | Obj ps => default VUndef (assoc_get k ps)
  | Arr es => elems_get es k
  end.

Definition obj_keys (o : object) : list string :=
  match o with
  | Obj ps => map fst ps
  | Arr es => index_keys (length es)
  end.

Definition obj_has (o : object) (k : string) : bool :=
  match o with
  | Obj ps => bool_decide (is_Some (assoc_get k ps))
  | Arr es => bool_decide (is_Some (key_index k (length es)))
  end.

Definition alloc (o : object) : M value :=
  fun h => (Ret (VRef (length h)), h ++ [o]).

Definition deref (v : value) : M object :=
  fun h => match v with
           | VRef l => match h !! l with
                       | Some o => (Ret o, h)
                       | None => (Fail Unmodelled, h)
                       end
           | _ => (Fail TypeError, h)
           end.

(** [v[k]]: a [TypeError] on [undefined] and [null]. *)
Definition getp (v : value) (k : string) : M value :=
  match v with
  | VUndef | VNull => fail TypeError
  | VRef _ => o <- deref v ;; ret (obj_get o k)
  | VStr s => ret (elems_get (chars s) k)
  | VBool _ | VNum _ => ret VUndef
  end.

(** [v[k] = x] in strict mode (class bodies are strict): a [TypeError] on
    every primitive. An array takes an index inside it or just past its
    end. *)
Definition setp (v : value) (k : string) (x : value) : M unit :=
  match v with
  | VRef l =>
      o <- deref v ;;
      match o with
      | Obj ps => modify <[l := Obj (assoc_set k x ps)]>
      | Arr es =>
          match key_index k (S (length es)) with
          | Some i =>
              if (i <? length es)%nat
              then modify <[l := Arr (<[i := x]> es)]>
              else modify <[l := Arr (es ++ [x])]>
          | None => fail Unmodelled
          end
      end
  | _ => fail TypeError
  end.

(** [delete v[k]]. *)
Definition delp (v : value) (k : string) : M unit :=
  match v with
  | VUndef | VNull => fail TypeError
  | VRef l =>
      o <- deref v ;;
      match o with
      | Obj ps => modify <[l := Obj (assoc_del k ps)]>
      | Arr es => match key_index k (length es) with
                  | Some _ => fail Unmodelled
                  | None => ret tt
                  end
      end
  | _ => ret tt
  end.

(** The keys [for (key in v)] enumerates; nothing for [undefined], [null],
    numbers and booleans. *)
Definition keys_of (v : value) : M (list string) :=
  match v with
  | VRef _ => o <- deref v ;; ret (obj_keys o)
  | VStr s => ret (index_keys (String.length s))
  | _ => ret []
  end.

(** [k in v] for an object [v]. *)
Definition has_key (v : value) (k : string) : M bool :=
  match v with
  | VRef _ => o <- deref v ;; ret (obj_has o k)
  | _ => fail TypeError
  end.

(** [for (let key in v) body]: the keys are fixed when the loop starts, and
    a key deleted before its turn is skipped. *)
Definition for_in (v : value) (body : string -> M unit) : M unit :=
  keys <- keys_of v ;;
  forM keys (fun key =>
    match v with
    | VRef _ => present <- has_key v key ;; if present : bool then body key else ret tt
    | _ => body key
    end).

(** [v.constructor === Array]. *)
Definition is_array (v : value) : M bool :=
  match v with
  | VRef _ => o <- deref v ;; ret (match o with Arr _ => true | Obj _ => false end)
  | _ => ret false
  end.

(** Lodash's [isObject] on the values of the model. *)
Definition isObject (v : value) : bool :=
  match v with VRef _ => true | _ => false end.

(** ** Lodash

    The functions of lodash the two files call, from lodash's documented
    behaviour (4.17). *)

(** [_.indexOf(array, value)]: the first index holding [value], or -1. *)
Fixpoint indexOf_from (array : list value) (v : value) (i : Z) : Z :=
  match array with
  | [] => (-1)%Z
  | x :: rest => if strict_eq x v then i else indexOf_from rest v (i + 1)%Z
  end.

Definition indexOf (array : list value) (v : value) : Z := indexOf_from array v 0%Z.

Fixpoint stack_get (v : value) (stack : list (value * value)) : option value :=
  match stack with
  | [] => None
  | (src, new) :: rest => if strict_eq src v then Some new else stack_get v rest
  end.

(** [assignMergeValue]: an [undefined] source value is written only where
    the destination has no such key. *)
Definition assignMergeValue (object : value) (key : string) (v : value) : M unit :=
  cur <- getp object key ;;
  present <- has_key object key ;;
  if (negb (is_undefined v) && negb (strict_eq cur v)) || (is_undefined v && negb present)
  then setp object key v
  else ret tt.

(** [baseMerge] with [baseMergeDeep] inlined: arrays and plain objects of
    the source are merged recursively into the destination's value for the
    key (a fresh array or object where the destination has none of that
    kind); [stack] maps the source objects being merged to their
    destinations, which is how lodash closes cycles. *)
Fixpoint baseMerge (fuel : nat) (object source : value) (stack : list (value * value))
  : M unit :=
  match fuel with
  | O => fail OutOfFuel
  | S n =>
      if strict_eq object source then ret tt
      else
        keys <- keys_of source ;;
        forM keys (fun key =>
          srcValue <- getp source key ;;
          if isObject srcValue then
            objValue <- getp object key ;;
            match stack_get srcValue stack with
            | Some stacked => assignMergeValue object key stacked
            | None =>
                src <- deref srcValue ;;
                newValue <-
                  match src with
                  | Arr _ =>
                      arr <- is_array objValue ;;
                      if arr : bool then ret objValue else alloc (Arr [])
                  | Obj _ =>
                      if isObject objValue then ret objValue else alloc (Obj [])
                  end ;;
                baseMerge n newValue srcValue ((srcValue, newValue) :: stack) ;;;
                assignMergeValue object key newValue
            end
          else assignMergeValue object key srcValue)
  end.

(** [_.merge(object, source)]: mutates and returns [object]; a falsy source
    is skipped. *)
Definition merge (fuel : nat) (object source : value) : M value :=
  object <- match object with
            | VUndef | VNull => alloc (Obj [])
            | VRef _ => ret object
            | _ => fail Unmodelled
            end ;;
  (if truthy source then baseMerge fuel object source [] else ret tt) ;;;
  ret object.

(** ** Contentful.js: the locale flattener *)

(** What [_getLocalizedEntries] returns: the array it built, or, without a
    locale configuration, the one merged object. *)
Inductive flattened :=
| FlatOne (entry : value)
| FlatMany (localizedEntries : list value).

Section Contentful.

(** [this.locales]: the fallback groups, or [None] when the constructor
    was given none. *)
Variable locales : option (list (list string)).

Definition _cleanEntry (entry : value) (full : bool) : M value :=
  newEntry <- alloc (Obj []) ;;
  empty <- alloc (Obj []) ;;
  setp newEntry "fields" empty ;;;
  if negb (truthy entry) then ret newEntry
  else
    sys <- getp entry "sys" ;;
    r <- (if truthy sys then
            ct <- getp sys "contentType" ;;
            contentType <- (if truthy ct
                            then s <- getp ct "sys" ;; getp s "id"
                            else ret (VBool false)) ;;
            if full then
              delp entry "sys" ;;; ret (contentType, newEntry)
            else
              delp sys "space" ;;;
              delp sys "contentType" ;;;
              delp sys "type" ;;;
              delp sys "revision" ;;;
              ret (contentType, sys)
          else ret (VBool false, newEntry)) ;;
    let contentType := fst r in
    let newEntry := snd r in
    f <- getp entry "fields" ;;
    setp newEntry "fields" f ;;;
    nf <- getp newEntry "fields" ;;
    (if typeof_object nf then
       c <- getp nf "contentType" ;;
       if negb (truthy c) then
         c' <- alloc (Obj []) ;;
         setp nf "contentType" c' ;;;
         match locales with
         | None => fail TypeError
         | Some groups =>
             forM groups (fun locale =>
               forM locale (fun code =>
                 nf1 <- getp newEntry "fields" ;;
                 c1 <- getp nf1 "contentType" ;;
                 setp c1 code contentType))
         end
       else ret tt
     else ret tt) ;;;
    ret newEntry.

Definition _mergeFields (fuel : nat) (entry fields : value) : M value :=
  entry <- (if is_undefined entry then alloc (Obj []) else ret entry) ;;
  fields <- (if is_undefined fields then alloc (Obj []) else ret fields) ;;
  entry <- merge fuel entry fields ;;
  delp entry "fields" ;;;
  ret entry.

(** [locale] is a fallback group, always an array here, so the wrapping
    of a lone string into an array does not occur. The [forEach] keeps
    the first truthy value it meets. *)
Definition _getLocaleString (field : value) (locale : list string) : M value :=
  foldM (fun localizedField currentLocale =>
           v <- getp field currentLocale ;;
           ret (if truthy v && negb (truthy localizedField) then v else localizedField))
        locale VUndef.

Definition _getFieldsForLocale (fields : value) (locale : list string) : M value :=
  entry <- alloc (Obj []) ;;
  for_in fields (fun key =>
    f <- getp fields key ;;
    v <- _getLocaleString f locale ;;
    setp entry key v) ;;;
  setp entry "locale" (match locale with code :: _ => VStr code | [] => VUndef end) ;;;
  ret entry.

(** [getFields] is [_getFields] one level down. [Array.prototype.map]
    runs over the elements the array has when it is called. *)
Definition _getFieldEntry (getFields : value -> list string -> M value) (fuel : nat)
    (fields : value) (key : string) (locale : list string) : M value :=
  v <- getp fields key ;;
  if negb (truthy v) then ret fields
  else
    arr <- is_array v ;;
    if arr : bool then
      o <- deref v ;;
      mapped <- mapM (fun entry =>
                  if negb (isObject entry) then ret entry
                  else
                    entry <- _cleanEntry entry true ;;
                    f <- getp entry "fields" ;;
                    entry <- _mergeFields fuel entry f ;;
                    entry <- getFields entry locale ;;
                    _getFieldsForLocale entry locale)
                (match o with Arr es => es | Obj _ => [] end) ;;
      new <- alloc (Arr mapped) ;;
      setp fields key new ;;;
      ret fields
    else ret fields.

Fixpoint _getFields (fuel : nat) (fields : value) (locale : list string) : M value :=
  match fuel with
  | O => fail OutOfFuel
  | S n =>
      for_in fields (fun key =>
        _getFieldEntry (_getFields n) n fields key locale ;;; ret tt) ;;;
      ret fields
  end.

(** [cleanStack] is [None] for the missing third argument. The array is
    pushed before and popped after each recursive call, so every call
    sees the path that leads to it. *)
Fixpoint _cleanMore (fuel : nat) (entry : value) (locale : list string)
    (cleanStack : option (list value)) : M value :=
  match fuel with
  | O => fail OutOfFuel
  | S n =>
      newEntry <- alloc (Obj []) ;;
      let cleanStack := default [] cleanStack in
      if negb (indexOf cleanStack entry =? 0)%Z then ret entry
      else
        for_in entry (fun key =>
          v <- getp entry key ;;
          if typeof_object v then
            s <- getp v "sys" ;;
            if truthy s then
              c <- _cleanEntry v false ;; setp newEntry key c
            else
              el <- getp v "elements" ;;
              arr <- is_array el ;;
              if truthy el && arr then
                fresh <- alloc (Obj []) ;;
                setp newEntry key fresh ;;;
                o <- deref el ;;
                mapped <- mapM (fun entry =>
                            entry <- _cleanEntry entry true ;;
                            f <- getp entry "fields" ;;
                            _getFieldsForLocale f locale)
                          (match o with Arr es => es | Obj _ => [] end) ;;
                new <- alloc (Arr mapped) ;;
                nk <- getp newEntry key ;;
                setp nk "elements" new ;;;
                ek <- getp entry key ;;
                delp ek "elements" ;;;
                ek <- getp entry key ;;
                nk <- getp newEntry key ;;
                m <- merge n ek nk ;;
                setp newEntry key m
              else
                r <- _cleanMore n v locale (Some (cleanStack ++ [entry])) ;;
                setp newEntry key r
          else ret tt) ;;;
        merge n entry newEntry
  end.

Definition _cleanLocales (entry : value) (locale : list string) : M value :=
  for_in entry (fun key =>
    v <- getp entry key ;;
    if typeof_object v then
      f <- getp v "fields" ;;
      if truthy f then
        r <- _getFieldsForLocale f locale ;; setp entry key r
      else ret tt
    else ret tt) ;;;
  ret entry.

Definition _getLocalizedEntries (fuel : nat) (entry : value) : M flattened :=
  entry <- _cleanEntry entry false ;;
  match locales with
  | None =>
      f <- getp entry "fields" ;;
      r <- _mergeFields fuel entry f ;;
      ret (FlatOne r)
  | Some groups =>
      localizedEntries <-
        foldM (fun localizedEntries locale =>
                 let newEntry := entry in
                 fields <- getp newEntry "fields" ;;
                 fields <- _getFieldsForLocale fields locale ;;
                 fields <- _getFields fuel fields locale ;;
                 newEntry <- _mergeFields fuel newEntry fields ;;
                 delp newEntry "fields" ;;;
                 newEntry <- _cleanMore fuel newEntry locale None ;;
                 newEntry <- _cleanLocales newEntry locale ;;
                 ret (localizedEntries ++ [newEntry]))
              groups [] ;;
      ret (FlatMany localizedEntries)
  end.

End Contentful.

(** ** Sync.js: the destination index *)

(** What the index sends back is JSON: trees, without sharing. *)
Inductive json :=
| JNull
| JBool (b : bool)
| JNum (n : Z)
| JStr (s : string)
| JArr (items : list json)
| JObj (members : list (string * json)).

(** A record stored in the index: its [objectID], always a string, and its
    other attributes. *)
Record IndexHit := { objectID : string; attrs : list (string * json) }.

Fixpoint json_assoc (k : string) (members : list (string * json)) : option json :=
  match members with
  | [] => None
  | (k', j) :: rest => if (k' =? k)%string then Some j else json_assoc k rest
  end.

(** The hit as the object the code receives. *)
Definition hit_members (hit : IndexHit) : list (string * json) :=
  ("objectID", JStr (objectID hit)) :: attrs hit.

Definition hit_attr (hit : IndexHit) (k : string) : option json :=
  json_assoc k (hit_members hit).

(** Lodash's [_.isEqual] between a value of the heap and a JSON tree:
    same kind, same length or number of keys, and equal values at every
    index or key (keys are taken distinct on both sides). *)
Fixpoint equal_json (h : heap) (v : value) (j : json) {struct j} : bool :=
  match j, v with
  | JNull, VNull => true
  | JBool b, VBool b' => Bool.eqb b b'
  | JNum n, VNum n' => (n =? n')%Z
  | JStr s, VStr s' => (s =? s')%string
  | JArr items, VRef l =>
      match h !! l with
      | Some (Arr es) =>
          (fix go (es : list value) (items : list json) {struct items} : bool :=
             match es, items with
             | [], [] => true
             | e :: es', i :: items' => equal_json h e i && go es' items'
             | _, _ => false
             end) es items
      | _ => false
      end
  | JObj members, VRef l =>
      match h !! l with
      | Some (Obj ps) =>
          (length ps =? length members)%nat &&
          (fix go (members : list (string * json)) {struct members} : bool :=
             match members with
             | [] => true
             | (k, j') :: rest =>
                 match assoc_get k ps with
                 | Some v' => equal_json h v' j'
                 | None => false
                 end && go rest
             end) members
      | _ => false
      end
  | _, _ => false
  end.

(** [_.isEqual(compactEntry, hit)], [compactEntry] given by its properties. *)
Definition isEqual (h : heap) (ps : list (string * value)) (hit : IndexHit) : bool :=
  (length ps =? length (hit_members hit))%nat &&
  forallb (fun m : string * json =>
             match assoc_get (fst m) ps with
             | Some v => equal_json h v (snd m)
             | None => false
             end) (hit_members hit).

(** [_.omitBy(entry, _.isUndefined)]: the properties of the new object. *)
Definition omitBy_isUndefined (entry : value) : M (list (string * value)) :=
  o <- deref entry ;;
  match o with
  | Obj ps => ret (List.filter (fun p => negb (is_undefined (snd p))) ps)
  | Arr _ => fail Unmodelled
  end.

(** *** The fingerprint *)

(** Lines 132-135 of [getEntryKey], on the two strings read from the
    entry. *)
Definition fingerprint (id locale : string) : string :=
  let hash := SHA256.init in
  let hash := SHA256.update hash id in
  let hash := SHA256.update hash locale in
  SHA256.digest_hex hash.

(** What [getEntryKey] needs of its argument: a property that holds a
    string; [hash.update] raises a [TypeError] on anything else. *)
Class Keyed (A : Type) := string_field : A -> string -> M (option string).

#[global] Instance record_keyed : Keyed value :=
  fun entry k =>
    v <- getp entry k ;;
    ret (match v with VStr s => Some s | _ => None end).

#[global] Instance hit_keyed : Keyed IndexHit :=
  fun hit k =>
    ret (match hit_attr hit k with Some (JStr s) => Some s | _ => None end).

Definition getEntryKey {A} `{Keyed A} (entry : A) : M string :=
  id <- string_field entry "id" ;;
  locale <- string_field entry "locale" ;;
  match id, locale with
  | Some id, Some locale => ret (fingerprint id locale)
  | _, _ => fail TypeError
  end.

(** *** The diff *)

Record SyncBatch := {
  created : list value;
  updated : list value;
  deleted : list string
}.

(** [_.keyBy(data, getEntryKey)]: the properties of [entriesIndex]; a later
    record replaces an earlier one under the same key. *)
Definition keyBy (data : list value) : M (list (string * value)) :=
  foldM (fun entriesIndex entry =>
           key <- getEntryKey entry ;;
           ret (assoc_set key entry entriesIndex))
        data [].

(** [if (contentType)]: an omitted or empty content type counts as none. *)
Definition supplied (contentType : option string) : bool :=
  match contentType with
  | Some s => negb (s =? "")%string
  | None => false
  end.

(** [_.filter(hits, {contentType: contentType})]. *)
Definition matches_contentType (contentType : option string) (hit : IndexHit) : bool :=
  match contentType, hit_attr hit "contentType" with
  | Some s, Some (JStr s') => (s' =? s)%string
  | _, _ => false
  end.

(** [if (contentType) { hits = _.filter(hits, ...) }]. *)
Definition restrict (contentType : option string) (hits : list IndexHit) : list IndexHit :=
  if supplied contentType
  then List.filter (matches_contentType contentType) hits
  else hits.

(** The body of [_.each(hits, ...)] for one hit. *)
Definition classify (entriesIndex : list (string * value)) (contentType : option string)
    (results : SyncBatch) (hit : IndexHit) : M SyncBatch :=
  key <- getEntryKey hit ;;
  let entry := default VUndef (assoc_get key entriesIndex) in
  if truthy entry then
    setp entry "objectID" (VStr (objectID hit)) ;;;
    compactEntry <- omitBy_isUndefined entry ;;
    fun h =>
      if negb (isEqual h compactEntry hit)
      then (Ret {| created := created results;
                   updated := updated results ++ [entry];
                   deleted := deleted results |}, h)
      else (Ret results, h)
  else if supplied contentType then
    ret {| created := created results;
           updated := updated results;
           deleted := deleted results ++ [objectID hit] |}
  else ret results.

Fixpoint filterM {A} (p : A -> M bool) (l : list A) : M (list A) :=
  match l with
  | [] => ret []
  | x :: rest =>
      keep <- p x ;;
      kept <- filterM p rest ;;
      ret (if keep : bool then x :: kept else kept)
  end.

(** The callback of [this.cachedResults.then] in [getElementsPromise]
    (lines 157-183): the diff of [data] against the snapshot [hits]. *)
Definition diffHits (data : list value) (entriesIndex : list (string * value))
    (contentType : option string) (hits : list IndexHit) : M SyncBatch :=
  let hits := restrict contentType hits in
  results <- foldM (classify entriesIndex contentType) hits
                   {| created := []; updated := []; deleted := [] |} ;;
  new <- filterM (fun entry => o <- getp entry "objectID" ;; ret (negb (truthy o))) data ;;
  ret {| created := new; updated := updated results; deleted := deleted results |}.

(** The diff engine of section 4.5: what [getElementsPromise] computes from
    [data] once the snapshot [hits] is there. *)
Definition diff (data : list value) (contentType : option string)
    (hits : list IndexHit) : M SyncBatch :=
  entriesIndex <- keyBy data ;;
  diffHits data entriesIndex contentType hits.

(** *** The network and the Algolia instance *)

Inductive request :=
| BrowseAll
| AddObjects (objects : list value)
| SaveObjects (objects : list value)
| DeleteObjects (objectIDs : list string).

Inductive response :=
| Hits (hits : list IndexHit)
| Content (objectIDs : list string)
| TransportError.

(** The destination index as the code sees it: the answer to a request may
    depend on every request sent before it; [sent] is the log. *)
Record world := {
  server : list request -> request -> response;
  sent : list request
}.

Definition send (r : request) (w : world) : response * world :=
  (server w (sent w) r, {| server := server w; sent := sent w ++ [r] |}).

Inductive promise (A : Type) :=
| Resolved (a : A)
| Rejected.
Arguments Resolved {A} a.
Arguments Rejected {A}.

(** The one mutable field of an [Algolia] instance: [null], or the promise
    of the snapshot. *)
Record Algolia := { cachedResults : option (promise (list IndexHit)) }.

(** [new Algolia(config, index)]. *)
Definition newAlgolia : Algolia := {| cachedResults := None |}.

(** Lines 138-155: the snapshot promise, created (and the index browsed) only
    if the instance holds none. *)
Definition snapshot (a : Algolia) (w : world) : promise (list IndexHit) * Algolia * world :=
  match cachedResults a with
  | Some p => (p, a, w)
  | None =>
      let (resp, w') := send BrowseAll w in
      let p := match resp with
               | Hits hits => Resolved hits
               | _ => Rejected
               end in
      (p, {| cachedResults := Some p |}, w')
  end.

(** A [TypeError] raised inside a [then] callback rejects the promise. *)
Definition settle {A} (c : M A) : M (promise A) :=
  fun h => match c h with
           | (Ret a, h') => (Ret (Resolved a), h')
           | (Fail TypeError, h') => (Ret Rejected, h')
           | (Fail e, h') => (Fail e, h')
           end.

Definition getElementsPromise (a : Algolia) (data : list value)
    (contentType : option string) (w : world)
  : M (promise SyncBatch * Algolia * world) :=
  entriesIndex <- keyBy data ;;
  let '(p, a', w') := snapshot a w in
  match p with
  | Resolved hits =>
      r <- settle (diffHits data entriesIndex contentType hits) ;;
      ret (r, a', w')
  | Rejected => ret (Rejected, a', w')
  end.

Definition addObjects (objects : list value) (w : world) : promise (list string) * world :=
  if (length objects =? 0)%nat then (Resolved [], w)
  else let (resp, w') := send (AddObjects objects) w in
       (match resp with Content ids => Resolved ids | _ => Rejected end, w').

Definition updateObjects (objects : list value) (w : world) : promise (list string) * world :=
  if (length objects =? 0)%nat then (Resolved [], w)
  else let (resp, w') := send (SaveObjects objects) w in
       (match resp with Content ids => Resolved ids | _ => Rejected end, w').

Definition deleteObjects (objects : list string) (w : world) : promise (list string) * world :=
  if (length objects =? 0)%nat then (Resolved [], w)
  else let (resp, w') := send (DeleteObjects objects) w in
       (match resp with Content ids => Resolved ids | _ => Rejected end, w').

Definition getMergedObjects (data : list (list string)) : list string :=
  fold_left (fun objects element => objects ++ element) data [].

(** The three calls are made one after the other while the array for
    [Promise.all] is built; the result is rejected if any of them is. *)
Definition indexObjects (newObjects existingObjects : list value)
    (deletedObjects : list string) (w : world) : promise (list string) * world :=
  let (added, w1) := addObjects newObjects w in
  let (saved, w2) := updateObjects existingObjects w1 in
  let (removed, w3) := deleteObjects deletedObjects w2 in
  (match added, saved, removed with
   | Resolved a, Resolved b, Resolved c => Resolved (getMergedObjects [a; b; c])
   | _, _, _ => Rejected
   end, w3).

(** [indexData(data, contentType)]: the diff, then the commit; the final
    [catch(console.error)] turns a rejection into a result without
    identifiers. *)
Definition indexData (a : Algolia) (data : list value) (contentType : option string)
    (w : world) : M (option (list string) * Algolia * world) :=
  r <- getElementsPromise a data contentType w ;;
  let '(p, a', w') := r in
  match p with
  | Resolved entries =>
      let (ids, w'') := indexObjects (created entries) (updated entries) (deleted entries) w' in
      ret (match ids with Resolved l => Some l | Rejected => None end, a', w'')
  | Rejected => ret (None, a', w')
  end.

(** ** Sync.js: the orchestrator *)

(** [String(v)], the key [_.groupBy] files a record under. An integer is
    printed in full below [10^21]; from there on JavaScript prints an
    exponent, which is left out of the model. *)
Definition to_key (v : value) : M string :=
  match v with
  | VStr s => ret s
  | VUndef => ret "undefined"
  | VNull => ret "null"
  | VBool true => ret "true"
  | VBool false => ret "false"
  | VNum n => if (Z.abs n <? 10 ^ 21)%Z
              then ret (NilZero.string_of_int (Z.to_int n))
              else fail Unmodelled
  | VRef _ => o <- deref v ;;
              match o with
              | Obj _ => ret "[object Object]"
              | Arr _ => fail Unmodelled
              end
  end.

Fixpoint group_add (k : string) (v : value) (groups : list (string * list value))
  : list (string * list value) :=
  match groups with
  | [] => [(k, [v])]
  | (k', vs) :: rest =>
      if (k' =? k)%string then (k', vs ++ [v]) :: rest
      else (k', vs) :: group_add k v rest
  end.

(** [_.property('contentType')], the iteratee of [_.groupBy]: [undefined]
    for a record that is [undefined] or [null]. *)
Definition property_contentType (record : value) : M value :=
  match record with
  | VUndef | VNull => ret VUndef
  | _ => getp record "contentType"
  end.

(** The array index a property name denotes, if it denotes one: a decimal
    numeral without leading zeros, below [2^32 - 1]. *)
Definition array_index (k : string) : option N :=
  match NilEmpty.uint_of_string k with
  | Some u =>
      let n := N.of_uint u in
      if (NilEmpty.string_of_uint (N.to_uint n) =? k)%string && (n <? 4294967295)%N
      then Some n
      else None
  | None => None
  end.

Fixpoint insert_by_index (n : N) (group : string * list value)
    (sorted : list (N * (string * list value))) : list (N * (string * list value)) :=
  match sorted with
  | [] => [(n, group)]
  | (m, group') :: rest =>
      if (n <? m)%N then (n, group) :: sorted
      else (m, group') :: insert_by_index n group rest
  end.

(** The order in which the own properties of an object are enumerated:
    the array indices by value, then the other names in the order in which
    they were created. *)
Definition own_property_order (groups : list (string * list value))
  : list (string * list value) :=
  map snd (fold_right (fun group sorted =>
                         match array_index (fst group) with
                         | Some n => insert_by_index n group sorted
                         | None => sorted
                         end) [] groups)
  ++ List.filter (fun group => match array_index (fst group) with
                               | Some _ => false
                               | None => true
                               end) groups.

(** [_.groupBy(records, 'contentType')]: the groups are the properties of
    one object, listed as [_.each] will enumerate them. *)
Definition groupBy_contentType (records : list value) : M (list (string * list value)) :=
  groups <- foldM (fun groups record =>
                     ct <- property_contentType record ;;
                     k <- to_key ct ;;
                     ret (group_add k record groups))
                  records [] ;;
  ret (own_property_order groups).

Section Orchestrator.

Variable locales : option (list (list string)).

(** The observer given to [sync], and the optional per-record transform. *)
Variable callback : option (list value -> M unit).
Variable manipulateSingle : option (value -> list value -> M value).

(** The [then] callback of [getEntries], on the entries the source
    repository returned. *)
Definition getEntries (fuel : nat) (contentTypes : list string) (entries : list value)
  : M (list (string * list value)) :=
  kept <- filterM (fun entry =>
                     sys <- getp entry "sys" ;;
                     ct <- getp sys "contentType" ;;
                     ctsys <- getp ct "sys" ;;
                     id <- getp ctsys "id" ;;
                     ret (existsb (fun t => strict_eq (VStr t) id) contentTypes))
                  entries ;;
  mapped <- mapM (fun entry =>
                    localizedEntries <- _getLocalizedEntries locales fuel entry ;;
                    match manipulateSingle, localizedEntries with
                    | Some f, FlatMany l =>
                        l' <- mapM (fun entry => f entry l) l ;; ret (FlatMany l')
                    | Some _, FlatOne _ => fail TypeError
                    | None, _ => ret localizedEntries
                    end)
                 kept ;;
  groupBy_contentType
    (flat_map (fun r => match r with FlatOne e => [e] | FlatMany l => l end) mapped).

(** One content type on its way: its records, their index by fingerprint
    and the snapshot promise of the [Algolia] instance made for it. *)
Record pending := {
  p_data : list value;
  p_index : list (string * value);
  p_hits : promise (list IndexHit)
}.

(** [singleCallback] up to the point where it waits for the index: the
    observer, a new [Algolia] instance, [indexData(content)] with no
    content type, down to the browse request. *)
Definition singleCallback_issue (content : list value) (w : world) : M (pending * world) :=
  match callback with Some f => f content | None => ret tt end ;;;
  entriesIndex <- keyBy content ;;
  let '(p, _, w') := snapshot newAlgolia w in
  ret ({| p_data := content; p_index := entriesIndex; p_hits := p |}, w').

(** The rest of [singleCallback], run when the snapshot has arrived. *)
Definition singleCallback_settle (p : pending) (w : world)
  : M (option (list string) * world) :=
  match p_hits p with
  | Resolved hits =>
      r <- settle (diffHits (p_data p) (p_index p) None hits) ;;
      match r with
      | Resolved entries =>
          let (ids, w') :=
            indexObjects (created entries) (updated entries) (deleted entries) w in
          ret (match ids with Resolved l => Some l | Rejected => None end, w')
      | Rejected => ret (None, w)
      end
  | Rejected => ret (None, w)
  end.

(** [singleCallback(type, content)] on its own. *)
Definition singleCallback (content : list value) (w : world)
  : M (option (list string) * world) :=
  r <- singleCallback_issue content w ;;
  singleCallback_settle (fst r) (snd r).

(** [_.each(content, (entries, type) => this.singleCallback(type, entries))]
    runs to its end before any promise is settled; an exception ends the
    loop and is logged by the [catch] of [sync]. *)
Fixpoint issue_all (content : list (string * list value)) (w : world)
  : M (list pending * world) :=
  match content with
  | [] => ret ([], w)
  | (_, entries) :: rest =>
      fun h =>
        match singleCallback_issue entries w h with
        | (Ret (p, w'), h') =>
            match issue_all rest w' h' with
            | (Ret (ps, w''), h'') => (Ret (p :: ps, w''), h'')
            | (Fail e, h'') => (Fail e, h'')
            end
        | (Fail TypeError, h') => (Ret ([], w), h')
        | (Fail e, h') => (Fail e, h')
        end
  end.

(** The pipelines then finish, here in the order they were started. *)
Fixpoint settle_all (ps : list pending) (w : world)
  : M (list (option (list string)) * world) :=
  match ps with
  | [] => ret ([], w)
  | p :: rest =>
      r <- singleCallback_settle p w ;;
      rs <- settle_all rest (snd r) ;;
      ret (fst r :: fst rs, snd rs)
  end.

(** One run of [sync], from the grouped content on. *)
Definition sync_each (content : list (string * list value)) (w : world)
  : M (list (option (list string)) * world) :=
  r <- issue_all content w ;;
  settle_all (fst r) (snd r).

Definition sync (fuel : nat) (contentTypes : list string) (entries : list value)
    (w : world) : M (list (option (list string)) * world) :=
  content <- getEntries fuel contentTypes entries ;;
  sync_each content w.

End Orchestrator.


(** ** Reference behaviour stated from the specification *)

(** The locale resolution of a field as section 4.2 words it: the value of
    the first locale code of the group that is present in the field's
    mapping, [undefined] if none is. *)
Definition first_present (mapping : list (string * value)) (group : list string) : value :=
  match List.find (fun code => bool_decide (is_Some (assoc_get code mapping))) group with
  | Some code => default VUndef (assoc_get code mapping)
  | None => VUndef
  end.

(** The resolution the code performs: the value of the first locale code of
    the group whose value in the mapping is truthy, [undefined] if none is. *)
Definition first_truthy (mapping : list (string * value)) (group : list string) : value :=
  match List.find (fun code => truthy (default VUndef (assoc_get code mapping))) group with
  | Some code => default VUndef (assoc_get code mapping)
  | None => VUndef
  end.

(** The properties [_getFieldsForLocale] gives its result before it sets
    [locale]: every key of [fields], resolved on its own. *)
Definition resolved_fields (h : heap) (fields : list (string * value))
    (group : list string) : list (string * value) :=
  fold_left (fun acc key =>
               match default VUndef (assoc_get key fields) with
               | VRef l =>
                   match h !! l with
                   | Some (Obj mapping) => assoc_set key (first_truthy mapping group) acc
                   | _ => acc
                   end
               | _ => acc
               end)
            (map fst fields) [].

(** ** Sample data *)

(** An entry that refers to itself, and two entries that refer to each
    other. *)
Definition self_referential : heap :=
  [ Obj [("sys", VRef 1); ("fields", VRef 4)];
    Obj [("id", VStr "e1"); ("type", VStr "Entry"); ("contentType", VRef 2)];
    Obj [("sys", VRef 3)];
    Obj [("id", VStr "page")];
    Obj [("self", VRef 5)];
    Obj [("en", VRef 0)] ].

Definition mutually_referential : heap :=
  [ Obj [("sys", VRef 1); ("fields", VRef 4)];
    Obj [("id", VStr "e1"); ("type", VStr "Entry"); ("contentType", VRef 2)];
    Obj [("sys", VRef 3)];
    Obj [("id", VStr "page")];
    Obj [("other", VRef 5)];
    Obj [("en", VRef 6)];
    Obj [("sys", VRef 7); ("fields", VRef 8)];
    Obj [("id", VStr "e2"); ("type", VStr "Entry"); ("contentType", VRef 2)];
    Obj [("back", VRef 9)];
    Obj [("en", VRef 0)] ].

Definition flatten_outcome (r : outcome flattened * heap) : outcome flattened := fst r.

(** Two flat records of different content types, and an index that holds
    one record at the first browse and two afterwards. *)
Definition sample_records : heap :=
  [ Obj [("id", VStr "e1"); ("locale", VStr "en"); ("title", VStr "A");
         ("contentType", VStr "page")];
    Obj [("id", VStr "e2"); ("locale", VStr "en"); ("title", VStr "B");
         ("contentType", VStr "post")] ].

Definition hit_e1 : IndexHit :=
  {| objectID := "obj1";
     attrs := [("id", JStr "e1"); ("locale", JStr "en"); ("title", JStr "A");
               ("contentType", JStr "page")] |}.

Definition hit_e2 : IndexHit :=
  {| objectID := "obj2";
     attrs := [("id", JStr "e2"); ("locale", JStr "en"); ("title", JStr "B");
               ("contentType", JStr "post")] |}.

Definition sample_world : world :=
  {| server := fun log r =>
                 match r with
                 | BrowseAll => Hits (if (length log =? 0)%nat then [hit_e1]
                                      else [hit_e1; hit_e2])
                 | _ => Content []
                 end;
     sent := [] |}.




(** ** Notions used to state the diff properties *)

(** The fingerprint [getEntryKey] gives an entry, if it gives one. *)
Definition key_of {A} `{Keyed A} (entry : A) (h : heap) : option string :=
  match fst (getEntryKey entry h) with
  | Ret k => Some k
  | Fail _ => None
  end.

(** The only writes of the diff: an [objectID] put on an object. *)
Definition same_but_objectID (o o1 : object) : Prop :=
  o1 = o \/ exists ps v, o = Obj ps /\ o1 = Obj (assoc_set "objectID" v ps).

(** [attached h h1]: [h1] is [h] with object identifiers attached to some
    of its objects. *)
Definition attached (h h1 : heap) : Prop := Forall2 same_but_objectID h h1.

(** [stamped data hits h h1]: [h1] is [h] as the diff of [data] against
    [hits] can have left it: the two differ only at incoming records, and
    such a record carries the [objectID] of a hit of [hits] that has its
    fingerprint (line 170 is the only write of the diff). *)
Definition stamped (data : list value) (hits : list IndexHit) (h h1 : heap) : Prop :=
  length h1 = length h
  /\ forall l : loc,
       h1 !! l = h !! l
       \/ (In (VRef l) data
           /\ exists ps x k,
                h !! l = Some (Obj ps)
                /\ In x hits
                /\ key_of x h = Some k
                /\ key_of (VRef l) h = Some k
                /\ h1 !! l = Some (Obj (assoc_set "objectID" (VStr (objectID x)) ps))).

(** The record [r] compares equal to [hit] after the steps the diff takes
    before it compares them (the hit's [objectID] attached, the properties
    that are [undefined] left out), whichever incoming records the diff of
    [data] against [hits] has attached identifiers to by then. *)
Definition equal_when_compared (data : list value) (hits : list IndexHit) (h : heap)
    (r : value) (hit : IndexHit) : Prop :=
  forall h1 h2 ps,
    stamped data hits h h1 ->
    setp r "objectID" (VStr (objectID hit)) h1 = (Ret tt, h2) ->
    omitBy_isUndefined r h2 = (Ret ps, h2) ->
    isEqual h2 ps hit = true.


(** Whether a hit's fingerprint is a key of [entriesIndex]. *)
Definition matched (entriesIndex : list (string * value)) (hit : IndexHit) : bool :=
  match key_of hit [] with
  | Some k => bool_decide (is_Some (assoc_get k entriesIndex))
  | None => false
  end.

(** The property [k] of the object [v] refers to, read without effect. *)
Definition peek (h : heap) (v : value) (k : string) : value :=
  match v with
  | VRef l => match h !! l with
              | Some o => obj_get o k
              | None => VUndef
              end
  | _ => VUndef
  end.


(** The diff compared the record [u] with the hit [x] and found them
    different. *)
Definition found_different (h : heap) (u : value) (x : IndexHit) : Prop :=
  exists h2 h3 ps,
    attached h h2
    /\ setp u "objectID" (VStr (objectID x)) h2 = (Ret tt, h3)
    /\ omitBy_isUndefined u h3 = (Ret ps, h3)
    /\ isEqual h3 ps x = false.


(** A record that holds a plain object, and the record of the index equal
    to it. *)
Definition nested_records : heap :=
  [ Obj [("id", VStr "e1"); ("locale", VStr "en"); ("title", VStr "A");
         ("author", VRef 1); ("contentType", VStr "page")];
    Obj [("name", VStr "N")] ].

Definition hit_nested : IndexHit :=
  {| objectID := "obj1";
     attrs := [("id", JStr "e1"); ("locale", JStr "en"); ("title", JStr "A");
               ("author", JObj [("name", JStr "N")]); ("contentType", JStr "page")] |}.


(** A second record of the index with the fingerprint of [hit_e1] and
    another title. *)
Definition hit_e1_stale : IndexHit :=
  {| objectID := "obj9";
     attrs := [("id", JStr "e1"); ("locale", JStr "en"); ("title", JStr "Old");
               ("contentType", JStr "page")] |}.


(** An entry of content type [page] with a title in two locales, as the
    source repository delivers it. *)
Definition two_locale_entry : heap :=
  [ Obj [("sys", VRef 1); ("fields", VRef 4)];
    Obj [("id", VStr "e1"); ("type", VStr "Entry"); ("contentType", VRef 2);
         ("revision", VNum 1)];
    Obj [("sys", VRef 3)];
    Obj [("id", VStr "page")];
    Obj [("title", VRef 5)];
    Obj [("en", VStr "A"); ("de", VStr "B")] ].



(** ** Notions used to state further properties *)

Definition is_delete (r : request) : bool :=
  match r with DeleteObjects _ => true | _ => false end.

(** The request a bulk operation sends for its set: none for an empty
    set. *)
Definition bulk_request {A} (mk : list A -> request) (objects : list A) : list request :=
  match objects with
  | [] => []
  | _ => [mk objects]
  end.


(** An index that answers every request with a transport error. *)
Definition failing_world : world :=
  {| server := fun _ _ => TransportError; sent := [] |}.

(** An index that answers a browse with [hit_e1] and a bulk request with one
    identifier. *)
Definition answering_world : world :=
  {| server := fun _ r =>
                 match r with
                 | BrowseAll => Hits [hit_e1]
                 | AddObjects _ => Content ["added"]
                 | SaveObjects _ => Content ["saved"]
                 | DeleteObjects _ => Content ["deleted"]
                 end;
     sent := [] |}.



(** Two incoming records with the same [id] and [locale]. *)
Definition duplicate_records : heap :=
  [ Obj [("id", VStr "e1"); ("locale", VStr "en"); ("title", VStr "A")];
    Obj [("id", VStr "e1"); ("locale", VStr "en"); ("title", VStr "B")] ].

(** The key [_.groupBy(records, 'contentType')] files a record under, if
    reading it raises nothing. *)
Definition ct_key (h : heap) (record : value) : option string :=
  match fst ((ct <- property_contentType record ;; to_key ct) h) with
  | Ret k => Some k
  | Fail _ => None
  end.

(** Whether [record] is filed under [k]. *)
Definition has_ct_key (h : heap) (k : string) (record : value) : bool :=
  match ct_key h record with
  | Some k' => (k' =? k)%string
  | None => false
  end.

(** The records filed under [k]. *)
Fixpoint group_get (k : string) (groups : list (string * list value)) : list value :=
  match groups with
  | [] => []
  | (k', vs) :: rest => if (k' =? k)%string then vs else group_get k rest
  end.


(** Lines 205-216 of [_cleanEntry]: what it does once [contentType] and
    [newEntry] are settled. *)
Definition cleanEntry_rest (locales : option (list (list string)))
    (entry contentType newEntry : value) : M value :=
  f <- getp entry "fields" ;;
  setp newEntry "fields" f ;;;
  nf <- getp newEntry "fields" ;;
  (if typeof_object nf then
     c <- getp nf "contentType" ;;
     if negb (truthy c) then
       c' <- alloc (Obj []) ;;
       setp nf "contentType" c' ;;;
       match locales with
       | None => fail TypeError
       | Some groups =>
           forM groups (fun locale =>
             forM locale (fun code =>
               nf1 <- getp newEntry "fields" ;;
               c1 <- getp nf1 "contentType" ;;
               setp c1 code contentType))
       end
     else ret tt
   else ret tt) ;;;
  ret newEntry.

(** The envelope once [_cleanEntry] has deleted its four properties. *)
Definition stripped (sys : list (string * value)) : list (string * value) :=
  assoc_del "revision" (assoc_del "type" (assoc_del "contentType" (assoc_del "space" sys))).

(** The locale codes of a configuration, group after group. *)
Definition tag_all (contentType : value) (groups : list (list string))
  : list (string * value) :=
  fold_left (fun t c => assoc_set c contentType t) (concat groups) [].


(** An unresolved link, or what is left of one: an object without
    [fields] whose [sys], if it has one, is an object that names no content
    type. *)
Definition link_like (h : heap) (v : value) : Prop :=
  exists l pl,
    v = VRef l /\ h !! l = Some (Obj pl) /\ assoc_get "fields" pl = None
    /\ (assoc_get "sys" pl = None
        \/ exists s ps,
             assoc_get "sys" pl = Some (VRef s) /\ h !! s = Some (Obj ps)
             /\ truthy (default VUndef (assoc_get "contentType" ps)) = false).

(** [h'] is [h] with new objects after it and with [sys] deleted from some
    of its objects. *)
Definition unlinked (h h' : heap) : Prop :=
  length h <= length h'
  /\ forall l : loc, l < length h ->
               h' !! l = h !! l
               \/ exists pl, h !! l = Some (Obj pl) /\ h' !! l = Some (Obj (assoc_del "sys" pl)).

(** What an element of an array field becomes: a scalar stays, an object
    is replaced by a new object that holds the locale and nothing else. *)
Definition stubbed (h h' : heap) (locale : list string) (element mapped : value) : Prop :=
  if isObject element
  then exists l', mapped = VRef l' /\ length h <= l'
                  /\ h' !! l' = Some (Obj [("locale", match locale with
                                                      | code :: _ => VStr code
                                                      | [] => VUndef
                                                      end)])
  else mapped = element.


(** * Properties *)

(** ** SHA-256 test vectors (FIPS 180-4) *)

Example sha256_abc :
  SHA256.digest_hex (SHA256.update SHA256.init "abc")
  = "ba7816bf8f01cfea414140de5dae2223b00361a396177a9cb410ff61f20015ad".
Proof. vm_compute. reflexivity. Qed.

Example sha256_empty :
  SHA256.digest_hex SHA256.init
  = "e3b0c44298fc1c149afbf4c8996fb92427ae41e4649b934ca495991b7852b855".
Proof. vm_compute. reflexivity. Qed.

Example sha256_two_blocks :
  SHA256.hex (SHA256.final (SHA256.update_bytes SHA256.init (repeat 97%Z 130)))
  = "1e3c4f4750c8c29bbfa9ced317788176b156d342e57f7777f62fd7221a44312f".
Proof. vm_compute. reflexivity. Qed.

Example sha256_pad_boundary :
  SHA256.hex (SHA256.final (SHA256.update_bytes SHA256.init (repeat 97%Z 56)))
  = "b35439a4ac6f0948b6d6f9e3c6af0f5f590ce20f1bde7090ef7970686ec6738a".
Proof. vm_compute. reflexivity. Qed.

(** ** Stepping through heap computations *)

Lemma bind_eq {A B} (c : M A) (k : A -> M B) (h h' : heap) (a : A) :
  c h = (Ret a, h') -> bind c k h = k a h'.
Proof. intros H. unfold bind. now rewrite H. Qed.

Lemma bind_fail {A B} (c : M A) (k : A -> M B) (h h' : heap) (e : failure) :
  c h = (Fail e, h') -> bind c k h = (Fail e, h').
Proof. intros H. unfold bind. now rewrite H. Qed.

Lemma bind_inv {A B} (c : M A) (k : A -> M B) (h h2 : heap) (b : B) :
  bind c k h = (Ret b, h2) ->
  exists a h1, c h = (Ret a, h1) /\ k a h1 = (Ret b, h2).
Proof.
  unfold bind. destruct (c h) as [[a|e] h1]; [eauto|discriminate].
Qed.

Lemma bind_assoc {A B C} (c : M A) (k1 : A -> M B) (k2 : B -> M C) (h : heap) :
  bind (bind c k1) k2 h = bind c (fun a => bind (k1 a) k2) h.
Proof. unfold bind. now destruct (c h) as [[a|e] h1]. Qed.

Lemma ret_eq {A} (a : A) (h : heap) : ret a h = (Ret a, h).
Proof. reflexivity. Qed.

Lemma alloc_eq (o : object) (h : heap) :
  alloc o h = (Ret (VRef (length h)), h ++ [o]).
Proof. reflexivity. Qed.

Lemma deref_eq (l : loc) (o : object) (h : heap) :
  h !! l = Some o -> deref (VRef l) h = (Ret o, h).
Proof. intros H. unfold deref. now rewrite H. Qed.

Lemma getp_eq (l : loc) (o : object) (k : string) (h : heap) :
  h !! l = Some o -> getp (VRef l) k h = (Ret (obj_get o k), h).
Proof. intros H. unfold getp. now rewrite (bind_eq _ _ _ _ _ (deref_eq _ _ _ H)). Qed.

Lemma keys_of_eq (l : loc) (o : object) (h : heap) :
  h !! l = Some o -> keys_of (VRef l) h = (Ret (obj_keys o), h).
Proof. intros H. unfold keys_of. now rewrite (bind_eq _ _ _ _ _ (deref_eq _ _ _ H)). Qed.

Lemma has_key_eq (l : loc) (o : object) (k : string) (h : heap) :
  h !! l = Some o -> has_key (VRef l) k h = (Ret (obj_has o k), h).
Proof. intros H. unfold has_key. now rewrite (bind_eq _ _ _ _ _ (deref_eq _ _ _ H)). Qed.

Lemma is_array_eq (l : loc) (o : object) (h : heap) :
  h !! l = Some o ->
  is_array (VRef l) h = (Ret (match o with Arr _ => true | Obj _ => false end), h).
Proof. intros H. unfold is_array. now rewrite (bind_eq _ _ _ _ _ (deref_eq _ _ _ H)). Qed.

Lemma setp_eq (l : loc) (ps : list (string * value)) (k : string) (x : value) (h : heap) :
  h !! l = Some (Obj ps) ->
  setp (VRef l) k x h = (Ret tt, <[l := Obj (assoc_set k x ps)]> h).
Proof. intros H. unfold setp. now rewrite (bind_eq _ _ _ _ _ (deref_eq _ _ _ H)). Qed.

Lemma delp_eq (l : loc) (ps : list (string * value)) (k : string) (h : heap) :
  h !! l = Some (Obj ps) ->
  delp (VRef l) k h = (Ret tt, <[l := Obj (assoc_del k ps)]> h).
Proof. intros H. unfold delp. now rewrite (bind_eq _ _ _ _ _ (deref_eq _ _ _ H)). Qed.

Lemma lookup_alloc_old (h : heap) (o o' : object) (l : loc) :
  h !! l = Some o -> (h ++ [o']) !! l = Some o.
Proof.
  intros H. rewrite lookup_app_l; [exact H|]. now apply lookup_lt_Some in H.
Qed.

Lemma lookup_alloc_new (h : heap) (o : object) : (h ++ [o]) !! length h = Some o.
Proof. rewrite lookup_app_r by lia. now rewrite Nat.sub_diag. Qed.

(** One step of a computation whose first action is known. *)
Ltac mstep H := rewrite ?bind_assoc; rewrite (bind_eq _ _ _ _ _ H).
Ltac mret := rewrite ?bind_assoc; rewrite (bind_eq _ _ _ _ _ (ret_eq _ _)).

(** [evaluated t as E] runs the closed term [t] and records its value. *)
Tactic Notation "evaluated" constr(t) "as" ident(E) :=
  let nf := eval vm_compute in t in
  assert (E : t = nf) by (vm_cast_no_check (@eq_refl _ nf)).

Lemma assoc_get_set (k k' : string) (v : value) (ps : list (string * value)) :
  assoc_get k (assoc_set k' v ps)
  = if (k' =? k)%string then Some v else assoc_get k ps.
Proof.
  induction ps as [|[k0 v0] ps IH]; simpl.
  - reflexivity.
  - destruct (k0 =? k')%string eqn:E0; simpl.
    + apply String.eqb_eq in E0. subst k0.
      now destruct (k' =? k)%string.
    + rewrite IH. destruct (k0 =? k)%string eqn:E1; [|reflexivity].
      apply String.eqb_eq in E1. subst k0.
      rewrite String.eqb_sym in E0. now rewrite E0.
Qed.

Lemma assoc_get_set_same (k : string) (v : value) (ps : list (string * value)) :
  assoc_get k (assoc_set k v ps) = Some v.
Proof. rewrite assoc_get_set. now rewrite String.eqb_refl. Qed.

Lemma assoc_get_set_other (k k' : string) (v : value) (ps : list (string * value)) :
  k' <> k -> assoc_get k (assoc_set k' v ps) = assoc_get k ps.
Proof. intros H. rewrite assoc_get_set. apply String.eqb_neq in H. now rewrite H. Qed.

Lemma assoc_get_In (k : string) (v : value) (ps : list (string * value)) :
  assoc_get k ps = Some v -> In (k, v) ps.
Proof.
  induction ps as [|[k0 v0] ps IH]; simpl; [discriminate|].
  destruct (k0 =? k)%string eqn:E.
  - apply String.eqb_eq in E. intros [= ->]. left. now subst.
  - intros H. right. now apply IH.
Qed.

Lemma assoc_get_key_in (k : string) (ps : list (string * value)) :
  In k (map fst ps) -> is_Some (assoc_get k ps).
Proof.
  induction ps as [|[k0 v0] ps IH]; simpl; [tauto|].
  intros [->|H].
  - rewrite String.eqb_refl. eauto.
  - destruct (k0 =? k)%string; [eauto|now apply IH].
Qed.

(** ** The fingerprint *)

Lemma bytes_of_string_app (a b : string) :
  SHA256.bytes_of_string (a ++ b)%string
  = SHA256.bytes_of_string a ++ SHA256.bytes_of_string b.
Proof.
  induction a as [|c a IH]; simpl; [reflexivity|].
  now rewrite IH.
Qed.

(** Two successive updates are one update with the concatenation. *)
Lemma update_update (c : SHA256.ctx) (a b : string) :
  SHA256.update (SHA256.update c a) b = SHA256.update c (a ++ b)%string.
Proof.
  unfold SHA256.update, SHA256.update_bytes.
  now rewrite bytes_of_string_app, fold_left_app.
Qed.

Lemma fingerprint_concat (id locale : string) :
  fingerprint id locale
  = SHA256.digest_hex (SHA256.update SHA256.init (id ++ locale)%string).
Proof. unfold fingerprint. now rewrite update_update. Qed.

(** C1 (as amended). The fingerprint of [(id, locale)] is the SHA-256 digest
    of the concatenation of [id] and [locale] with nothing between them, and
    that is the key [getEntryKey] gives an entry with these two strings. Pairs
    with the same concatenation therefore have the same fingerprint, as the
    pairs [("ab", "c")] and [("a", "bc")] do. *)
Theorem getEntryKey_hashes_concatenation :
  (forall id locale : string,
      fingerprint id locale
      = SHA256.digest_hex (SHA256.update SHA256.init (id ++ locale)%string))
  /\ (forall (oid id locale : string) (rest : list (string * json)) (h : heap),
         getEntryKey {| objectID := oid;
                        attrs := ("id", JStr id) :: ("locale", JStr locale) :: rest |} h
         = (Ret (SHA256.digest_hex (SHA256.update SHA256.init (id ++ locale)%string)), h))
  /\ fingerprint "ab" "c" = fingerprint "a" "bc".
Proof.
  split; [exact fingerprint_concat|]. split.
  - intros oid id locale rest h.
    unfold getEntryKey, string_field, hit_keyed, bind, ret. simpl.
    now rewrite fingerprint_concat.
  - now rewrite !fingerprint_concat.
Qed.

(** C1 fails as stated: a record with [id = "ab"], [locale = "c"] and one
    with [id = "a"], [locale = "bc"] differ in both fields and get the same
    key from [getEntryKey]. *)
Lemma getEntryKey_boundary_collision :
  ("ab", "c") <> ("a", "bc")
  /\ getEntryKey {| objectID := "o1"; attrs := [("id", JStr "ab"); ("locale", JStr "c")] |} []
     = getEntryKey {| objectID := "o2"; attrs := [("id", JStr "a"); ("locale", JStr "bc")] |} []
  /\ ~ (fingerprint "ab" "c" <> fingerprint "a" "bc").
Proof.
  split; [discriminate|]. split.
  - vm_compute. reflexivity.
  - intros H. apply H. vm_compute. reflexivity.
Qed.

(** ** The commit *)

(** C8. On a batch whose three sets are empty, none of the three bulk
    operations sends a request (the world, and with it the log of requests,
    is unchanged), each gives an empty identifier list and so does the
    commit. *)
Theorem indexObjects_empty_batch (w : world) :
  addObjects [] w = (Resolved [], w)
  /\ updateObjects [] w = (Resolved [], w)
  /\ deleteObjects [] w = (Resolved [], w)
  /\ indexObjects [] [] [] w = (Resolved [], w).
Proof. repeat split. Qed.

(** ** The visited stack of [_cleanMore] *)

Lemma indexOf_from_nonneg (st : list value) (v : value) (i : Z) :
  (0 <= i)%Z -> indexOf_from st v i = (-1)%Z \/ (i <= indexOf_from st v i)%Z.
Proof.
  revert i. induction st as [|x st IH]; intros i Hi; simpl; [now left|].
  destruct (strict_eq x v); [right; lia|].
  destruct (IH (i + 1)%Z) as [H|H]; [lia|now left|right; lia].
Qed.

(** [_.indexOf] is [0], the one falsy answer, exactly when the stack starts
    with the entry. *)
Lemma indexOf_zero (st : list value) (v : value) :
  indexOf st v = 0%Z <-> exists x rest, st = x :: rest /\ strict_eq x v = true.
Proof.
  unfold indexOf. destruct st as [|x st]; simpl.
  - split; [discriminate|]. now intros (x & rest & H & _).
  - destruct (strict_eq x v) eqn:E.
    + split; [eauto|reflexivity].
    + split.
      * intros H. change (0 + 1)%Z with 1%Z in H.
        destruct (indexOf_from_nonneg st v 1) as [H1|H1]; lia.
      * intros (x' & rest & H & Hx). injection H as -> ->. congruence.
Qed.

(** Whenever the entry is not the first element of the stack, the call
    returns the entry at once; all it leaves is the empty object it had set
    aside for the result. *)
Lemma cleanMore_returns_early (locales : option (list (list string))) (fuel : nat)
    (entry : value) (locale : list string) (st : option (list value)) (h : heap) :
  indexOf (default [] st) entry <> 0%Z ->
  _cleanMore locales (S fuel) entry locale st h = (Ret entry, h ++ [Obj []]).
Proof.
  intros H. simpl. unfold bind, alloc.
  destruct (indexOf (default [] st) entry =? 0)%Z eqn:E; [|reflexivity].
  apply Z.eqb_eq in E. contradiction.
Qed.

(** C10. Called without a stack, as the flattening of a top-level entry calls
    it, or with an empty one, [_cleanMore] returns its argument and changes
    no object of the heap: the loop over the entry's keys, with the stripping
    of nested entries and the merging of [elements], is never entered. The
    only trace is the empty object allocated for the unused result. *)
Theorem cleanMore_top_level_is_identity (locales : option (list (list string)))
    (fuel : nat) (entry : value) (locale : list string) (h : heap) :
  _cleanMore locales (S fuel) entry locale None h = (Ret entry, h ++ [Obj []])
  /\ _cleanMore locales (S fuel) entry locale (Some []) h = (Ret entry, h ++ [Obj []])
  /\ indexOf [] entry = (-1)%Z.
Proof.
  repeat split; apply cleanMore_returns_early; simpl; unfold indexOf; simpl; lia.
Qed.

(** C9. Whatever the heap, and so whatever cycles the entry is part of, the
    call of [_cleanMore] the flattener makes (no stack given) returns the
    entry after one step, for every fuel above zero. The whole flattening of
    an entry that refers to itself, and of one in a cycle of two entries,
    returns one record as well. *)
Theorem cleanMore_terminates (locales : option (list (list string)))
    (fuel : nat) (entry : value) (locale : list string) (h : heap) :
  (exists h', _cleanMore locales (S fuel) entry locale None h = (Ret entry, h'))
  /\ flatten_outcome (_getLocalizedEntries (Some [["en"]]) 10 (VRef 0) self_referential)
     = Ret (FlatMany [VRef 1])
  /\ flatten_outcome (_getLocalizedEntries (Some [["en"]]) 10 (VRef 0) mutually_referential)
     = Ret (FlatMany [VRef 1]).
Proof.
  split; [|split].
  - exists (h ++ [Obj []]). apply cleanMore_returns_early. unfold indexOf. simpl. lia.
  - vm_compute. reflexivity.
  - vm_compute. reflexivity.
Qed.

(** The stack does not stop every cycle: once the entry is the first element
    of the stack, a property that holds the entry itself is entered again
    and again, whatever the fuel. No call made by the flattener starts like
    this. *)
Lemma cleanMore_first_on_stack_unbounded (locales : option (list (list string)))
    (locale : list string) (fuel : nat) :
  forall (k : nat) (h : heap),
    h !! 0%nat = Some (Obj [("self", VRef 0)]) ->
    fst (_cleanMore locales fuel (VRef 0) locale (Some (repeat (VRef 0) (S k))) h)
    = Fail OutOfFuel.
Proof.
  induction fuel as [|n IH]; intros k h Hh; [reflexivity|].
  pose proof (lookup_alloc_old h _ (Obj []) _ Hh) as Hh'.
  specialize (IH (S k) (h ++ [Obj []]) Hh').
  replace (repeat (VRef 0) (S (S k))) with (repeat (VRef 0) (S k) ++ [VRef 0]) in IH
    by (rewrite <- repeat_cons; reflexivity).
  cbn [_cleanMore]. mstep (alloc_eq (Obj []) h).
  assert (Hidx : (indexOf (default [] (Some (repeat (VRef 0) (S k)))) (VRef 0) =? 0)%Z = true)
    by reflexivity.
  rewrite Hidx. cbn [negb].
  unfold for_in. mstep (keys_of_eq _ _ (h ++ [Obj []]) Hh').
  cbn [obj_keys map fst forM].
  mstep (has_key_eq _ _ "self" _ Hh').
  change (obj_has (Obj [("self", VRef 0)]) "self") with true. cbv iota.
  mstep (getp_eq _ _ "self" _ Hh').
  change (obj_get (Obj [("self", VRef 0)]) "self") with (VRef 0).
  cbn [typeof_object].
  mstep (getp_eq _ _ "sys" _ Hh').
  change (obj_get (Obj [("self", VRef 0)]) "sys") with VUndef. cbn [truthy].
  mstep (getp_eq _ _ "elements" _ Hh').
  change (obj_get (Obj [("self", VRef 0)]) "elements") with VUndef.
  mstep (ret_eq false (h ++ [Obj []])).
  cbn [truthy andb]. rewrite ?bind_assoc.
  destruct (_cleanMore locales n (VRef 0) locale _ (h ++ [Obj []])) as [[r|e] h1] eqn:E;
    simpl in IH; [discriminate|]. injection IH as ->.
  now rewrite (bind_fail _ _ _ _ _ E).
Qed.

(** ** Locale resolution *)

(** What the [forEach] of [_getLocaleString] computes from the values
    already held, one locale code at a time. *)
Lemma keep_first_truthy (mapping : list (string * value)) (group : list string) :
  forall acc : value,
    truthy acc = false ->
    fold_left (fun localizedField code =>
                 let v := default VUndef (assoc_get code mapping) in
                 if truthy v && negb (truthy localizedField) then v else localizedField)
              group acc
    = match List.find (fun code => truthy (default VUndef (assoc_get code mapping))) group with
      | Some code => default VUndef (assoc_get code mapping)
      | None => acc
      end.
Proof.
  induction group as [|c group IH]; intros acc Hacc; simpl; [reflexivity|].
  rewrite Hacc. simpl. rewrite andb_true_r.
  destruct (truthy (default VUndef (assoc_get c mapping))) eqn:Hc.
  - clear IH. revert Hc. generalize (default VUndef (assoc_get c mapping)) as v.
    induction group as [|c' group IH]; intros v Hv; simpl; [reflexivity|].
    rewrite Hv. simpl. rewrite andb_false_r. now apply IH.
  - now apply IH.
Qed.

Lemma getLocaleString_fold (l : loc) (mapping : list (string * value)) (h : heap) :
  h !! l = Some (Obj mapping) ->
  forall (group : list string) (acc : value),
    foldM (fun localizedField currentLocale =>
             v <- getp (VRef l) currentLocale ;;
             ret (if truthy v && negb (truthy localizedField) then v else localizedField))
          group acc h
    = (Ret (fold_left (fun localizedField code =>
                         let v := default VUndef (assoc_get code mapping) in
                         if truthy v && negb (truthy localizedField) then v else localizedField)
                      group acc), h).
Proof.
  intros Hl. induction group as [|c group IH]; intros acc; [reflexivity|].
  cbn [foldM fold_left].
  mstep (getp_eq _ _ c _ Hl). rewrite (bind_eq _ _ _ _ _ (ret_eq _ _)).
  apply IH.
Qed.

Lemma getLocaleString_first_truthy (l : loc) (mapping : list (string * value))
    (group : list string) (h : heap) :
  h !! l = Some (Obj mapping) ->
  _getLocaleString (VRef l) group h = (Ret (first_truthy mapping group), h).
Proof.
  intros Hl. unfold _getLocaleString. rewrite (getLocaleString_fold _ _ _ Hl).
  now rewrite keep_first_truthy.
Qed.

Lemma insert_last (h : heap) (o o' : object) :
  <[length h := o']> (h ++ [o]) = h ++ [o'].
Proof.
  rewrite insert_app_r_alt by lia. now rewrite Nat.sub_diag.
Qed.

(** The loop of [_getFieldsForLocale]: every key writes its own resolution
    into the new object and touches nothing else. *)
Lemma getFieldsForLocale_loop (lf : loc) (fs : list (string * value))
    (group : list string) (h : heap) :
  h !! lf = Some (Obj fs) ->
  (forall k v, In (k, v) fs -> exists l mapping, v = VRef l /\ h !! l = Some (Obj mapping)) ->
  forall (keys : list string) (acc : list (string * value)),
    (forall k, In k keys -> In k (map fst fs)) ->
    exists ps,
      forM keys (fun key =>
                   present <- has_key (VRef lf) key ;;
                   if present : bool
                   then f <- getp (VRef lf) key ;;
                        v <- _getLocaleString f group ;;
                        setp (VRef (length h)) key v
                   else ret tt) (h ++ [Obj acc])
      = (Ret tt, h ++ [Obj ps])
      /\ (forall k, ~ In k keys -> assoc_get k ps = assoc_get k acc)
      /\ (forall k l mapping,
             In k keys -> assoc_get k fs = Some (VRef l) -> h !! l = Some (Obj mapping) ->
             assoc_get k ps = Some (first_truthy mapping group)).
Proof.
  intros Hlf Hfs. induction keys as [|key keys IH]; intros acc Hkeys.
  - exists acc. simpl. split; [reflexivity|]. split; [reflexivity|]. intros k l m [].
  - assert (Hin : In key (map fst fs)) by (apply Hkeys; now left).
    destruct (assoc_get_key_in _ _ Hin) as [v Hv].
    destruct (Hfs _ _ (assoc_get_In _ _ _ Hv)) as (l & mapping & -> & Hl).
    pose proof (lookup_alloc_old h _ (Obj acc) _ Hlf) as Hlf'.
    pose proof (lookup_alloc_old h _ (Obj acc) _ Hl) as Hl'.
    destruct (IH (assoc_set key (first_truthy mapping group) acc)) as (ps & Hrun & Hout & Hin').
    { intros k Hk. apply Hkeys. now right. }
    exists ps. split; [|split].
    + cbn [forM].
      mstep (has_key_eq _ _ key _ Hlf').
      assert (Hhas : obj_has (Obj fs) key = true).
      { simpl. apply bool_decide_eq_true. rewrite Hv. eauto. }
      rewrite Hhas.
      mstep (getp_eq _ _ key _ Hlf').
      simpl obj_get. rewrite Hv. simpl default.
      mstep (getLocaleString_first_truthy _ _ group _ Hl').
      mstep (setp_eq _ _ key (first_truthy mapping group) _ (lookup_alloc_new h (Obj acc))).
      rewrite insert_last. exact Hrun.
    + intros k Hk. rewrite Hout by (intros H; apply Hk; now right).
      apply assoc_get_set_other. intros ->. apply Hk. now left.
    + intros k l0 m0 [<-|Hk] Hk0 Hl0.
      * rewrite Hv in Hk0. injection Hk0 as <-. rewrite Hl in Hl0. injection Hl0 as <-.
        destruct (in_dec string_dec key keys) as [Hd|Hd].
        -- eapply Hin'; eauto.
        -- rewrite Hout by exact Hd. apply assoc_get_set_same.
      * eapply Hin'; eauto.
Qed.

(** C4 (as amended). For every object of field mappings and every fallback
    group, each field is resolved on its own, whatever its name:
    [_getLocaleString] returns for it the value of the first locale code of
    the group whose value in the field's mapping is truthy (a code that is
    absent, or present with an empty string, [0], [false] or [null], is
    passed over), and [undefined] when no code of the group has a truthy
    value. [_getFieldsForLocale] stores that value in the new record under
    the field's name, with one exception: the record's [locale] is the first
    code of the group, which replaces the resolution of a field called
    [locale]. The record has no other property. *)
Theorem getFieldsForLocale_first_truthy (lf : loc) (fs : list (string * value))
    (group : list string) (h : heap) :
  h !! lf = Some (Obj fs) ->
  (forall k v, In (k, v) fs -> exists l mapping, v = VRef l /\ h !! l = Some (Obj mapping)) ->
  exists ps,
    _getFieldsForLocale (VRef lf) group h = (Ret (VRef (length h)), h ++ [Obj ps])
    /\ (forall k l mapping,
           assoc_get k fs = Some (VRef l) -> h !! l = Some (Obj mapping) ->
           _getLocaleString (VRef l) group h = (Ret (first_truthy mapping group), h)
           /\ (k <> "locale" -> assoc_get k ps = Some (first_truthy mapping group)))
    /\ assoc_get "locale" ps
       = Some (match group with code :: _ => VStr code | [] => VUndef end)
    /\ (forall k, k <> "locale" -> assoc_get k fs = None -> assoc_get k ps = None).
Proof.
  intros Hlf Hfs.
  destruct (getFieldsForLocale_loop lf fs group h Hlf Hfs (map fst fs) [])
    as (ps & Hrun & Hout & Hin); [tauto|].
  exists (assoc_set "locale" (match group with code :: _ => VStr code | [] => VUndef end) ps).
  split; [|split; [|split]].
  - unfold _getFieldsForLocale. mstep (alloc_eq (Obj []) h).
    unfold for_in.
    mstep (keys_of_eq _ _ _ (lookup_alloc_old h _ (Obj []) _ Hlf)).
    cbn [obj_keys]. mstep Hrun.
    mstep (setp_eq _ _ "locale" (match group with code :: _ => VStr code | [] => VUndef end)
                   _ (lookup_alloc_new h (Obj ps))).
    now rewrite insert_last.
  - intros k l mapping Hget Hl. split.
    + now apply getLocaleString_first_truthy.
    + intros Hk. rewrite assoc_get_set_other by congruence.
      eapply Hin; eauto.
      apply assoc_get_In in Hget. now apply (in_map fst) in Hget.
  - apply assoc_get_set_same.
  - intros k Hk Hnone. rewrite assoc_get_set_other by congruence.
    rewrite Hout; [reflexivity|].
    intros Hin'. destruct (assoc_get_key_in _ _ Hin') as [v Hv]. congruence.
Qed.

Lemma getFieldsForLocale_first_truthy_witness :
  let h := [ Obj [("title", VRef 1); ("count", VRef 2); ("locale", VRef 3)];
             Obj [("en", VStr ""); ("de", VStr "B")];
             Obj [("en", VNum 0)];
             Obj [("de", VStr "x")] ] in
  exists ps,
    _getFieldsForLocale (VRef 0) ["en"; "de"] h = (Ret (VRef (length h)), h ++ [Obj ps])
    /\ (forall k l mapping,
           assoc_get k [("title", VRef 1); ("count", VRef 2); ("locale", VRef 3)]
           = Some (VRef l) ->
           h !! l = Some (Obj mapping) ->
           _getLocaleString (VRef l) ["en"; "de"] h
           = (Ret (first_truthy mapping ["en"; "de"]), h)
           /\ (k <> "locale" -> assoc_get k ps = Some (first_truthy mapping ["en"; "de"])))
    /\ assoc_get "locale" ps = Some (VStr "en")
    /\ (forall k, k <> "locale" ->
           assoc_get k [("title", VRef 1); ("count", VRef 2); ("locale", VRef 3)] = None ->
           assoc_get k ps = None).
Proof.
  intros h.
  apply (getFieldsForLocale_first_truthy 0
           [("title", VRef 1); ("count", VRef 2); ("locale", VRef 3)] ["en"; "de"] h).
  - reflexivity.
  - intros k v [H|[H|[H|[]]]]; injection H as <- <-; eauto.
Defined.

(** C4 fails as stated: with [en] present but empty in the mapping, the
    code passes over it and returns the value under [de], where the first
    code present gives the empty string. *)
Lemma getLocaleString_skips_falsy :
  _getLocaleString (VRef 0) ["en"; "de"] [Obj [("en", VStr ""); ("de", VStr "B")]]
  = (Ret (VStr "B"), [Obj [("en", VStr ""); ("de", VStr "B")]])
  /\ first_present [("en", VStr ""); ("de", VStr "B")] ["en"; "de"] = VStr ""
  /\ _getLocaleString (VRef 0) ["en"; "de"] [Obj [("en", VStr ""); ("de", VStr "B")]]
     <> (Ret (first_present [("en", VStr ""); ("de", VStr "B")] ["en"; "de"]),
         [Obj [("en", VStr ""); ("de", VStr "B")]]).
Proof. repeat split. discriminate. Qed.

(** ** The snapshot cache *)



(** An instance that holds a snapshot promise answers from it. *)
Lemma getElementsPromise_cached (a : Algolia) (p : promise (list IndexHit))
    (data : list value) (contentType : option string) (w : world) (h : heap) :
  cachedResults a = Some p ->
  getElementsPromise a data contentType w h
  = (entriesIndex <- keyBy data ;;
     match p with
     | Resolved hits =>
         r <- settle (diffHits data entriesIndex contentType hits) ;; ret (r, a, w)
     | Rejected => ret (Rejected, a, w)
     end) h.
Proof.
  intros Hc. unfold getElementsPromise, snapshot. now rewrite Hc.
Qed.



Section OrchestratorFacts.

Variable locales : option (list (list string)).
Variable callback : option (list value -> M unit).

Lemma singleCallback_issue_fetches (content : list value) (w w' : world)
    (h h' : heap) (p : pending) :
  singleCallback_issue callback content w h = (Ret (p, w'), h') ->
  sent w' = sent w ++ [BrowseAll].
Proof.
  unfold singleCallback_issue. intros H.
  apply bind_inv in H as (u & h1 & _ & H).
  apply bind_inv in H as (idx & h2 & _ & H).
  unfold snapshot, newAlgolia, send in H. simpl in H.
  injection H as _ <- _. reflexivity.
Qed.








End OrchestratorFacts.




Lemma value_eq_dec (a b : value) : {a = b} + {a <> b}.
Proof.
  decide equality; [apply Bool.bool_dec|apply Z.eq_dec|apply string_dec|apply Nat.eq_dec].
Qed.

(** ** The diff: keys *)

Lemma idx_key_not_word (k : string) (c : ascii) (rest : string) :
  k = String c rest ->
  (forall d, In d ["0"; "1"; "2"; "3"; "4"; "5"; "6"; "7"; "8"; "9"]%char -> c <> d) ->
  forall i, (idx_key i =? k)%string = false.
Proof.
  intros -> Hc i. apply String.eqb_neq. unfold idx_key.
  destruct (Nat.to_uint i); simpl; try discriminate;
    intros [= H _]; symmetry in H; revert H; apply Hc; simpl; tauto.
Qed.

Lemma key_index_from_none (k : string) :
  (forall i, (idx_key i =? k)%string = false) ->
  forall count i, key_index_from k i count = None.
Proof.
  intros Hk. induction count as [|c IH]; intros i; simpl; [reflexivity|].
  now rewrite Hk.
Qed.

(** An array, or a string, has no property [id]. *)
Lemma elems_get_id (es : list value) : elems_get es "id" = VUndef.
Proof.
  unfold elems_get. simpl. unfold key_index.
  rewrite key_index_from_none; [reflexivity|].
  apply (idx_key_not_word "id" "i" "d"); [reflexivity|].
  intros d Hd. simpl in Hd. intuition (subst; discriminate).
Qed.

Lemma getEntryKey_hit (hit : IndexHit) (h : heap) :
  getEntryKey hit h
  = (match hit_attr hit "id", hit_attr hit "locale" with
     | Some (JStr id), Some (JStr locale) => Ret (fingerprint id locale)
     | _, _ => Fail TypeError
     end, h).
Proof.
  unfold getEntryKey, string_field, hit_keyed, bind, ret, fail.
  destruct (hit_attr hit "id") as [[]|]; destruct (hit_attr hit "locale") as [[]|];
    reflexivity.
Qed.

(** A hit's key does not depend on the heap. *)
Lemma key_of_hit_heap (hit : IndexHit) (h h' : heap) : key_of hit h = key_of hit h'.
Proof. unfold key_of. now rewrite !getEntryKey_hit. Qed.

Lemma getEntryKey_hit_eq (hit : IndexHit) (h h' : heap) (k : string) :
  key_of hit h = Some k -> getEntryKey hit h' = (Ret k, h').
Proof.
  unfold key_of. rewrite !getEntryKey_hit. simpl.
  destruct (hit_attr hit "id") as [[]|]; try discriminate;
    destruct (hit_attr hit "locale") as [[]|]; try discriminate.
  now intros [= ->].
Qed.

(** A record that has a key is a plain object with strings under [id] and
    [locale]. *)
Lemma key_of_record (e : value) (h : heap) (k : string) :
  key_of e h = Some k ->
  exists l ps id locale,
    e = VRef l /\ h !! l = Some (Obj ps)
    /\ assoc_get "id" ps = Some (VStr id)
    /\ assoc_get "locale" ps = Some (VStr locale)
    /\ k = fingerprint id locale.
Proof.
  unfold key_of, getEntryKey, string_field, record_keyed.
  destruct e as [| | | |s|l]; try discriminate.
  - unfold getp. mret.
    rewrite elems_get_id. discriminate.
  - destruct (h !! l) as [o|] eqn:Hl.
    + mstep (getp_eq _ _ "id" _ Hl). mret.
      mstep (getp_eq _ _ "locale" _ Hl). mret.
      destruct o as [ps|es]; unfold obj_get.
      * destruct (assoc_get "id" ps) as [[| | | |id|]|] eqn:Hid; try discriminate.
        destruct (assoc_get "locale" ps) as [[| | | |loc|]|] eqn:Hloc; try discriminate.
        simpl. intros [= Hk]. subst k. eauto 10.
      * rewrite elems_get_id. discriminate.
    + unfold getp, deref, bind. rewrite Hl. discriminate.
Qed.

Lemma getEntryKey_record_eq (l : loc) (ps : list (string * value)) (id locale : string)
    (h : heap) :
  h !! l = Some (Obj ps) ->
  assoc_get "id" ps = Some (VStr id) ->
  assoc_get "locale" ps = Some (VStr locale) ->
  getEntryKey (VRef l) h = (Ret (fingerprint id locale), h).
Proof.
  intros Hl Hid Hloc. unfold getEntryKey, string_field, record_keyed.
  mstep (getp_eq _ _ "id" _ Hl). mret.
  mstep (getp_eq _ _ "locale" _ Hl). mret.
  simpl. now rewrite Hid, Hloc.
Qed.

Lemma getEntryKey_eq (e : value) (h : heap) (k : string) :
  key_of e h = Some k -> getEntryKey e h = (Ret k, h).
Proof.
  intros H. destruct (key_of_record _ _ _ H) as (l & ps & id & loc & -> & Hl & Hid & Hloc & ->).
  now apply (getEntryKey_record_eq l ps).
Qed.

(** ** The diff: the heap while identifiers are attached *)

Lemma assoc_set_set (k : string) (v v' : value) (ps : list (string * value)) :
  assoc_set k v (assoc_set k v' ps) = assoc_set k v ps.
Proof.
  induction ps as [|[k0 v0] ps IH]; simpl.
  - now rewrite String.eqb_refl.
  - destruct (k0 =? k)%string eqn:E; simpl; rewrite E; [reflexivity|now rewrite IH].
Qed.

Lemma attached_refl (h : heap) : attached h h.
Proof. apply Forall2_same_length_lookup_2; [reflexivity|]. intros i x y Hx Hy.
  rewrite Hx in Hy. injection Hy as <-. now left. Qed.

Lemma attached_lookup (h h1 : heap) (l : loc) (ps : list (string * value)) :
  attached h h1 -> h !! l = Some (Obj ps) ->
  exists ps1, h1 !! l = Some (Obj ps1)
              /\ (ps1 = ps \/ exists v, ps1 = assoc_set "objectID" v ps).
Proof.
  intros Ha Hl. destruct (Forall2_lookup_l _ _ _ _ _ Ha Hl) as (o1 & Hl1 & [->|Ho]).
  - eauto.
  - destruct Ho as (ps0 & v & [= <-] & ->). eauto.
Qed.

Lemma attached_set (h h1 : heap) (l : loc) (ps1 : list (string * value)) (v : value) :
  attached h h1 -> h1 !! l = Some (Obj ps1) ->
  attached h (<[l := Obj (assoc_set "objectID" v ps1)]> h1).
Proof.
  intros Ha Hl1.
  destruct (Forall2_lookup_r _ _ _ _ _ Ha Hl1) as (o & Hl & Ho).
  rewrite <- (list_insert_id h l o Hl). apply Forall2_insert; [exact Ha|].
  destruct Ho as [<-|(ps & v' & -> & [= ->])].
  - right. eauto.
  - right. exists ps, v. now rewrite assoc_set_set.
Qed.

Lemma attached_get (h h1 : heap) (l : loc) (ps ps1 : list (string * value)) (k : string) :
  attached h h1 -> h !! l = Some (Obj ps) -> h1 !! l = Some (Obj ps1) ->
  k <> "objectID" -> assoc_get k ps1 = assoc_get k ps.
Proof.
  intros Ha Hl Hl1 Hk. destruct (attached_lookup _ _ _ _ Ha Hl) as (ps' & Hl' & Hps).
  rewrite Hl1 in Hl'. injection Hl' as <-.
  destruct Hps as [->|(v & ->)]; [reflexivity|].
  apply assoc_get_set_other. congruence.
Qed.

Lemma key_of_attached (h h1 : heap) (e : value) (k : string) :
  attached h h1 -> key_of e h = Some k -> key_of e h1 = Some k.
Proof.
  intros Ha H.
  destruct (key_of_record _ _ _ H) as (l & ps & id & loc & -> & Hl & Hid & Hloc & ->).
  destruct (attached_lookup _ _ _ _ Ha Hl) as (ps1 & Hl1 & _).
  unfold key_of. erewrite getEntryKey_record_eq; [reflexivity|exact Hl1| |].
  - rewrite (attached_get _ _ _ _ _ "id" Ha Hl Hl1) by discriminate. exact Hid.
  - rewrite (attached_get _ _ _ _ _ "locale" Ha Hl Hl1) by discriminate. exact Hloc.
Qed.

(** ** The diff: one hit *)

Lemma classify_unmatched (entriesIndex : list (string * value)) (contentType : option string)
    (results : SyncBatch) (hit : IndexHit) (h h1 : heap) (k : string) :
  key_of hit h = Some k ->
  assoc_get k entriesIndex = None ->
  classify entriesIndex contentType results hit h1
  = (Ret (if supplied contentType
          then {| created := created results;
                  updated := updated results;
                  deleted := deleted results ++ [objectID hit] |}
          else results), h1).
Proof.
  intros Hk Hnone. unfold classify.
  mstep (getEntryKey_hit_eq hit h h1 k Hk). rewrite Hnone. simpl.
  now destruct (supplied contentType).
Qed.

Lemma classify_matched (entriesIndex : list (string * value)) (contentType : option string)
    (results : SyncBatch) (hit : IndexHit) (h h1 : heap) (k : string) (l : loc)
    (ps1 : list (string * value)) :
  key_of hit h = Some k ->
  assoc_get k entriesIndex = Some (VRef l) ->
  h1 !! l = Some (Obj ps1) ->
  let h2 := <[l := Obj (assoc_set "objectID" (VStr (objectID hit)) ps1)]> h1 in
  let ps := List.filter (fun p => negb (is_undefined (snd p)))
                        (assoc_set "objectID" (VStr (objectID hit)) ps1) in
  setp (VRef l) "objectID" (VStr (objectID hit)) h1 = (Ret tt, h2)
  /\ omitBy_isUndefined (VRef l) h2 = (Ret ps, h2)
  /\ classify entriesIndex contentType results hit h1
     = (Ret (if negb (isEqual h2 ps hit)
             then {| created := created results;
                     updated := updated results ++ [VRef l];
                     deleted := deleted results |}
             else results), h2).
Proof.
  intros Hk Hsome Hl h2 ps.
  assert (Hset : setp (VRef l) "objectID" (VStr (objectID hit)) h1 = (Ret tt, h2))
    by now apply setp_eq.
  assert (Hl2 : h2 !! l = Some (Obj (assoc_set "objectID" (VStr (objectID hit)) ps1))).
  { apply list_lookup_insert_eq. now apply lookup_lt_Some in Hl. }
  assert (Homit : omitBy_isUndefined (VRef l) h2 = (Ret ps, h2)).
  { unfold omitBy_isUndefined. now mstep (deref_eq _ _ _ Hl2). }
  split; [exact Hset|]. split; [exact Homit|].
  unfold classify. mstep (getEntryKey_hit_eq hit h h1 k Hk). rewrite Hsome.
  cbn [default from_option id truthy]. mstep Hset. mstep Homit.
  now destruct (isEqual h2 ps hit).
Qed.

Lemma foldM_app {A S} (f : S -> A -> M S) (l1 l2 : list A) (s : S) (h : heap) :
  foldM f (l1 ++ l2) s h = (s' <- foldM f l1 s ;; foldM f l2 s') h.
Proof.
  revert s h. induction l1 as [|x l1 IH]; intros s h; cbn [foldM app].
  - reflexivity.
  - rewrite bind_assoc. destruct (f s x h) as [[s1|e] h1] eqn:E.
    + rewrite !(bind_eq _ _ _ _ _ E). apply IH.
    + now rewrite !(bind_fail _ _ _ _ _ E).
Qed.

(** ** The diff: the index by fingerprint *)

Lemma keyBy_fold (h : heap) (data : list value) :
  Forall (fun e => is_Some (key_of e h)) data ->
  forall acc,
  exists idx,
    foldM (fun entriesIndex entry =>
             key <- getEntryKey entry ;; ret (assoc_set key entry entriesIndex))
          data acc h = (Ret idx, h)
    /\ (forall k v, assoc_get k idx = Some v ->
                    assoc_get k acc = Some v \/ (In v data /\ key_of v h = Some k))
    /\ (forall k, is_Some (assoc_get k acc) -> is_Some (assoc_get k idx))
    /\ (forall e k, In e data -> key_of e h = Some k -> is_Some (assoc_get k idx)).
Proof.
  induction 1 as [|e data [k He] Hdata IH]; intros acc.
  - exists acc. simpl. repeat split; auto. intros e k [].
  - destruct (IH (assoc_set k e acc)) as (idx & Hrun & Hfrom & Hkeep & Hall).
    exists idx. split; [|split; [|split]].
    + cbn [foldM]. mstep (getEntryKey_eq _ _ _ He). mret. exact Hrun.
    + intros k' v Hv. destruct (Hfrom _ _ Hv) as [Hacc|[Hin Hkey]].
      * rewrite assoc_get_set in Hacc. destruct (k =? k')%string eqn:E.
        -- apply String.eqb_eq in E. subst k'. injection Hacc as <-.
           right. split; [now left|exact He].
        -- now left.
      * right. split; [now right|exact Hkey].
    + intros k' Hk'. apply Hkeep. rewrite assoc_get_set.
      destruct (k =? k')%string; eauto.
    + intros e' k' [<-|Hin] Hk'.
      * rewrite He in Hk'. injection Hk' as <-. apply Hkeep.
        rewrite assoc_get_set_same. eauto.
      * eapply Hall; eauto.
Qed.

Lemma keyBy_spec (h : heap) (data : list value) :
  Forall (fun e => is_Some (key_of e h)) data ->
  exists idx,
    keyBy data h = (Ret idx, h)
    /\ (forall k v, assoc_get k idx = Some v -> In v data /\ key_of v h = Some k)
    /\ (forall e k, In e data -> key_of e h = Some k -> is_Some (assoc_get k idx)).
Proof.
  intros Hdata. destruct (keyBy_fold h data Hdata []) as (idx & Hrun & Hfrom & _ & Hall).
  exists idx. split; [exact Hrun|]. split; [|exact Hall].
  intros k v Hv. destruct (Hfrom _ _ Hv) as [Hacc|H]; [discriminate|exact H].
Qed.

(** ** The diff: the loop over the hits *)

Section DiffFacts.

Variable h : heap.
Variable entriesIndex : list (string * value).
Variable contentType : option string.

Hypothesis index_keys_hold :
  forall k v, assoc_get k entriesIndex = Some v -> key_of v h = Some k.

Lemma matched_true (x : IndexHit) (k : string) (v : value) :
  key_of x h = Some k -> assoc_get k entriesIndex = Some v -> matched entriesIndex x = true.
Proof.
  intros Hk Hv. unfold matched. rewrite (key_of_hit_heap x [] h), Hk.
  apply bool_decide_eq_true. rewrite Hv. eauto.
Qed.

Lemma matched_false (x : IndexHit) (k : string) :
  key_of x h = Some k -> assoc_get k entriesIndex = None -> matched entriesIndex x = false.
Proof.
  intros Hk Hv. unfold matched. rewrite (key_of_hit_heap x [] h), Hk.
  apply bool_decide_eq_false. rewrite Hv. intros [? [=]].
Qed.

Lemma classify_run (results : SyncBatch) (x : IndexHit) (h1 : heap) :
  is_Some (key_of x h) -> attached h h1 ->
  exists results' h2,
    classify entriesIndex contentType results x h1 = (Ret results', h2)
    /\ attached h h2
    /\ created results' = created results
    /\ deleted results'
       = deleted results
         ++ (if supplied contentType && negb (matched entriesIndex x)
             then [objectID x] else [])
    /\ (forall u, In u (updated results') ->
                  In u (updated results)
                  \/ (found_different h u x
                      /\ exists k, key_of x h = Some k
                                   /\ assoc_get k entriesIndex = Some u))
    /\ (forall l, (forall k, key_of x h = Some k ->
                             assoc_get k entriesIndex <> Some (VRef l)) ->
                  h2 !! l = h1 !! l)
    /\ (forall k l, key_of x h = Some k -> assoc_get k entriesIndex = Some (VRef l) ->
                    exists ps', h2 !! l = Some (Obj ps')
                                /\ assoc_get "objectID" ps' = Some (VStr (objectID x))).
Proof.
  intros [k Hk] Ha. destruct (assoc_get k entriesIndex) as [v|] eqn:Hv.
  - pose proof (index_keys_hold _ _ Hv) as Hkv.
    destruct (key_of_record _ _ _ Hkv) as (l & ps & id & loc & -> & Hl & _).
    destruct (attached_lookup _ _ _ _ Ha Hl) as (ps1 & Hl1 & _).
    destruct (classify_matched entriesIndex contentType results x h h1 k l ps1 Hk Hv Hl1)
      as (Hset & Homit & Hrun).
    eexists _, _. split; [exact Hrun|].
    rewrite (matched_true x k _ Hk Hv), andb_false_r, app_nil_r.
    split; [now apply attached_set|].
    split; [now destruct (negb _)|]. split; [now destruct (negb _)|].
    split; [|split].
    + intros u Hu. destruct (isEqual _ _ x) eqn:Heq; simpl in Hu; [now left|].
      apply in_app_or in Hu as [Hu|[<-|[]]]; [now left|]. right. split.
      * exists h1, (<[l := Obj (assoc_set "objectID" (VStr (objectID x)) ps1)]> h1),
          (List.filter (fun p => negb (is_undefined (snd p)))
                       (assoc_set "objectID" (VStr (objectID x)) ps1)).
        auto.
      * eauto.
    + intros l' Hl'. apply list_lookup_insert_ne. intros <-. now apply (Hl' k).
    + intros k' l' Hk' Hv'. rewrite Hk in Hk'. injection Hk' as <-.
      rewrite Hv in Hv'. injection Hv' as <-.
      eexists. split; [apply list_lookup_insert_eq; now apply lookup_lt_Some in Hl1|].
      apply assoc_get_set_same.
  - exists (if supplied contentType
            then {| created := created results;
                    updated := updated results;
                    deleted := deleted results ++ [objectID x] |}
            else results), h1.
    split; [now apply (classify_unmatched _ _ _ _ h h1 k)|].
    rewrite (matched_false x k Hk Hv). simpl negb. rewrite andb_true_r.
    split; [exact Ha|].
    split; [now destruct (supplied contentType)|].
    split; [destruct (supplied contentType); simpl; now rewrite ?app_nil_r|].
    split; [|split].
    + intros u Hu. left. now destruct (supplied contentType).
    + reflexivity.
    + intros k' l' Hk' Hv'. rewrite Hk in Hk'. injection Hk' as <-. congruence.
Qed.

Lemma classify_all (hits : list IndexHit) :
  Forall (fun x => is_Some (key_of x h)) hits ->
  forall (results : SyncBatch) (h1 : heap),
    attached h h1 ->
    exists results' h2,
      foldM (classify entriesIndex contentType) hits results h1 = (Ret results', h2)
      /\ attached h h2
      /\ created results' = created results
      /\ deleted results'
         = deleted results
           ++ (if supplied contentType
               then map objectID (List.filter (fun x => negb (matched entriesIndex x)) hits)
               else [])
      /\ (forall u, In u (updated results') ->
                    In u (updated results)
                    \/ exists x, In x hits /\ found_different h u x
                                 /\ exists k, key_of x h = Some k
                                              /\ assoc_get k entriesIndex = Some u)
      /\ (forall l, (forall x k, In x hits -> key_of x h = Some k ->
                                 assoc_get k entriesIndex <> Some (VRef l)) ->
                    h2 !! l = h1 !! l)
      /\ (forall l, (exists x k, In x hits /\ key_of x h = Some k
                                 /\ assoc_get k entriesIndex = Some (VRef l)) ->
                    exists x k ps', In x hits
                                    /\ key_of x h = Some k
                                    /\ assoc_get k entriesIndex = Some (VRef l)
                                    /\ h2 !! l = Some (Obj ps')
                                    /\ assoc_get "objectID" ps'
                                       = Some (VStr (objectID x))).
Proof.
  induction hits as [|x hits IH] using rev_ind; intros Hkeys results h1 Ha.
  - exists results, h1. simpl. split; [reflexivity|]. split; [exact Ha|].
    split; [reflexivity|]. split; [destruct (supplied contentType); now rewrite app_nil_r|].
    split; [auto|]. split; [reflexivity|]. intros l (x & k & [] & _).
  - apply Forall_app in Hkeys as [Hkeys Hx]. apply Forall_inv in Hx.
    destruct (IH Hkeys results h1 Ha)
      as (r1 & h2 & Hrun & Ha2 & Hcr & Hdel & Hupd & Hframe & Hlast).
    destruct (classify_run r1 x h2 Hx Ha2)
      as (r2 & h3 & Hstep & Ha3 & Hcr2 & Hdel2 & Hupd2 & Hframe2 & Hlast2).
    exists r2, h3. split; [|split; [exact Ha3|split; [congruence|split; [|split; [|split]]]]].
    + rewrite foldM_app. mstep Hrun. cbn [foldM]. mstep Hstep. reflexivity.
    + rewrite Hdel2, Hdel, <- app_assoc. f_equal.
      rewrite List.filter_app, map_app. simpl.
      destruct (supplied contentType); simpl; [|reflexivity].
      now destruct (matched entriesIndex x).
    + intros u Hu. destruct (Hupd2 _ Hu) as [Hu1|(Hd & k & Hk & Hv)].
      * destruct (Hupd _ Hu1) as [?|(x' & Hin & Hrest)]; [now left|].
        right. exists x'. split; [apply in_or_app; now left|exact Hrest].
      * right. exists x. split; [apply in_or_app; right; now left|eauto].
    + intros l Hl. rewrite Hframe2, Hframe; [reflexivity| |].
      * intros x' k Hin. apply Hl. apply in_or_app. now left.
      * intros k. apply Hl. apply in_or_app. right. now left.
    + intros l Hex.
      destruct (key_of x h) as [k|] eqn:Hk; [|now destruct Hx].
      destruct (assoc_get k entriesIndex) as [v|] eqn:Hv.
      * destruct (value_eq_dec v (VRef l)) as [->|Hne].
        -- destruct (Hlast2 k l eq_refl Hv) as (ps' & Hl3 & Hoid).
           exists x, k, ps'. split; [apply in_or_app; right; now left|auto].
        -- assert (Hsame : h3 !! l = h2 !! l).
           { apply Hframe2. intros k' [= <-]. congruence. }
           destruct Hex as (x' & k' & Hin & Hk' & Hv').
           apply in_app_or in Hin as [Hin|[<-|[]]]; [|congruence].
           destruct (Hlast l) as (x'' & k'' & ps' & Hin'' & Hk'' & Hv'' & Hl2 & Hoid);
             [eauto|].
           exists x'', k'', ps'. rewrite Hsame.
           split; [apply in_or_app; now left|auto].
      * assert (Hsame : h3 !! l = h2 !! l).
        { apply Hframe2. intros k' [= <-]. congruence. }
        destruct Hex as (x' & k' & Hin & Hk' & Hv').
        apply in_app_or in Hin as [Hin|[<-|[]]]; [|congruence].
        destruct (Hlast l) as (x'' & k'' & ps' & Hin'' & Hk'' & Hv'' & Hl2 & Hoid);
          [eauto|].
        exists x'', k'', ps'. rewrite Hsame.
        split; [apply in_or_app; now left|auto].
Qed.

End DiffFacts.

(** ** The diff as a whole *)

Lemma created_filter (data : list value) (h : heap) :
  (forall e, In e data -> exists l o, e = VRef l /\ h !! l = Some o) ->
  filterM (fun entry => o <- getp entry "objectID" ;; ret (negb (truthy o))) data h
  = (Ret (List.filter (fun e => negb (truthy (peek h e "objectID"))) data), h).
Proof.
  induction data as [|e data IH]; intros Hdata; [reflexivity|].
  destruct (Hdata e) as (l & o & -> & Hl); [now left|].
  cbn [filterM List.filter]. mstep (getp_eq _ _ "objectID" _ Hl). mret.
  rewrite (bind_eq _ _ _ _ _ (IH (fun e He => Hdata e (or_intror He)))). 
  unfold peek. rewrite Hl. reflexivity.
Qed.

Lemma restrict_In (contentType : option string) (hits : list IndexHit) (x : IndexHit) :
  In x (restrict contentType hits) -> In x hits.
Proof.
  unfold restrict. destruct (supplied contentType); [|auto].
  intros H. now apply List.filter_In in H.
Qed.

Lemma restrict_keyed (contentType : option string) (hits : list IndexHit) (h : heap) :
  Forall (fun x => is_Some (key_of x h)) hits ->
  Forall (fun x => is_Some (key_of x h)) (restrict contentType hits).
Proof.
  rewrite !List.Forall_forall. intros H x Hx. apply H. eapply restrict_In; eauto.
Qed.

(** On records and hits that all have a key, the diff returns; its three
    sets are described by the loop over the hits. *)
Lemma diff_run (data : list value) (contentType : option string) (hits : list IndexHit)
    (h : heap) :
  Forall (fun e => is_Some (key_of e h)) data ->
  Forall (fun x => is_Some (key_of x h)) hits ->
  exists entriesIndex results h',
    keyBy data h = (Ret entriesIndex, h)
    /\ (forall k v, assoc_get k entriesIndex = Some v -> In v data /\ key_of v h = Some k)
    /\ (forall e k, In e data -> key_of e h = Some k -> is_Some (assoc_get k entriesIndex))
    /\ attached h h'
    /\ deleted results
       = (if supplied contentType
          then map objectID (List.filter (fun x => negb (matched entriesIndex x))
                                         (restrict contentType hits))
          else [])
    /\ (forall u, In u (updated results) ->
                  exists x, In x (restrict contentType hits) /\ found_different h u x
                            /\ exists k, key_of x h = Some k
                                         /\ assoc_get k entriesIndex = Some u)
    /\ (forall l, (exists x k, In x (restrict contentType hits) /\ key_of x h = Some k
                               /\ assoc_get k entriesIndex = Some (VRef l)) ->
                  exists x k ps', In x (restrict contentType hits)
                                  /\ key_of x h = Some k
                                  /\ assoc_get k entriesIndex = Some (VRef l)
                                  /\ h' !! l = Some (Obj ps')
                                  /\ assoc_get "objectID" ps' = Some (VStr (objectID x)))
    /\ diff data contentType hits h
       = (Ret {| created := List.filter (fun e => negb (truthy (peek h' e "objectID"))) data;
                 updated := updated results;
                 deleted := deleted results |}, h').
Proof.
  intros Hdata Hhits.
  destruct (keyBy_spec h data Hdata) as (idx & Hkey & Hfrom & Hall).
  destruct (classify_all h idx contentType (fun k v Hv => proj2 (Hfrom k v Hv))
              (restrict contentType hits) (restrict_keyed _ _ _ Hhits)
              {| created := []; updated := []; deleted := [] |} h (attached_refl h))
    as (res & h' & Hrun & Ha & _ & Hdel & Hupd & _ & Hlast).
  exists idx, res, h'. split; [exact Hkey|].
  split; [exact Hfrom|]. split; [exact Hall|]. split; [exact Ha|].
  split; [exact Hdel|]. split; [|split; [exact Hlast|]].
  - intros u Hu. destruct (Hupd u Hu) as [[]|H]. exact H.
  - assert (Hobjs : forall e, In e data -> exists l o, e = VRef l /\ h' !! l = Some o).
    { intros e He. rewrite List.Forall_forall in Hdata. destruct (Hdata e He) as [k Hk].
      destruct (key_of_record _ _ _ Hk) as (l & ps & _ & _ & -> & Hl & _).
      destruct (attached_lookup _ _ _ _ Ha Hl) as (ps1 & Hl1 & _). eauto. }
    unfold diff. mstep Hkey. unfold diffHits. mstep Hrun.
    now rewrite (bind_eq _ _ _ _ _ (created_filter data h' Hobjs)).
Qed.

Lemma bind_cong {A B} (c c' : M A) (k : A -> M B) (h : heap) :
  c h = c' h -> bind c k h = bind c' k h.
Proof. unfold bind. now intros ->. Qed.

Lemma foldM_skip {A S} (f : S -> A -> M S) (pre post : list A) (x : A) :
  (forall s h, f s x h = (Ret s, h)) ->
  forall s h, foldM f (pre ++ x :: post) s h = foldM f (pre ++ post) s h.
Proof.
  intros Hx s h. rewrite !foldM_app. cbn [foldM].
  destruct (foldM f pre s h) as [[s1|e] h1] eqn:E.
  - rewrite !(bind_eq _ _ _ _ _ E). now rewrite (bind_eq _ _ _ _ _ (Hx s1 h1)).
  - now rewrite !(bind_fail _ _ _ _ _ E).
Qed.

(** C5 (as amended). Let every incoming record and every snapshot hit have a
    fingerprint, and let a hit's fingerprint be that of no incoming record.
    The diff returns a batch, and: with a (non-empty) content-type filter,
    if the hit's [contentType] is the filter, its [objectID] is in
    [deleted]; without a filter, [deleted] is empty, and the batch and the
    records are what they are for the snapshot without that hit, so the
    hit puts nothing in [created] or [updated] either. *)
Theorem diff_unmatched_hit (data : list value) (contentType : option string)
    (pre post : list IndexHit) (hit : IndexHit) (h : heap) :
  Forall (fun e => is_Some (key_of e h)) data ->
  Forall (fun x => is_Some (key_of x h)) (pre ++ hit :: post) ->
  Forall (fun e => key_of e h <> key_of hit h) data ->
  exists batch h',
    diff data contentType (pre ++ hit :: post) h = (Ret batch, h')
    /\ (supplied contentType = true -> matches_contentType contentType hit = true ->
        In (objectID hit) (deleted batch))
    /\ (supplied contentType = false ->
        deleted batch = []
        /\ diff data contentType (pre ++ post) h = (Ret batch, h')).
Proof.
  intros Hdata Hhits Hnone.
  destruct (diff_run data contentType (pre ++ hit :: post) h Hdata Hhits)
    as (idx & res & h' & Hkey & Hfrom & _ & _ & Hdel & _ & _ & Hrun).
  assert (Hhit : is_Some (key_of hit h)).
  { rewrite List.Forall_forall in Hhits. apply Hhits, in_or_app. right. now left. }
  destruct Hhit as [k Hk].
  assert (Hmiss : assoc_get k idx = None).
  { destruct (assoc_get k idx) as [v|] eqn:Hv; [|reflexivity].
    destruct (Hfrom _ _ Hv) as [Hin Hkv]. rewrite List.Forall_forall in Hnone.
    exfalso. apply (Hnone v Hin). congruence. }
  eexists _, h'. split; [exact Hrun|]. split.
  - intros Hs Hm. simpl. rewrite Hdel, Hs. apply in_map.
    apply List.filter_In. split.
    + unfold restrict. rewrite Hs. apply List.filter_In. split; [|exact Hm].
      apply in_or_app. right. now left.
    + now rewrite (matched_false h idx hit k Hk Hmiss).
  - intros Hs. split; [cbn [deleted]; now rewrite Hdel, Hs|].
    rewrite <- Hrun. unfold diff. rewrite !(bind_eq _ _ _ _ _ Hkey).
    unfold diffHits, restrict. rewrite Hs. apply bind_cong. symmetry.
    apply foldM_skip. intros s h0.
    rewrite (classify_unmatched idx contentType s hit h h0 k Hk Hmiss). now rewrite Hs.
Qed.

(** The diff is what [getElementsPromise] resolves to on an instance that
    holds the snapshot. *)
Lemma getElementsPromise_diff (a : Algolia) (data : list value)
    (contentType : option string) (hits : list IndexHit) (w : world) (h h' : heap)
    (batch : SyncBatch) :
  cachedResults a = Some (Resolved hits) ->
  diff data contentType hits h = (Ret batch, h') ->
  getElementsPromise a data contentType w h = (Ret (Resolved batch, a, w), h').
Proof.
  intros Hc Hd. rewrite (getElementsPromise_cached a _ data contentType w h Hc).
  unfold diff in Hd. apply bind_inv in Hd as (idx & h1 & Hkey & Hd).
  mstep Hkey. unfold settle. unfold bind. now rewrite Hd.
Qed.

Lemma diff_unmatched_hit_witness :
  (exists batch h',
      diff [VRef 0] (Some "post") [hit_e1; hit_e2] sample_records = (Ret batch, h')
      /\ In "obj2" (deleted batch))
  /\ (exists batch h',
         diff [VRef 0] None [hit_e1; hit_e2] sample_records = (Ret batch, h')
         /\ deleted batch = []
         /\ diff [VRef 0] None [hit_e1] sample_records = (Ret batch, h')).
Proof.
  assert (H1 : Forall (fun e => is_Some (key_of e sample_records)) [VRef 0]).
  { repeat constructor. vm_compute. eauto. }
  assert (H2 : Forall (fun x => is_Some (key_of x sample_records)) ([hit_e1] ++ hit_e2 :: [])).
  { repeat constructor; vm_compute; eauto. }
  assert (H3 : Forall (fun e => key_of e sample_records <> key_of hit_e2 sample_records)
                      [VRef 0]).
  { repeat constructor. vm_compute. discriminate. }
  split.
  - destruct (diff_unmatched_hit [VRef 0] (Some "post") [hit_e1] [] hit_e2 sample_records
                H1 H2 H3) as (batch & h' & Hrun & Hdel & _).
    exists batch, h'. split; [exact Hrun|]. now apply Hdel.
  - destruct (diff_unmatched_hit [VRef 0] None [hit_e1] [] hit_e2 sample_records
                H1 H2 H3) as (batch & h' & Hrun & _ & Hnone).
    exists batch, h'. split; [exact Hrun|]. now apply Hnone.
Defined.

(** C5 fails as stated: with the filter [page], a hit of content type
    [post] that matches no incoming record is left out of the restricted
    snapshot, and its [objectID] is not put in [deleted]. *)
Lemma diff_filter_hides_other_types :
  key_of (VRef 0) sample_records <> key_of hit_e2 sample_records
  /\ supplied (Some "page") = true
  /\ fst (diff [VRef 0] (Some "page") [hit_e2] sample_records)
     = Ret {| created := [VRef 0]; updated := []; deleted := [] |}
  /\ ~ In (objectID hit_e2) [].
Proof.
  split; [vm_compute; discriminate|]. split; [reflexivity|].
  split; [vm_compute; reflexivity|]. intros [].
Qed.

Lemma NoDup_map_In_eq {A B} (f : A -> B) (l : list A) (x y : A) :
  NoDup (map f l) -> In x l -> In y l -> f x = f y -> x = y.
Proof.
  induction l as [|a l IH]; simpl; [tauto|].
  intros Hnd Hx Hy Hf. apply NoDup_cons in Hnd as [Hna Hnd].
  destruct Hx as [->|Hx]; destruct Hy as [->|Hy]; auto.
  - exfalso. apply Hna. rewrite Hf. apply list_elem_of_In. now apply in_map.
  - exfalso. apply Hna. rewrite <- Hf. apply list_elem_of_In. now apply in_map.
Qed.

(** *** The heaps the diff passes through *)

Section DiffStamps.

Variable h : heap.
Variable data : list value.
Variable stamps : list IndexHit.
Variable entriesIndex : list (string * value).
Variable contentType : option string.

Hypothesis index_from_data :
  forall k v, assoc_get k entriesIndex = Some v -> In v data /\ key_of v h = Some k.

Lemma stamped_refl : stamped data stamps h h.
Proof. split; [reflexivity|]. intros l. now left. Qed.

Lemma stamped_lookup (h1 : heap) (l : loc) (ps : list (string * value)) :
  stamped data stamps h h1 -> h !! l = Some (Obj ps) ->
  exists ps1, h1 !! l = Some (Obj ps1)
              /\ (ps1 = ps \/ exists v, ps1 = assoc_set "objectID" v ps).
Proof.
  intros [_ Hs] Hl. destruct (Hs l) as [E|(_ & ps0 & x & k & Hl0 & _ & _ & _ & E)].
  - rewrite E. eauto.
  - rewrite Hl in Hl0. injection Hl0 as <-. eauto.
Qed.

Lemma stamped_set (h1 : heap) (l : loc) (ps1 : list (string * value)) (x : IndexHit)
    (k : string) :
  stamped data stamps h h1 -> h1 !! l = Some (Obj ps1) ->
  In x stamps -> key_of x h = Some k -> assoc_get k entriesIndex = Some (VRef l) ->
  stamped data stamps h (<[l := Obj (assoc_set "objectID" (VStr (objectID x)) ps1)]> h1).
Proof.
  intros [Hlen Hs] Hl1 Hx Hk Hv. destruct (index_from_data _ _ Hv) as [Hin Hkv].
  split; [etransitivity; [apply length_insert|exact Hlen]|].
  intros l'. destruct (Nat.eq_dec l' l) as [->|Hne].
  - right. split; [exact Hin|].
    destruct (key_of_record _ _ _ Hkv) as (l0 & ps & eid & loc & [= <-] & Hl & _).
    exists ps, x, k. split; [exact Hl|]. split; [exact Hx|].
    split; [exact Hk|]. split; [exact Hkv|].
    etransitivity; [apply list_lookup_insert_eq; now apply lookup_lt_Some in Hl1|].
    f_equal. f_equal.
    destruct (Hs l) as [E|(_ & ps0 & x0 & k0 & Hl0 & _ & _ & _ & E)].
    + rewrite E, Hl in Hl1. now injection Hl1 as <-.
    + rewrite Hl in Hl0. injection Hl0 as <-. rewrite E in Hl1. injection Hl1 as <-.
      apply assoc_set_set.
  - assert (E : <[l := Obj (assoc_set "objectID" (VStr (objectID x)) ps1)]> h1 !! l'
                = h1 !! l') by (apply list_lookup_insert_ne; congruence).
    destruct (Hs l') as [E'|(Hin' & ps0 & x0 & k0 & H1 & H2 & H3 & H4 & H5)].
    + left. etransitivity; [exact E|exact E'].
    + right. split; [exact Hin'|]. exists ps0, x0, k0.
      split; [exact H1|]. split; [exact H2|]. split; [exact H3|]. split; [exact H4|].
      etransitivity; [exact E|exact H5].
Qed.

Lemma classify_run_stamped (results : SyncBatch) (x : IndexHit) (h1 : heap) :
  is_Some (key_of x h) -> In x stamps -> stamped data stamps h h1 ->
  exists results' h2,
    classify entriesIndex contentType results x h1 = (Ret results', h2)
    /\ stamped data stamps h h2
    /\ (forall u, In u (updated results') ->
                  In u (updated results)
                  \/ ((exists k, key_of x h = Some k /\ assoc_get k entriesIndex = Some u)
                      /\ exists h3 ps,
                          setp u "objectID" (VStr (objectID x)) h1 = (Ret tt, h3)
                          /\ omitBy_isUndefined u h3 = (Ret ps, h3)
                          /\ isEqual h3 ps x = false)).
Proof.
  intros [k Hk] Hx Hs. destruct (assoc_get k entriesIndex) as [v|] eqn:Hv.
  - destruct (index_from_data _ _ Hv) as [Hin Hkv].
    destruct (key_of_record _ _ _ Hkv) as (l & ps & eid & loc & -> & Hl & _).
    destruct (stamped_lookup _ _ _ Hs Hl) as (ps1 & Hl1 & _).
    destruct (classify_matched entriesIndex contentType results x h h1 k l ps1 Hk Hv Hl1)
      as (Hset & Homit & Hrun).
    eexists _, _. split; [exact Hrun|]. split; [eapply stamped_set; eauto|].
    intros u Hu. destruct (isEqual _ _ x) eqn:Heq; simpl in Hu; [now left|].
    apply in_app_or in Hu as [Hu|[<-|[]]]; [now left|]. right.
    split; [eauto|]. eexists _, _. split; [exact Hset|]. split; [exact Homit|exact Heq].
  - exists (if supplied contentType
            then {| created := created results;
                    updated := updated results;
                    deleted := deleted results ++ [objectID x] |}
            else results), h1.
    split; [now apply (classify_unmatched _ _ _ _ h h1 k)|]. split; [exact Hs|].
    intros u Hu. left. now destruct (supplied contentType).
Qed.

(** Whatever ends up in [updated] was found different from a hit with its
    fingerprint, in a heap the diff had reached. *)
Lemma classify_all_stamped (hits : list IndexHit) :
  Forall (fun x => is_Some (key_of x h)) hits ->
  (forall x, In x hits -> In x stamps) ->
  forall (results : SyncBatch) (h1 : heap),
    stamped data stamps h h1 ->
    exists results' h2,
      foldM (classify entriesIndex contentType) hits results h1 = (Ret results', h2)
      /\ stamped data stamps h h2
      /\ (forall u, In u (updated results') ->
                    In u (updated results)
                    \/ exists x k h3 h4 ps,
                        In x hits
                        /\ key_of x h = Some k
                        /\ assoc_get k entriesIndex = Some u
                        /\ stamped data stamps h h3
                        /\ setp u "objectID" (VStr (objectID x)) h3 = (Ret tt, h4)
                        /\ omitBy_isUndefined u h4 = (Ret ps, h4)
                        /\ isEqual h4 ps x = false).
Proof.
  induction hits as [|x hits IH]; intros Hkeys Hsub results h1 Hs.
  - exists results, h1. split; [reflexivity|]. split; [exact Hs|]. auto.
  - apply Forall_cons in Hkeys as [Hx Hkeys].
    destruct (classify_run_stamped results x h1 Hx (Hsub x (or_introl eq_refl)) Hs)
      as (r1 & h2 & Hstep & Hs2 & Hupd1).
    destruct (IH Hkeys (fun y Hy => Hsub y (or_intror Hy)) r1 h2 Hs2)
      as (r2 & h3 & Hrun & Hs3 & Hupd2).
    exists r2, h3. split; [|split; [exact Hs3|]].
    + cbn [foldM]. mstep Hstep. exact Hrun.
    + intros u Hu. destruct (Hupd2 u Hu) as [Hu1|(y & k & h4 & h5 & ps & Hy & Hrest)].
      * destruct (Hupd1 u Hu1) as [?|((k & Hk & Hv) & h4 & ps & Hset & Homit & Hne)];
          [now left|].
        right. exists x, k, h1, h4, ps. split; [now left|]. auto 10.
      * right. exists y, k, h4, h5, ps. split; [now right|exact Hrest].
Qed.

End DiffStamps.

(** C6 (as amended). Let every incoming record and every snapshot hit have a
    fingerprint (a string [id] and a string [locale]); let [r] be the only
    incoming record with its fingerprint, and let that fingerprint be the one
    of a hit of the (restricted) snapshot. If every hit of the restricted
    snapshot with this fingerprint has a non-empty [objectID] and compares
    equal to [r] once that [objectID] is attached and the [undefined]
    properties are left out (in the heap as the diff has it by then: other
    incoming records may carry the [objectID] of a hit with their
    fingerprint, nothing else has changed), the diff returns a batch with [r]
    neither in [created] nor in [updated]; and, the hits' identifiers being
    distinct, the hit's [objectID] is not in [deleted]. *)
Theorem diff_unchanged_record (data : list value) (contentType : option string)
    (hits : list IndexHit) (hit : IndexHit) (r : value) (h : heap) (kr : string) :
  Forall (fun e => is_Some (key_of e h)) data ->
  Forall (fun x => is_Some (key_of x h)) hits ->
  In r data ->
  key_of r h = Some kr ->
  (forall e, In e data -> key_of e h = Some kr -> e = r) ->
  In hit (restrict contentType hits) ->
  key_of hit h = Some kr ->
  (forall x, In x (restrict contentType hits) -> key_of x h = Some kr ->
             objectID x <> ""
             /\ equal_when_compared data (restrict contentType hits) h r x) ->
  exists batch h',
    diff data contentType hits h = (Ret batch, h')
    /\ ~ In r (created batch)
    /\ ~ In r (updated batch)
    /\ (NoDup (map objectID hits) -> ~ In (objectID hit) (deleted batch)).
Proof.
  intros Hdata Hhits Hr Hkr Honly Hhit Hkhit Hequal.
  destruct (diff_run data contentType hits h Hdata Hhits)
    as (idx & res & h' & Hkey & Hfrom & Hall & Ha & Hdel & _ & Hlast & Hrun).
  assert (Hidx : assoc_get kr idx = Some r).
  { destruct (Hall r kr Hr Hkr) as [v Hv]. destruct (Hfrom _ _ Hv) as [Hin Hkv].
    now rewrite <- (Honly v Hin Hkv). }
  assert (Hkeys : forall k, assoc_get k idx = Some r -> k = kr).
  { intros k Hk. destruct (Hfrom _ _ Hk) as [_ Hk']. congruence. }
  destruct (key_of_record _ _ _ Hkr) as (lr & ps & _ & _ & -> & _).
  eexists _, h'. split; [exact Hrun|]. cbn [created updated deleted]. split; [|split].
  - intros Hin. apply List.filter_In in Hin as [_ Hin].
    destruct (Hlast lr) as (x & k & ps' & Hx & Hkx & Hvx & Hl' & Hoid); [eauto|].
    rewrite (Hkeys k Hvx) in Hkx. destruct (Hequal x Hx Hkx) as [Hne _].
    unfold peek in Hin. rewrite Hl' in Hin. simpl in Hin. rewrite Hoid in Hin.
    simpl in Hin. apply String.eqb_neq in Hne. rewrite Hne in Hin. discriminate.
  - intros Hin.
    unfold diff in Hrun. rewrite (bind_eq _ _ _ _ _ Hkey) in Hrun. unfold diffHits in Hrun.
    apply bind_inv in Hrun as (res0 & h1 & Hfold & Hrun).
    apply bind_inv in Hrun as (new & h2 & _ & Hrun).
    injection Hrun as _ Hupd _ _.
    destruct (classify_all_stamped h data (restrict contentType hits) idx contentType Hfrom
                (restrict contentType hits) (restrict_keyed _ _ _ Hhits) (fun x Hx => Hx)
                {| created := []; updated := []; deleted := [] |} h
                (stamped_refl h data (restrict contentType hits)))
      as (res1 & h3 & Hfold1 & _ & Hfound).
    rewrite Hfold in Hfold1. injection Hfold1 as <- <-.
    rewrite <- Hupd in Hin.
    destruct (Hfound _ Hin) as [[]|(x & k & h4 & h5 & ps' & Hx & Hkx & Hvx & Hs & Hset
                                    & Homit & Hfalse)].
    rewrite (Hkeys k Hvx) in Hkx. destruct (Hequal x Hx Hkx) as [_ Heq].
    rewrite (Heq h4 h5 ps' Hs Hset Homit) in Hfalse. discriminate.
  - intros Hnd Hin. rewrite Hdel in Hin.
    destruct (supplied contentType); [|destruct Hin].
    apply in_map_iff in Hin as (x & Hoid & Hx). apply List.filter_In in Hx as [Hx Hm].
    assert (x = hit).
    { apply (NoDup_map_In_eq objectID hits); eauto using restrict_In. }
    subst x. rewrite (matched_true h idx hit kr _ Hkhit Hidx) in Hm. discriminate.
Qed.

(** *** Records of scalars and of plain objects of scalars *)

Lemma equal_json_scalar (h h' : heap) (v : value) (j : json) :
  isObject v = false -> equal_json h v j = equal_json h' v j.
Proof. destruct j, v; try reflexivity; discriminate. Qed.


Lemma assoc_set_In (k k' : string) (v v' : value) (ps : list (string * value)) :
  In (k, v) (assoc_set k' v' ps) -> v = v' \/ In (k, v) ps.
Proof.
  induction ps as [|[k0 v0] ps IH]; simpl.
  - intros [[= _ <-]|[]]. now left.
  - destruct (k0 =? k')%string; simpl.
    + intros [[= _ <-]|H]; [now left|right; now right].
    + intros [H|H]; [right; now left|]. destruct (IH H); [now left|right; now right].
Qed.

(** A plain object of scalars compares the same in two heaps that hold
    it. *)
Lemma equal_json_shallow (h h' : heap) (l : loc) (ps : list (string * value)) (j : json) :
  h !! l = Some (Obj ps) -> h' !! l = Some (Obj ps) ->
  (forall k v, In (k, v) ps -> isObject v = false) ->
  equal_json h (VRef l) j = equal_json h' (VRef l) j.
Proof.
  intros Hl Hl' Hps. destruct j as [| | | |items|members]; try reflexivity;
    cbn [equal_json]; rewrite Hl, Hl'; [reflexivity|].
  f_equal. induction members as [|[k j'] ms IH]; [reflexivity|].
  rewrite IH. f_equal.
  destruct (assoc_get k ps) as [v|] eqn:Hv; [|reflexivity].
  apply equal_json_scalar. eapply Hps, assoc_get_In, Hv.
Qed.

Lemma isEqual_agree (h h' : heap) (ps : list (string * value)) (hit : IndexHit) :
  (forall k v j, In (k, v) ps -> equal_json h v j = equal_json h' v j) ->
  isEqual h ps hit = isEqual h' ps hit.
Proof.
  intros Hps. unfold isEqual. f_equal.
  induction (hit_members hit) as [|[k j] ms IH]; [reflexivity|].
  cbn [forallb fst snd]. rewrite IH. f_equal.
  destruct (assoc_get k ps) as [v|] eqn:Hv; [|reflexivity].
  eapply Hps, assoc_get_In, Hv.
Qed.

(** For a record whose properties are scalars or plain objects of scalars
    that are no incoming records, it is enough to compare once, in the heap
    the diff starts from. *)
Lemma equal_when_compared_shallow (data : list value) (hits : list IndexHit) (h : heap)
    (l : loc) (ps : list (string * value)) (hit : IndexHit) :
  h !! l = Some (Obj ps) ->
  (forall k v, In (k, v) ps ->
     isObject v = false
     \/ exists l' ps', v = VRef l' /\ l' <> l /\ ~ In (VRef l') data
                       /\ h !! l' = Some (Obj ps')
                       /\ forall k' v', In (k', v') ps' -> isObject v' = false) ->
  isEqual h (List.filter (fun p => negb (is_undefined (snd p)))
                         (assoc_set "objectID" (VStr (objectID hit)) ps)) hit = true ->
  equal_when_compared data hits h (VRef l) hit.
Proof.
  intros Hl Hps Heq h1 h2 ps' Hs Hset Homit.
  destruct (stamped_lookup _ _ _ _ _ _ Hs Hl) as (ps1 & Hl1 & Hps1).
  rewrite (setp_eq _ _ "objectID" (VStr (objectID hit)) _ Hl1) in Hset.
  injection Hset as <-.
  assert (Hl2 : <[l := Obj (assoc_set "objectID" (VStr (objectID hit)) ps1)]> h1 !! l
                = Some (Obj (assoc_set "objectID" (VStr (objectID hit)) ps1))).
  { apply list_lookup_insert_eq. now apply lookup_lt_Some in Hl1. }
  unfold omitBy_isUndefined in Homit. rewrite (bind_eq _ _ _ _ _ (deref_eq _ _ _ Hl2)) in Homit.
  injection Homit as <-.
  assert (Hsame : assoc_set "objectID" (VStr (objectID hit)) ps1
                  = assoc_set "objectID" (VStr (objectID hit)) ps).
  { destruct Hps1 as [->|(v & ->)]; [reflexivity|apply assoc_set_set]. }
  rewrite Hsame. etransitivity; [|exact Heq]. apply isEqual_agree.
  intros k v j Hin. apply List.filter_In in Hin as [Hin _].
  apply assoc_set_In in Hin as [->|Hin]; [now apply equal_json_scalar|].
  destruct (Hps _ _ Hin) as [Hv|(l' & ps0 & -> & Hne & Hout & Hl' & Hflat)].
  - now apply equal_json_scalar.
  - apply (equal_json_shallow _ _ l' ps0); [|exact Hl'|exact Hflat].
    etransitivity; [apply list_lookup_insert_ne; congruence|].
    destruct Hs as [_ Hs]. destruct (Hs l') as [E|[Hin' _]]; [|contradiction].
    etransitivity; [exact E|exact Hl'].
Qed.

Lemma diff_unchanged_record_witness :
  exists batch h',
    diff [VRef 0] None [hit_nested] nested_records = (Ret batch, h')
    /\ ~ In (VRef 0) (created batch)
    /\ ~ In (VRef 0) (updated batch)
    /\ (NoDup (map objectID [hit_nested]) -> ~ In (objectID hit_nested) (deleted batch)).
Proof.
  evaluated (key_of (VRef 0) nested_records) as Hk.
  match type of Hk with
  | _ = Some ?k =>
      apply (diff_unchanged_record [VRef 0] None [hit_nested] hit_nested (VRef 0)
               nested_records k)
  end.
  - repeat constructor. vm_compute. eauto.
  - repeat constructor. vm_compute. eauto.
  - now left.
  - exact Hk.
  - intros e [<-|[]] _. reflexivity.
  - now left.
  - vm_compute. reflexivity.
  - intros x [<-|[]] _. split; [discriminate|].
    eapply equal_when_compared_shallow; [reflexivity| |vm_compute; reflexivity].
    intros k v Hin. simpl in Hin.
    repeat (destruct Hin as [[= <- <-]|Hin];
            [first [left; reflexivity
                   |right; exists 1, [("name", VStr "N")];
                    split; [reflexivity|]; split; [discriminate|];
                    split; [intros [[=]|[]]|]; split; [reflexivity|];
                    intros k' v' [[= <- <-]|[]]; reflexivity]|]).
    destruct Hin.
Defined.

(** C6 fails as stated: the record has the fingerprint of [hit_e1] and is
    equal to it, and the diff still puts it in [updated], because the
    snapshot holds a second record with that fingerprint. *)
Lemma diff_updates_on_duplicate_hit :
  key_of (VRef 0) sample_records = key_of hit_e1 sample_records
  /\ equal_when_compared [VRef 0] [hit_e1; hit_e1_stale] sample_records (VRef 0) hit_e1
  /\ fst (diff [VRef 0] None [hit_e1; hit_e1_stale] sample_records)
     = Ret {| created := []; updated := [VRef 0]; deleted := [] |}
  /\ In (VRef 0) [VRef 0].
Proof.
  split; [vm_compute; reflexivity|]. split; [|split; [vm_compute; reflexivity|now left]].
  eapply equal_when_compared_shallow; [reflexivity| |vm_compute; reflexivity].
  intros k v Hin. simpl in Hin.
  repeat (destruct Hin as [[= <- <-]|Hin]; [left; reflexivity|]). destruct Hin.
Qed.

(** ** One record per fallback group *)

(** C3, at the input where the code departs from it. With the two groups
    [["en"]] and [["de"]] the flattener returns two records, and both are
    the one object it has cleaned and merged into: its [locale] is [de],
    the first code of the last group, also for the record of group [en],
    and its title is the one resolved for [en], also for the record of
    group [de]. *)
Theorem flatten_two_groups_one_object :
  fst (_getLocalizedEntries (Some [["en"]; ["de"]]) 10 (VRef 0) two_locale_entry)
  = Ret (FlatMany [VRef 1; VRef 1])
  /\ peek (snd (_getLocalizedEntries (Some [["en"]; ["de"]]) 10 (VRef 0) two_locale_entry))
          (VRef 1) "locale" = VStr "de"
  /\ peek (snd (_getLocalizedEntries (Some [["en"]; ["de"]]) 10 (VRef 0) two_locale_entry))
          (VRef 1) "title" = VStr "A"
  /\ VStr "de" <> VStr "en".
Proof.
  split; [vm_compute; reflexivity|]. split; [vm_compute; reflexivity|].
  split; [vm_compute; reflexivity|discriminate].
Qed.

Lemma setp_ref (v : value) (k : string) (x : value) (h h' : heap) :
  setp v k x h = (Ret tt, h') -> exists l, v = VRef l.
Proof. destruct v; try discriminate. eauto. Qed.

(** What [_cleanEntry] returns is an object: the one it made, or the
    system envelope it wrote [fields] into. *)
Lemma cleanEntry_ref (locales : option (list (list string))) (entry : value) (full : bool)
    (h h' : heap) (e : value) :
  _cleanEntry locales entry full h = (Ret e, h') -> exists l, e = VRef l.
Proof.
  unfold _cleanEntry. intros H.
  apply bind_inv in H as (ne & h1 & Hne & H). injection Hne as <- <-.
  apply bind_inv in H as (em & h2 & _ & H).
  apply bind_inv in H as ([] & h3 & _ & H).
  destruct (negb (truthy entry)).
  - injection H as <- _. eauto.
  - apply bind_inv in H as (sys & h4 & _ & H).
    apply bind_inv in H as ([ct ne'] & h5 & _ & H). cbn [fst snd] in H.
    apply bind_inv in H as (f & h6 & _ & H).
    apply bind_inv in H as ([] & h7 & Hset & H).
    apply bind_inv in H as (nf & h8 & _ & H).
    apply bind_inv in H as ([] & h9 & _ & H).
    injection H as <- _. eapply setp_ref, Hset.
Qed.

Lemma mergeFields_same (fuel : nat) (l : loc) (fields : value) (h h' : heap) (e : value) :
  _mergeFields fuel (VRef l) fields h = (Ret e, h') -> e = VRef l.
Proof.
  unfold _mergeFields. cbn [is_undefined]. intros H.
  apply bind_inv in H as (e1 & h1 & He1 & H). injection He1 as <- <-.
  apply bind_inv in H as (f & h2 & _ & H).
  apply bind_inv in H as (e2 & h3 & Hm & H).
  apply bind_inv in H as ([] & h4 & _ & H). injection H as <- _.
  unfold merge in Hm.
  apply bind_inv in Hm as (o & h5 & Ho & Hm). injection Ho as <- <-.
  apply bind_inv in Hm as ([] & h6 & _ & Hm). now injection Hm as <- _.
Qed.

Lemma cleanLocales_same (entry : value) (locale : list string) (h h' : heap) (e : value) :
  _cleanLocales entry locale h = (Ret e, h') -> e = entry.
Proof.
  unfold _cleanLocales. intros H.
  apply bind_inv in H as ([] & h1 & _ & H). now injection H as <- _.
Qed.

Lemma cleanMore_same (locales : option (list (list string))) (fuel : nat) (entry : value)
    (locale : list string) (h h' : heap) (e : value) :
  _cleanMore locales fuel entry locale None h = (Ret e, h') -> e = entry.
Proof.
  destruct fuel as [|n]; [discriminate|].
  rewrite cleanMore_returns_early; [now intros [= <- _]|].
  unfold indexOf. simpl. lia.
Qed.

(** The slip behind the departure from C3 is not tied to that input:
    whatever the entry and the groups, every record the flattener returns is
    the same object. *)
Lemma flatten_records_alias (groups : list (list string)) (fuel : nat) (entry : value)
    (h h' : heap) (records : list value) :
  _getLocalizedEntries (Some groups) fuel entry h = (Ret (FlatMany records), h') ->
  exists l, records = repeat (VRef l) (length groups).
Proof.
  unfold _getLocalizedEntries. intros H.
  apply bind_inv in H as (e & h1 & He & H).
  destruct (cleanEntry_ref _ _ _ _ _ _ He) as [l ->]. exists l.
  apply bind_inv in H as (rs & h2 & Hfold & H). injection H as <- _.
  assert (Hgen : forall gs acc h0 h3 out,
             foldM (fun localizedEntries locale =>
                      fields <- getp (VRef l) "fields" ;;
                      fields <- _getFieldsForLocale fields locale ;;
                      fields <- _getFields (Some groups) fuel fields locale ;;
                      newEntry <- _mergeFields fuel (VRef l) fields ;;
                      delp newEntry "fields" ;;;
                      newEntry <- _cleanMore (Some groups) fuel newEntry locale None ;;
                      newEntry <- _cleanLocales newEntry locale ;;
                      ret (localizedEntries ++ [newEntry])) gs acc h0 = (Ret out, h3) ->
             out = acc ++ repeat (VRef l) (length gs)).
  { induction gs as [|g gs IH]; intros acc h0 h3 out Hrun.
    - injection Hrun as <- _. now rewrite app_nil_r.
    - cbn [foldM] in Hrun.
      apply bind_inv in Hrun as (acc' & h4 & Hstep & Hrun).
      apply IH in Hrun. subst out.
      apply bind_inv in Hstep as (f1 & h5 & _ & Hstep).
      apply bind_inv in Hstep as (f2 & h6 & _ & Hstep).
      apply bind_inv in Hstep as (f3 & h7 & _ & Hstep).
      apply bind_inv in Hstep as (n1 & h8 & Hm & Hstep).
      apply mergeFields_same in Hm. subst n1.
      apply bind_inv in Hstep as ([] & h9 & _ & Hstep).
      apply bind_inv in Hstep as (n2 & h10 & Hc & Hstep).
      apply cleanMore_same in Hc. subst n2.
      apply bind_inv in Hstep as (n3 & h11 & Hl & Hstep).
      apply cleanLocales_same in Hl. subst n3.
      injection Hstep as <- _. cbn [length repeat]. now rewrite <- app_assoc. }
  apply Hgen in Hfold. now rewrite Hfold.
Qed.

(** ** Flattening without a locale configuration *)






(** * Further properties of the code *)

(** ** The commit: what is sent and what comes back *)

Lemma bulk_send {A} (mk : list A -> request) (objects : list A) (w : world) :
  (if (length objects =? 0)%nat then (@Resolved (list string) [], w)
   else let (resp, w') := send (mk objects) w in
        (match resp with Content ids => Resolved ids | _ => Rejected end, w'))
  = (match objects with
     | [] => Resolved []
     | _ => match server w (sent w) (mk objects) with
            | Content ids => Resolved ids
            | _ => Rejected
            end
     end,
     {| server := server w; sent := sent w ++ bulk_request mk objects |}).
Proof.
  destruct objects as [|o objects]; simpl.
  - rewrite app_nil_r. now destruct w.
  - reflexivity.
Qed.

(** [getMergedObjects] concatenates the identifier lists in their order. *)
Lemma getMergedObjects_app (data : list (list string)) (acc : list string) :
  fold_left (fun objects element => objects ++ element) data acc = acc ++ concat data.
Proof.
  revert acc. induction data as [|x data IH]; intros acc; simpl.
  - now rewrite app_nil_r.
  - now rewrite IH, app_assoc.
Qed.

Lemma indexObjects_log (newObjects existingObjects : list value)
    (deletedObjects : list string) (w : world) :
  sent (snd (indexObjects newObjects existingObjects deletedObjects w))
  = ((sent w ++ bulk_request AddObjects newObjects)
     ++ bulk_request SaveObjects existingObjects)
    ++ bulk_request DeleteObjects deletedObjects.
Proof.
  unfold indexObjects, addObjects, updateObjects, deleteObjects.
  rewrite (bulk_send AddObjects newObjects w).
  rewrite (bulk_send SaveObjects existingObjects).
  rewrite (bulk_send DeleteObjects deletedObjects).
  reflexivity.
Qed.

(** The commit sends one request for each non-empty set and none for an
    empty one, in the order add, save, delete, whatever the index answers:
    a failed request does not hold back the ones after it. It resolves only
    if every request it sent was answered with identifiers, and then to
    these identifiers in the same order, none removed. *)
Theorem indexObjects_requests_and_result (newObjects existingObjects : list value)
    (deletedObjects : list string) (w : world) :
  let log1 := sent w ++ bulk_request AddObjects newObjects in
  let log2 := log1 ++ bulk_request SaveObjects existingObjects in
  sent (snd (indexObjects newObjects existingObjects deletedObjects w))
  = log2 ++ bulk_request DeleteObjects deletedObjects
  /\ server (snd (indexObjects newObjects existingObjects deletedObjects w)) = server w
  /\ forall ids,
      fst (indexObjects newObjects existingObjects deletedObjects w) = Resolved ids ->
      exists a b c,
        ids = a ++ b ++ c
        /\ (newObjects = [] /\ a = []
            \/ newObjects <> []
               /\ server w (sent w) (AddObjects newObjects) = Content a)
        /\ (existingObjects = [] /\ b = []
            \/ existingObjects <> []
               /\ server w log1 (SaveObjects existingObjects) = Content b)
        /\ (deletedObjects = [] /\ c = []
            \/ deletedObjects <> []
               /\ server w log2 (DeleteObjects deletedObjects) = Content c).
Proof.
  intros log1 log2. unfold indexObjects, addObjects, updateObjects, deleteObjects.
  rewrite (bulk_send AddObjects newObjects w).
  rewrite (bulk_send SaveObjects existingObjects).
  rewrite (bulk_send DeleteObjects deletedObjects).
  cbn [fst snd sent server]. split; [reflexivity|]. split; [reflexivity|].
  intros ids H.
  assert (Ha : forall (A : Type) (mk : list A -> request) (l : list A) log r,
             match l with
             | [] => Resolved []
             | _ => match server w log (mk l) with
                    | Content ids => Resolved ids
                    | _ => Rejected
                    end
             end = Resolved r ->
             l = [] /\ r = [] \/ l <> [] /\ server w log (mk l) = Content r).
  { intros A mk l log r Hr. destruct l as [|x l].
    - left. now injection Hr as <-.
    - right. split; [discriminate|].
      destruct (server w log (mk (x :: l))); try discriminate. now injection Hr as <-. }
  fold log1 in H |- *. fold log2 in H |- *.
  destruct (match newObjects with [] => Resolved [] | _ => _ end) as [a|] eqn:Ea;
    [|discriminate].
  destruct (match existingObjects with [] => Resolved [] | _ => _ end) as [b|] eqn:Eb;
    [|discriminate].
  destruct (match deletedObjects with [] => Resolved [] | _ => _ end) as [c|] eqn:Ec;
    [|discriminate].
  injection H as <-. exists a, b, c.
  split; [unfold getMergedObjects; rewrite getMergedObjects_app; simpl;
          now rewrite app_nil_r|].
  split; [now apply (Ha _ AddObjects)|].
  split; [now apply (Ha _ SaveObjects)|now apply (Ha _ DeleteObjects)].
Qed.

(** ** The orchestrator never deletes *)

Lemma classify_keeps_deleted (entriesIndex : list (string * value))
    (contentType : option string) (results results' : SyncBatch) (x : IndexHit)
    (h h' : heap) :
  supplied contentType = false ->
  classify entriesIndex contentType results x h = (Ret results', h') ->
  deleted results' = deleted results.
Proof.
  intros Hs H. unfold classify in H.
  apply bind_inv in H as (k & h1 & _ & H). cbv zeta in H.
  destruct (truthy (default VUndef (assoc_get k entriesIndex))).
  - apply bind_inv in H as ([] & h2 & _ & H).
    apply bind_inv in H as (ps & h3 & _ & H).
    destruct (negb (isEqual h3 ps x)); injection H as <- _; reflexivity.
  - rewrite Hs in H. now injection H as <- _.
Qed.

Lemma classify_all_keeps_deleted (entriesIndex : list (string * value))
    (contentType : option string) (hits : list IndexHit) :
  supplied contentType = false ->
  forall (results results' : SyncBatch) (h h' : heap),
    foldM (classify entriesIndex contentType) hits results h = (Ret results', h') ->
    deleted results' = deleted results.
Proof.
  intros Hs. induction hits as [|x hits IH]; intros results results' h h' H.
  - now injection H as <- _.
  - cbn [foldM] in H. apply bind_inv in H as (r1 & h1 & Hstep & H).
    apply IH in H. apply (classify_keeps_deleted _ _ _ _ _ _ _ Hs) in Hstep. congruence.
Qed.

Lemma diffHits_unfiltered_deleted (data : list value) (entriesIndex : list (string * value))
    (contentType : option string) (hits : list IndexHit) (h h' : heap) (batch : SyncBatch) :
  supplied contentType = false ->
  diffHits data entriesIndex contentType hits h = (Ret batch, h') ->
  deleted batch = [].
Proof.
  intros Hs H. unfold diffHits in H.
  apply bind_inv in H as (res & h1 & Hfold & H).
  apply bind_inv in H as (new & h2 & _ & H). injection H as <- _. cbn [deleted].
  now apply (classify_all_keeps_deleted _ _ _ Hs) in Hfold.
Qed.

Lemma settle_resolved {A} (c : M A) (h h' : heap) (a : A) :
  settle c h = (Ret (Resolved a), h') -> c h = (Ret a, h').
Proof.
  unfold settle. destruct (c h) as [[a'|[]] h1]; try discriminate.
  now intros [= <- <-].
Qed.

Lemma deletes_app (l1 l2 : list request) :
  List.filter is_delete (l1 ++ l2) = List.filter is_delete l1 ++ List.filter is_delete l2.
Proof. apply List.filter_app. Qed.

Lemma bulk_request_no_delete {A} (mk : list A -> request) (objects : list A) :
  (forall l, is_delete (mk l) = false) ->
  List.filter is_delete (bulk_request mk objects) = [].
Proof. intros Hmk. destruct objects; simpl; [reflexivity|]. now rewrite Hmk. Qed.

Section NeverDeletes.

Variable callback : option (list value -> M unit).

Lemma singleCallback_settle_no_delete (p : pending) (w w' : world) (h h' : heap)
    (r : option (list string)) :
  singleCallback_settle p w h = (Ret (r, w'), h') ->
  List.filter is_delete (sent w') = List.filter is_delete (sent w).
Proof.
  unfold singleCallback_settle. destruct (p_hits p) as [hits|].
  - intros H. apply bind_inv in H as (b & h1 & Hs & H). destruct b as [entries|].
    + apply settle_resolved in Hs.
      apply diffHits_unfiltered_deleted in Hs; [|reflexivity].
      pose proof (indexObjects_log (created entries) (updated entries)
                    (deleted entries) w) as Hlog.
      destruct (indexObjects (created entries) (updated entries) (deleted entries) w)
        as [ids w1].
      injection H as _ <- _. cbn [snd] in Hlog. rewrite Hlog, Hs, !deletes_app.
      rewrite !bulk_request_no_delete by reflexivity. simpl. now rewrite !app_nil_r.
    + now injection H as _ <- _.
  - now intros [= _ <- _].
Qed.

Lemma settle_all_no_delete (ps : list pending) :
  forall (w w' : world) (h h' : heap) (rs : list (option (list string))),
    settle_all ps w h = (Ret (rs, w'), h') ->
    List.filter is_delete (sent w') = List.filter is_delete (sent w).
Proof.
  induction ps as [|p ps IH]; intros w w' h h' rs H.
  - now injection H as _ <- _.
  - cbn [settle_all] in H.
    apply bind_inv in H as ([r w1] & h1 & H1 & H).
    apply bind_inv in H as ([rs1 w2] & h2 & H2 & H).
    injection H as _ <- _. cbn [fst snd] in *.
    apply singleCallback_settle_no_delete in H1. apply IH in H2. congruence.
Qed.

Lemma issue_all_no_delete (content : list (string * list value)) :
  forall (w w' : world) (h h' : heap) (ps : list pending),
    issue_all callback content w h = (Ret (ps, w'), h') ->
    List.filter is_delete (sent w') = List.filter is_delete (sent w).
Proof.
  induction content as [|[type entries] content IH]; intros w w' h h' ps H.
  - now injection H as _ <- _.
  - cbn [issue_all] in H.
    destruct (singleCallback_issue callback entries w h) as [[[p w1]|e] h1] eqn:E1.
    + destruct (issue_all callback content w1 h1) as [[[ps1 w2]|e] h2] eqn:E2;
        [|discriminate].
      injection H as _ <- _. apply IH in E2.
      apply singleCallback_issue_fetches in E1.
      rewrite E2, E1, deletes_app. simpl. now rewrite app_nil_r.
    + destruct e; try discriminate. now injection H as _ <- _.
Qed.

End NeverDeletes.

(** A run of [sync] never asks the index to delete anything: its log
    holds the delete requests it held before and no other, whatever the
    entries, the snapshot and the answers of the index. ([singleCallback]
    calls [indexData] without a content type, and without one the diff
    leaves [deleted] empty.) *)
Theorem sync_never_deletes (locales : option (list (list string)))
    (callback : option (list value -> M unit))
    (manipulateSingle : option (value -> list value -> M value))
    (fuel : nat) (contentTypes : list string) (entries : list value)
    (w w' : world) (h h' : heap) (rs : list (option (list string))) :
  sync locales callback manipulateSingle fuel contentTypes entries w h = (Ret (rs, w'), h') ->
  List.filter is_delete (sent w') = List.filter is_delete (sent w).
Proof.
  unfold sync, sync_each. intros H.
  apply bind_inv in H as (content & h1 & _ & H).
  apply bind_inv in H as ([ps w1] & h2 & H1 & H2). cbn [fst snd] in H2.
  apply issue_all_no_delete in H1. apply settle_all_no_delete in H2. congruence.
Qed.

Lemma sync_never_deletes_witness :
  exists rs w' h',
    sync (Some [["en"]]) None None 10 ["page"] [VRef 0] sample_world two_locale_entry
    = (Ret (rs, w'), h')
    /\ List.filter is_delete (sent w') = List.filter is_delete (sent sample_world).
Proof.
  evaluated (sync (Some [["en"]]) None None 10 ["page"] [VRef 0] sample_world
               two_locale_entry) as E.
  match type of E with
  | _ = (Ret (?rs, ?w), ?h) => exists rs, w, h
  end.
  split; [exact E|].
  exact (sync_never_deletes _ _ _ _ _ _ _ _ _ _ _ E).
Defined.

Lemma indexObjects_requests_and_result_witness :
  sent (snd (indexObjects [VRef 0] [] ["obj2"] answering_world))
  = [AddObjects [VRef 0]; DeleteObjects ["obj2"]]
  /\ exists a b c,
      ["added"; "deleted"] = a ++ b ++ c
      /\ (@nil value = [] /\ b = []
          \/ @nil value <> []
             /\ server answering_world
                  (sent answering_world ++ bulk_request AddObjects [VRef 0])
                  (SaveObjects []) = Content b).
Proof.
  destruct (indexObjects_requests_and_result [VRef 0] [] ["obj2"] answering_world)
    as (Hlog & _ & Hres).
  split; [exact Hlog|].
  destruct (Hres ["added"; "deleted"] eq_refl) as (a & b & c & Hids & _ & Hb & _).
  exists a, b, c. split; [exact Hids|exact Hb].
Defined.

(** ** A failed snapshot fetch *)

(** When the browse of a fresh instance fails, [indexData] gives no
    identifiers and sends nothing but the browse request; the instance keeps
    the rejected promise, so every later call on it fails in the same way
    without asking the index again, whatever the index would answer by
    then. *)
Theorem indexData_snapshot_failure (a : Algolia) (data : list value)
    (contentType : option string) (w : world) (h h1 : heap)
    (entriesIndex : list (string * value)) :
  cachedResults a = None ->
  (forall hits, server w (sent w) BrowseAll <> Hits hits) ->
  keyBy data h = (Ret entriesIndex, h1) ->
  indexData a data contentType w h
  = (Ret (None, {| cachedResults := Some Rejected |},
          {| server := server w; sent := sent w ++ [BrowseAll] |}), h1)
  /\ forall (data2 : list value) (contentType2 : option string) (w2 : world) (h2 h3 : heap)
            (entriesIndex2 : list (string * value)),
      keyBy data2 h2 = (Ret entriesIndex2, h3) ->
      indexData {| cachedResults := Some Rejected |} data2 contentType2 w2 h2
      = (Ret (None, {| cachedResults := Some Rejected |}, w2), h3).
Proof.
  intros Hc Hfail Hkey. split.
  - unfold indexData, getElementsPromise. mstep Hkey. unfold snapshot. rewrite Hc.
    unfold send. destruct (server w (sent w) BrowseAll) as [hits| |] eqn:E.
    + now destruct (Hfail hits).
    + reflexivity.
    + reflexivity.
  - intros data2 ct2 w2 h2 h3 idx2 Hkey2.
    unfold indexData, getElementsPromise. mstep Hkey2. reflexivity.
Qed.

Lemma indexData_snapshot_failure_witness :
  indexData newAlgolia [] (Some "page") failing_world sample_records
  = (Ret (None, {| cachedResults := Some Rejected |},
          {| server := server failing_world; sent := sent failing_world ++ [BrowseAll] |}),
     sample_records)
  /\ indexData {| cachedResults := Some Rejected |} [] None answering_world sample_records
     = (Ret (None, {| cachedResults := Some Rejected |}, answering_world), sample_records).
Proof.
  destruct (indexData_snapshot_failure newAlgolia [] (Some "page") failing_world
              sample_records sample_records [] eq_refl) as (H1 & H2).
  - intros hits. discriminate.
  - reflexivity.
  - split; [exact H1|]. now apply (H2 [] None answering_world sample_records sample_records []).
Defined.

(** ** The diff: what a batch can hold *)

(** Everything the loop over the hits establishes, for records and hits
    that all have a key. *)
Lemma diff_outcome (data : list value) (contentType : option string) (hits : list IndexHit)
    (h : heap) :
  Forall (fun e => is_Some (key_of e h)) data ->
  Forall (fun x => is_Some (key_of x h)) hits ->
  exists entriesIndex results h',
    keyBy data h = (Ret entriesIndex, h)
    /\ (forall k v, assoc_get k entriesIndex = Some v -> In v data /\ key_of v h = Some k)
    /\ (forall e k, In e data -> key_of e h = Some k -> is_Some (assoc_get k entriesIndex))
    /\ foldM (classify entriesIndex contentType) (restrict contentType hits)
             {| created := []; updated := []; deleted := [] |} h = (Ret results, h')
    /\ attached h h'
    /\ deleted results
       = (if supplied contentType
          then map objectID (List.filter (fun x => negb (matched entriesIndex x))
                                         (restrict contentType hits))
          else [])
    /\ (forall u, In u (updated results) ->
                  exists x, In x (restrict contentType hits) /\ found_different h u x
                            /\ exists k, key_of x h = Some k
                                         /\ assoc_get k entriesIndex = Some u)
    /\ (forall l, (forall x k, In x (restrict contentType hits) -> key_of x h = Some k ->
                               assoc_get k entriesIndex <> Some (VRef l)) ->
                  h' !! l = h !! l)
    /\ (forall l, (exists x k, In x (restrict contentType hits) /\ key_of x h = Some k
                               /\ assoc_get k entriesIndex = Some (VRef l)) ->
                  exists x k ps', In x (restrict contentType hits)
                                  /\ key_of x h = Some k
                                  /\ assoc_get k entriesIndex = Some (VRef l)
                                  /\ h' !! l = Some (Obj ps')
                                  /\ assoc_get "objectID" ps' = Some (VStr (objectID x)))
    /\ diff data contentType hits h
       = (Ret {| created := List.filter (fun e => negb (truthy (peek h' e "objectID"))) data;
                 updated := updated results;
                 deleted := deleted results |}, h').
Proof.
  intros Hdata Hhits.
  destruct (keyBy_spec h data Hdata) as (idx & Hkey & Hfrom & Hall).
  destruct (classify_all h idx contentType (fun k v Hv => proj2 (Hfrom k v Hv))
              (restrict contentType hits) (restrict_keyed _ _ _ Hhits)
              {| created := []; updated := []; deleted := [] |} h (attached_refl h))
    as (res & h' & Hrun & Ha & _ & Hdel & Hupd & Hframe & Hlast).
  exists idx, res, h'. split; [exact Hkey|].
  split; [exact Hfrom|]. split; [exact Hall|]. split; [exact Hrun|]. split; [exact Ha|].
  split; [exact Hdel|]. split; [|split; [exact Hframe|split; [exact Hlast|]]].
  - intros u Hu. destruct (Hupd u Hu) as [[]|H]. exact H.
  - assert (Hobjs : forall e, In e data -> exists l o, e = VRef l /\ h' !! l = Some o).
    { intros e He. rewrite List.Forall_forall in Hdata. destruct (Hdata e He) as [k Hk].
      destruct (key_of_record _ _ _ Hk) as (l & ps & _ & _ & -> & Hl & _).
      destruct (attached_lookup _ _ _ _ Ha Hl) as (ps1 & Hl1 & _). eauto. }
    unfold diff. mstep Hkey. unfold diffHits. mstep Hrun.
    now rewrite (bind_eq _ _ _ _ _ (created_filter data h' Hobjs)).
Qed.

(** Whatever the snapshot, the diff draws its batch from what it was given:
    [created] and [updated] hold incoming records only, [deleted] holds
    only identifiers of snapshot hits that pass the content-type filter and
    have the fingerprint of no incoming record, and all the diff changes in
    the heap is the [objectID] of records. *)
Theorem diff_batch_from_inputs (data : list value) (contentType : option string)
    (hits : list IndexHit) (h : heap) :
  Forall (fun e => is_Some (key_of e h)) data ->
  Forall (fun x => is_Some (key_of x h)) hits ->
  exists batch h',
    diff data contentType hits h = (Ret batch, h')
    /\ attached h h'
    /\ (forall e, In e (created batch) -> In e data)
    /\ (forall e, In e (updated batch) -> In e data)
    /\ (forall oid, In oid (deleted batch) ->
                    exists x, In x hits /\ objectID x = oid
                              /\ matches_contentType contentType x = true
                              /\ forall e, In e data -> key_of e h <> key_of x h).
Proof.
  intros Hdata Hhits.
  destruct (diff_outcome data contentType hits h Hdata Hhits)
    as (idx & res & h' & _ & Hfrom & Hall & _ & Ha & Hdel & Hupd & _ & _ & Hrun).
  eexists _, h'. split; [exact Hrun|]. split; [exact Ha|]. cbn [created updated deleted].
  split; [|split].
  - intros e He. now apply List.filter_In in He.
  - intros e He. destruct (Hupd e He) as (x & _ & _ & k & _ & Hv). now apply Hfrom in Hv.
  - intros oid Hoid. rewrite Hdel in Hoid. unfold restrict in Hoid.
    destruct (supplied contentType); [|destruct Hoid].
    apply in_map_iff in Hoid as (x & Hx & Hin).
    apply List.filter_In in Hin as [Hin Hm]. apply List.filter_In in Hin as [Hin Hct].
    exists x. split; [exact Hin|]. split; [exact Hx|]. split; [exact Hct|].
    intros e He Heq. rewrite List.Forall_forall in Hdata. destruct (Hdata e He) as [k Hk].
    destruct (Hall e k He Hk) as [v Hv]. rewrite Hk in Heq. symmetry in Heq.
    rewrite (matched_true h idx x k v Heq Hv) in Hm. discriminate.
Qed.

Lemma sample_record_keyed : Forall (fun e => is_Some (key_of e sample_records)) [VRef 0].
Proof. repeat constructor. vm_compute. eauto. Qed.

Lemma sample_hits_keyed :
  Forall (fun x => is_Some (key_of x sample_records)) [hit_e1; hit_e2; hit_e1_stale].
Proof. repeat constructor; vm_compute; eauto. Qed.

Lemma diff_batch_from_inputs_witness :
  exists batch h',
    diff [VRef 0] (Some "post") [hit_e1; hit_e2; hit_e1_stale] sample_records
    = (Ret batch, h')
    /\ attached sample_records h'
    /\ (forall e, In e (created batch) -> In e [VRef 0])
    /\ (forall e, In e (updated batch) -> In e [VRef 0])
    /\ (forall oid, In oid (deleted batch) ->
                    exists x, In x [hit_e1; hit_e2; hit_e1_stale] /\ objectID x = oid
                              /\ matches_contentType (Some "post") x = true
                              /\ forall e, In e [VRef 0] ->
                                           key_of e sample_records <> key_of x sample_records).
Proof.
  exact (diff_batch_from_inputs [VRef 0] (Some "post") [hit_e1; hit_e2; hit_e1_stale]
           sample_records sample_record_keyed sample_hits_keyed).
Defined.

(** As long as the identifiers of the snapshot are not empty, no record is
    both in [created] and in [updated]. *)
Theorem diff_created_updated_disjoint (data : list value) (contentType : option string)
    (hits : list IndexHit) (h : heap) :
  Forall (fun e => is_Some (key_of e h)) data ->
  Forall (fun x => is_Some (key_of x h)) hits ->
  Forall (fun x => objectID x <> "") hits ->
  exists batch h',
    diff data contentType hits h = (Ret batch, h')
    /\ forall e, In e (created batch) -> ~ In e (updated batch).
Proof.
  intros Hdata Hhits Hoids.
  destruct (diff_outcome data contentType hits h Hdata Hhits)
    as (idx & res & h' & _ & Hfrom & _ & _ & _ & _ & Hupd & _ & Hlast & Hrun).
  eexists _, h'. split; [exact Hrun|]. cbn [created updated].
  intros e Hc Hu. apply List.filter_In in Hc as [_ Hc].
  destruct (Hupd e Hu) as (x & Hx & _ & k & Hk & Hv).
  destruct (Hfrom _ _ Hv) as [_ Hke].
  destruct (key_of_record _ _ _ Hke) as (l & ps & _ & _ & -> & _).
  destruct (Hlast l) as (x' & k' & ps' & Hx' & _ & _ & Hl' & Hoid); [eauto|].
  rewrite List.Forall_forall in Hoids.
  pose proof (Hoids x' (restrict_In _ _ _ Hx')) as Hne.
  unfold peek in Hc. rewrite Hl' in Hc. simpl in Hc. rewrite Hoid in Hc. simpl in Hc.
  apply String.eqb_neq in Hne. rewrite Hne in Hc. discriminate.
Qed.

Lemma diff_created_updated_disjoint_witness :
  exists batch h',
    diff [VRef 0] None [hit_e1; hit_e2; hit_e1_stale] sample_records = (Ret batch, h')
    /\ forall e, In e (created batch) -> ~ In e (updated batch).
Proof.
  apply (diff_created_updated_disjoint [VRef 0] None [hit_e1; hit_e2; hit_e1_stale]
           sample_records sample_record_keyed sample_hits_keyed).
  repeat constructor; discriminate.
Defined.

(** Against an empty snapshot the diff touches nothing: [created] is the
    incoming records that carry no [objectID] (or a falsy one), in their
    order; [updated] and [deleted] are empty. *)
Theorem diff_empty_snapshot (data : list value) (contentType : option string) (h : heap) :
  Forall (fun e => is_Some (key_of e h)) data ->
  diff data contentType [] h
  = (Ret {| created := List.filter (fun e => negb (truthy (peek h e "objectID"))) data;
            updated := [];
            deleted := [] |}, h).
Proof.
  intros Hdata.
  destruct (keyBy_spec h data Hdata) as (idx & Hkey & _).
  assert (Hobjs : forall e, In e data -> exists l o, e = VRef l /\ h !! l = Some o).
  { intros e He. rewrite List.Forall_forall in Hdata. destruct (Hdata e He) as [k Hk].
    destruct (key_of_record _ _ _ Hk) as (l & ps & _ & _ & -> & Hl & _). eauto. }
  unfold diff. mstep Hkey. unfold diffHits.
  assert (Hr : restrict contentType [] = []).
  { unfold restrict. now destruct (supplied contentType). }
  rewrite Hr. cbn [foldM]. mret.
  now rewrite (bind_eq _ _ _ _ _ (created_filter data h Hobjs)).
Qed.

Lemma diff_empty_snapshot_witness :
  diff [VRef 0] (Some "page") [] sample_records
  = (Ret {| created := List.filter
                         (fun e => negb (truthy (peek sample_records e "objectID")))
                         [VRef 0];
            updated := [];
            deleted := [] |}, sample_records).
Proof. exact (diff_empty_snapshot [VRef 0] (Some "page") sample_records sample_record_keyed).
Defined.

(** A record whose fingerprint is that of no hit of the (restricted)
    snapshot keeps the [objectID] it came with, is never in [updated], and is
    in [created] exactly when that [objectID] is missing or falsy: a record
    that arrives with an [objectID] is not created even though the index
    does not hold it. *)
Theorem diff_unmatched_record (data : list value) (contentType : option string)
    (hits : list IndexHit) (r : value) (h : heap) (kr : string) :
  Forall (fun e => is_Some (key_of e h)) data ->
  Forall (fun x => is_Some (key_of x h)) hits ->
  In r data ->
  key_of r h = Some kr ->
  (forall x, In x (restrict contentType hits) -> key_of x h <> Some kr) ->
  exists batch h',
    diff data contentType hits h = (Ret batch, h')
    /\ peek h' r "objectID" = peek h r "objectID"
    /\ (In r (created batch) <-> truthy (peek h r "objectID") = false)
    /\ ~ In r (updated batch).
Proof.
  intros Hdata Hhits Hr Hkr Hnone.
  destruct (diff_outcome data contentType hits h Hdata Hhits)
    as (idx & res & h' & _ & Hfrom & _ & _ & _ & _ & Hupd & Hframe & _ & Hrun).
  assert (Hnot : forall x k, In x (restrict contentType hits) -> key_of x h = Some k ->
                             assoc_get k idx <> Some r).
  { intros x k Hx Hk Hv. destruct (Hfrom _ _ Hv) as [_ Hk']. apply (Hnone x Hx). congruence. }
  destruct (key_of_record _ _ _ Hkr) as (lr & ps & _ & _ & -> & _).
  assert (Hsame : peek h' (VRef lr) "objectID" = peek h (VRef lr) "objectID").
  { unfold peek. now rewrite (Hframe lr Hnot). }
  eexists _, h'. split; [exact Hrun|]. split; [exact Hsame|]. cbn [created updated].
  split; [split|].
  - intros Hin. apply List.filter_In in Hin as [_ Hin]. rewrite Hsame in Hin.
    now apply negb_true_iff in Hin.
  - intros Hf. apply List.filter_In. split; [exact Hr|]. now rewrite Hsame, Hf.
  - intros Hin. destruct (Hupd _ Hin) as (x & Hx & _ & k & Hk & Hv). eapply Hnot; eauto.
Qed.

Lemma diff_unmatched_record_witness :
  exists batch h',
    diff [VRef 0] None [hit_e2] sample_records = (Ret batch, h')
    /\ peek h' (VRef 0) "objectID" = peek sample_records (VRef 0) "objectID"
    /\ (In (VRef 0) (created batch)
        <-> truthy (peek sample_records (VRef 0) "objectID") = false)
    /\ ~ In (VRef 0) (updated batch).
Proof.
  evaluated (key_of (VRef 0) sample_records) as Hk.
  match type of Hk with
  | _ = Some ?k =>
      apply (diff_unmatched_record [VRef 0] None [hit_e2] (VRef 0) sample_records k)
  end.
  - exact sample_record_keyed.
  - repeat constructor. vm_compute. eauto.
  - now left.
  - exact Hk.
  - intros x [<-|[]]. vm_compute. discriminate.
Defined.

(** ** The diff: a record that changed *)


Section DiffUpdates.

Variable h : heap.
Variable entriesIndex : list (string * value).
Variable contentType : option string.

Hypothesis index_keys_hold :
  forall k v, assoc_get k entriesIndex = Some v -> key_of v h = Some k.

Variable l : loc.
Variable ps : list (string * value).
Hypothesis record_there : h !! l = Some (Obj ps).
Hypothesis record_flat : forall k x, In (k, x) ps -> isObject x = false.


End DiffUpdates.



(** ** Locale resolution never yields a falsy value *)

Lemma getp_heap (v : value) (k : string) (h h' : heap) (r : outcome value) :
  getp v k h = (r, h') -> h' = h.
Proof.
  destruct v as [| | | | |l]; cbn; try (now intros [= _ <-]).
  unfold bind, deref. destruct (h !! l); now intros [= _ <-].
Qed.

(** Whatever the field is (a mapping, a string, a number), what
    [_getLocaleString] returns for it is [undefined] or a truthy value,
    never [null], [0], [false] or the empty string; and the call leaves the
    heap as it was. *)
Theorem getLocaleString_undefined_or_truthy (field : value) (locale : list string)
    (h h' : heap) (v : value) :
  _getLocaleString field locale h = (Ret v, h') ->
  h' = h /\ (v = VUndef \/ truthy v = true).
Proof.
  unfold _getLocaleString.
  assert (Hgen : forall (acc : value),
             acc = VUndef \/ truthy acc = true ->
             foldM (fun localizedField currentLocale =>
                      x <- getp field currentLocale ;;
                      ret (if truthy x && negb (truthy localizedField)
                           then x else localizedField)) locale acc h = (Ret v, h') ->
             h' = h /\ (v = VUndef \/ truthy v = true)).
  { induction locale as [|c locale IH]; intros acc Hacc Hrun.
    - injection Hrun as <- <-. auto.
    - cbn [foldM] in Hrun. apply bind_inv in Hrun as (s & h1 & Hstep & Hrun).
      apply bind_inv in Hstep as (x & h2 & Hget & Hret).
      apply getp_heap in Hget. injection Hret as <- <-. subst h2.
      apply (IH (if truthy x && negb (truthy acc) then x else acc)); [|exact Hrun].
      destruct (truthy x) eqn:Hx; [|exact Hacc].
      destruct (truthy acc) eqn:Ha; simpl; auto. }
  apply Hgen. now left.
Qed.

Lemma getLocaleString_undefined_or_truthy_witness :
  [Obj [("en", VStr ""); ("de", VStr "B")]] = [Obj [("en", VStr ""); ("de", VStr "B")]]
  /\ (VStr "B" = VUndef \/ truthy (VStr "B") = true).
Proof.
  apply (getLocaleString_undefined_or_truthy (VRef 0) ["en"; "de"]
           [Obj [("en", VStr ""); ("de", VStr "B")]]).
  reflexivity.
Defined.

(** ** Cleaning an entry that is not there *)

Lemma insert_before_last (h : heap) (o a b : object) :
  <[length h := o]> (h ++ [a; b]) = h ++ [o; b].
Proof. induction h as [|x h IH]; simpl; [reflexivity|]. f_equal. exact IH. Qed.

(** For a falsy entry (a missing link target, say) [_cleanEntry] returns a
    new object whose only property is an empty [fields]; no object of the
    heap is touched, whatever [full] and the locale configuration are. *)
Theorem cleanEntry_falsy_entry (locales : option (list (list string))) (entry : value)
    (full : bool) (h : heap) :
  truthy entry = false ->
  _cleanEntry locales entry full h
  = (Ret (VRef (length h)), h ++ [Obj [("fields", VRef (S (length h)))]; Obj []]).
Proof.
  intros Hf. unfold _cleanEntry.
  mstep (alloc_eq (Obj []) h). mstep (alloc_eq (Obj []) (h ++ [Obj []])).
  assert (Hl : ((h ++ [Obj []]) ++ [Obj []]) !! length h = Some (Obj [])).
  { apply lookup_alloc_old, lookup_alloc_new. }
  mstep (setp_eq _ _ "fields" (VRef (length (h ++ [Obj []]))) _ Hl).
  rewrite Hf. cbn [negb]. unfold ret. f_equal.
  rewrite <- app_assoc. cbn [app]. rewrite insert_before_last, List.length_app.
  cbn [length assoc_set]. now rewrite Nat.add_1_r.
Qed.

Lemma cleanEntry_falsy_entry_witness :
  _cleanEntry (Some [["en"]]) VNull true [Obj []]
  = (Ret (VRef 1), [Obj []; Obj [("fields", VRef 2)]; Obj []]).
Proof. apply (cleanEntry_falsy_entry (Some [["en"]]) VNull true [Obj []]). reflexivity. Defined.

(** ** The shape of a fingerprint *)

Lemma chain_update_byte (c : SHA256.ctx) (b : Z) :
  length (SHA256.chain c) = 8 -> length (SHA256.chain (SHA256.update_byte c b)) = 8.
Proof.
  intros H. unfold SHA256.update_byte.
  destruct (length (SHA256.pending c ++ [b]) =? 64)%nat; [reflexivity|exact H].
Qed.

Lemma chain_update_bytes (bs : list Z) :
  forall c, length (SHA256.chain c) = 8 ->
            length (SHA256.chain (SHA256.update_bytes c bs)) = 8.
Proof.
  unfold SHA256.update_bytes. induction bs as [|b bs IH]; intros c H; [exact H|].
  apply IH, chain_update_byte, H.
Qed.

Lemma hex_length (bs : list Z) : String.length (SHA256.hex bs) = 2 * length bs.
Proof. induction bs as [|b bs IH]; simpl; [reflexivity|]. rewrite IH. lia. Qed.

Lemma final_length (c : SHA256.ctx) :
  length (SHA256.chain c) = 8 -> length (SHA256.final c) = 32.
Proof.
  intros H. unfold SHA256.final.
  pose proof (chain_update_bytes (SHA256.padding c) c H) as Hc.
  destruct (SHA256.chain (SHA256.update_bytes c (SHA256.padding c)))
    as [|a [|b [|c0 [|d [|e [|f [|g [|i [|j rest]]]]]]]]]; try discriminate.
  reflexivity.
Qed.

(** Whatever the two strings are, the fingerprint has sixty-four
    characters. *)
Theorem fingerprint_length (id locale : string) :
  String.length (fingerprint id locale) = 64.
Proof.
  unfold fingerprint, SHA256.digest_hex. rewrite hex_length, final_length; [reflexivity|].
  unfold SHA256.update. now apply chain_update_bytes, chain_update_bytes.
Qed.

(** ** Every record of a flattening is the same object *)

Lemma flatten_records_alias_witness :
  exists l, [VRef 1; VRef 1] = repeat (VRef l) (length [["en"]; ["de"]]).
Proof.
  evaluated (_getLocalizedEntries (Some [["en"]; ["de"]]) 10 (VRef 0) two_locale_entry) as E.
  match type of E with
  | _ = (Ret _, ?h') =>
      exact (flatten_records_alias [["en"]; ["de"]] 10 (VRef 0) two_locale_entry h' _ E)
  end.
Defined.

(** ** Records without a fingerprint *)

Lemma getEntryKey_object (l : loc) (ps : list (string * value)) (h : heap) :
  h !! l = Some (Obj ps) ->
  getEntryKey (VRef l) h
  = (match key_of (VRef l) h with Some k => Ret k | None => Fail TypeError end, h).
Proof.
  intros Hl. unfold key_of, getEntryKey, string_field, record_keyed.
  mstep (getp_eq _ _ "id" _ Hl). mret. mstep (getp_eq _ _ "locale" _ Hl). mret.
  destruct (obj_get (Obj ps) "id") as [| | | |id|]; try reflexivity.
  destruct (obj_get (Obj ps) "locale") as [| | | |locale|]; reflexivity.
Qed.

Lemma keyBy_unkeyed (h : heap) (data : list value) (e : value) :
  Forall (fun e => exists l ps, e = VRef l /\ h !! l = Some (Obj ps)) data ->
  In e data ->
  key_of e h = None ->
  forall acc,
    foldM (fun entriesIndex entry =>
             key <- getEntryKey entry ;; ret (assoc_set key entry entriesIndex))
          data acc h = (Fail TypeError, h).
Proof.
  intros Hdata Hin Hnone.
  induction Hdata as [|e0 data (l & ps & -> & Hl) Hdata IH]; intros acc; [destruct Hin|].
  cbn [foldM]. rewrite bind_assoc.
  destruct (key_of (VRef l) h) as [k|] eqn:Hk.
  - assert (Hrun : getEntryKey (VRef l) h = (Ret k, h))
      by (rewrite (getEntryKey_object _ _ _ Hl); now rewrite Hk).
    rewrite (bind_eq _ _ _ _ _ Hrun). mret.
    destruct Hin as [<-|Hin]; [congruence|]. now apply IH.
  - assert (Hrun : getEntryKey (VRef l) h = (Fail TypeError, h))
      by (rewrite (getEntryKey_object _ _ _ Hl); now rewrite Hk).
    now rewrite (bind_fail _ _ _ _ _ Hrun).
Qed.

(** When one of the incoming records (all of them objects) has no string
    under [id] or under [locale], [getElementsPromise] raises a [TypeError]
    while it indexes the records by fingerprint: the exception leaves
    [indexData] as an exception, not as a rejected promise, and the heap is
    as it was. *)
Theorem getElementsPromise_unkeyed_record_throws (a : Algolia) (data : list value)
    (contentType : option string) (w : world) (h : heap) (e : value) :
  Forall (fun e => exists l ps, e = VRef l /\ h !! l = Some (Obj ps)) data ->
  In e data ->
  key_of e h = None ->
  getElementsPromise a data contentType w h = (Fail TypeError, h)
  /\ indexData a data contentType w h = (Fail TypeError, h).
Proof.
  intros Hdata Hin Hnone.
  assert (Hkey : keyBy data h = (Fail TypeError, h)) by (eapply keyBy_unkeyed; eauto).
  assert (Hget : getElementsPromise a data contentType w h = (Fail TypeError, h)).
  { unfold getElementsPromise. now rewrite (bind_fail _ _ _ _ _ Hkey). }
  split; [exact Hget|]. unfold indexData. now rewrite (bind_fail _ _ _ _ _ Hget).
Qed.

Lemma getElementsPromise_unkeyed_record_throws_witness :
  getElementsPromise newAlgolia [VRef 0] None sample_world [Obj [("id", VStr "e1")]]
  = (Fail TypeError, [Obj [("id", VStr "e1")]])
  /\ indexData newAlgolia [VRef 0] None sample_world [Obj [("id", VStr "e1")]]
     = (Fail TypeError, [Obj [("id", VStr "e1")]]).
Proof.
  apply (getElementsPromise_unkeyed_record_throws newAlgolia [VRef 0] None sample_world
           [Obj [("id", VStr "e1")]] (VRef 0)).
  - repeat constructor. eauto.
  - now left.
  - reflexivity.
Defined.

(** ** An exception ends the loop over the content types *)

(** When the start of one content type's pipeline raises a [TypeError] (the
    observer raises it, or a record has no fingerprint), the content types
    after it are never started: the run holds the pipelines started before
    it and the log of requests is the one they left. *)
Theorem issue_all_stops_at_exception (callback : option (list value -> M unit))
    (pre post : list (string * list value)) (type : string) (entries : list value)
    (w w1 : world) (h h1 h2 : heap) (ps : list pending) :
  issue_all callback pre w h = (Ret (ps, w1), h1) ->
  length ps = length pre ->
  singleCallback_issue callback entries w1 h1 = (Fail TypeError, h2) ->
  issue_all callback (pre ++ (type, entries) :: post) w h = (Ret (ps, w1), h2).
Proof.
  revert w h ps. induction pre as [|[t0 e0] pre IH]; intros w h ps Hpre Hlen Hfail.
  - injection Hpre as <- <- <-. cbn [app issue_all]. now rewrite Hfail.
  - cbn [app issue_all] in *.
    destruct (singleCallback_issue callback e0 w h) as [[[p w']|[]] h'] eqn:E0;
      try discriminate.
    + destruct (issue_all callback pre w' h') as [[[ps' w'']|e] h''] eqn:E1;
        [|discriminate].
      injection Hpre as <- <- <-. cbn [length] in Hlen.
      now rewrite (IH w' h' ps' E1 ltac:(lia) Hfail).
    + injection Hpre as <- _ _. discriminate.
Qed.

Lemma issue_all_stops_at_exception_witness :
  issue_all None ([("page", [])] ++ ("post", [VRef 0]) :: [("author", [])])
            sample_world [Obj []]
  = (Ret ([{| p_data := []; p_index := []; p_hits := Resolved [hit_e1] |}],
          {| server := server sample_world; sent := [BrowseAll] |}), [Obj []]).
Proof.
  apply (issue_all_stops_at_exception None [("page", [])] [("author", [])] "post" [VRef 0]
           sample_world _ [Obj []] [Obj []] [Obj []]).
  - reflexivity.
  - reflexivity.
  - reflexivity.
Defined.

(** ** The diff: records that share a fingerprint *)

(** [_.keyBy] keeps, under each fingerprint, the last record that has it. *)
Lemma keyBy_last (h : heap) (before after : list value) (e : value) (k : string) :
  Forall (fun e => is_Some (key_of e h)) (before ++ e :: after) ->
  key_of e h = Some k ->
  (forall e', In e' after -> key_of e' h <> Some k) ->
  exists idx, keyBy (before ++ e :: after) h = (Ret idx, h) /\ assoc_get k idx = Some e.
Proof.
  intros Hdata Hk Hafter. apply Forall_app in Hdata as [Hb Hdata].
  apply Forall_cons in Hdata as [_ Ha].
  destruct (keyBy_fold h before Hb []) as (idx0 & Hrun0 & _).
  assert (Hgen : forall acc,
             assoc_get k acc = Some e ->
             exists idx,
               foldM (fun entriesIndex entry =>
                        key <- getEntryKey entry ;; ret (assoc_set key entry entriesIndex))
                     after acc h = (Ret idx, h)
               /\ assoc_get k idx = Some e).
  { clear Hrun0. induction Ha as [|e' after [k' Hk'] Ha IH]; intros acc Hacc.
    - exists acc. now split.
    - destruct (IH (fun x Hx => Hafter x (or_intror Hx)) (assoc_set k' e' acc))
        as (idx & Hrun & Hget).
      + rewrite assoc_get_set_other; [exact Hacc|].
        intros ->. apply (Hafter e'); [now left|exact Hk'].
      + exists idx. split; [|exact Hget].
        cbn [foldM]. mstep (getEntryKey_eq _ _ _ Hk'). mret. exact Hrun. }
  destruct (Hgen (assoc_set k e idx0) (assoc_get_set_same _ _ _)) as (idx & Hrun & Hget).
  exists idx. split; [|exact Hget].
  unfold keyBy. rewrite foldM_app. mstep Hrun0. cbn [foldM].
  mstep (getEntryKey_eq _ _ _ Hk). mret. exact Hrun.
Qed.

(** When a later incoming record, another object, has the same
    fingerprint, the earlier one is never compared with the snapshot: if it
    carries no [objectID] it is put in [created], and it is not in
    [updated], whatever the snapshot holds, also a stored record with that
    very fingerprint. *)
Theorem diff_shadowed_duplicate (before after : list value) (e : value) (l : loc)
    (contentType : option string) (hits : list IndexHit) (h : heap) (k : string) :
  Forall (fun e => is_Some (key_of e h)) (before ++ e :: after) ->
  Forall (fun x => is_Some (key_of x h)) hits ->
  In (VRef l) before ->
  key_of (VRef l) h = Some k ->
  key_of e h = Some k ->
  e <> VRef l ->
  (forall e', In e' after -> key_of e' h <> Some k) ->
  truthy (peek h (VRef l) "objectID") = false ->
  exists batch h',
    diff (before ++ e :: after) contentType hits h = (Ret batch, h')
    /\ In (VRef l) (created batch)
    /\ ~ In (VRef l) (updated batch).
Proof.
  intros Hdata Hhits Hin Hkl Hke Hne Hafter Hnoid.
  destruct (diff_outcome _ contentType hits h Hdata Hhits)
    as (idx & res & h' & Hkey & Hfrom & _ & _ & _ & _ & Hupd & Hframe & _ & Hrun).
  destruct (keyBy_last h before after e k Hdata Hke Hafter) as (idx' & Hkey' & Hget).
  rewrite Hkey in Hkey'. injection Hkey' as <-.
  assert (Hout : forall k', assoc_get k' idx <> Some (VRef l)).
  { intros k' Hk'. destruct (Hfrom _ _ Hk') as [_ Hkk].
    rewrite Hkl in Hkk. injection Hkk as <-. rewrite Hget in Hk'. congruence. }
  eexists _, h'. split; [exact Hrun|]. cbn [created updated]. split.
  - apply List.filter_In. split.
    + apply in_or_app. now left.
    + unfold peek in *. rewrite (Hframe l (fun x k' _ _ => Hout k')). now rewrite Hnoid.
  - intros Hu. destruct (Hupd _ Hu) as (x & _ & _ & k' & _ & Hk'). exact (Hout k' Hk').
Qed.

Lemma duplicate_records_keyed (l : loc) (title : string) :
  duplicate_records !! l
  = Some (Obj [("id", VStr "e1"); ("locale", VStr "en"); ("title", VStr title)]) ->
  key_of (VRef l) duplicate_records = Some (fingerprint "e1" "en").
Proof.
  intros Hl. unfold key_of.
  now rewrite (getEntryKey_record_eq l _ "e1" "en" _ Hl eq_refl eq_refl).
Qed.

Lemma diff_shadowed_duplicate_witness :
  key_of hit_e1 duplicate_records = key_of (VRef 0) duplicate_records
  /\ exists batch h',
       diff ([VRef 0] ++ VRef 1 :: []) None [hit_e1] duplicate_records = (Ret batch, h')
       /\ In (VRef 0) (created batch)
       /\ ~ In (VRef 0) (updated batch).
Proof.
  assert (Hhit : key_of hit_e1 duplicate_records = Some (fingerprint "e1" "en")).
  { unfold key_of. now rewrite getEntryKey_hit. }
  split; [now rewrite Hhit, (duplicate_records_keyed 0 "A" eq_refl)|].
  apply (diff_shadowed_duplicate [VRef 0] [] (VRef 1) 0 None [hit_e1] duplicate_records
           (fingerprint "e1" "en")).
  - repeat constructor.
    + rewrite (duplicate_records_keyed 0 "A" eq_refl). eauto.
    + rewrite (duplicate_records_keyed 1 "B" eq_refl). eauto.
  - repeat constructor. rewrite Hhit. eauto.
  - now left.
  - exact (duplicate_records_keyed 0 "A" eq_refl).
  - exact (duplicate_records_keyed 1 "B" eq_refl).
  - discriminate.
  - intros e' [].
  - reflexivity.
Defined.

(** ** Grouping the records by content type *)

Lemma group_get_add (k k' : string) (v : value) (groups : list (string * list value)) :
  group_get k (group_add k' v groups)
  = if (k' =? k)%string then group_get k groups ++ [v] else group_get k groups.
Proof.
  induction groups as [|[k0 vs] groups IH]; simpl.
  - now destruct (k' =? k)%string.
  - destruct (k0 =? k')%string eqn:E0; simpl.
    + apply String.eqb_eq in E0. subst k0. now destruct (k' =? k)%string.
    + rewrite IH. destruct (k0 =? k)%string eqn:E1; [|reflexivity].
      apply String.eqb_eq in E1. subst k0. rewrite String.eqb_sym in E0. now rewrite E0.
Qed.

Lemma group_add_keys (k k' : string) (v : value) (groups : list (string * list value)) :
  In k (map fst (group_add k' v groups)) <-> k = k' \/ In k (map fst groups).
Proof.
  induction groups as [|[k0 vs] groups IH]; simpl.
  - intuition.
  - destruct (k0 =? k')%string eqn:E0; simpl.
    + apply String.eqb_eq in E0. subst k0. intuition.
    + rewrite IH. intuition.
Qed.

Lemma group_add_NoDup (k : string) (v : value) (groups : list (string * list value)) :
  NoDup (map fst groups) -> NoDup (map fst (group_add k v groups)).
Proof.
  induction groups as [|[k0 vs] groups IH]; simpl; intros Hnd.
  - apply NoDup_singleton.
  - apply NoDup_cons in Hnd as [Hk0 Hnd].
    destruct (k0 =? k)%string eqn:E0; simpl.
    + apply NoDup_cons. now split.
    + apply NoDup_cons. split; [|now apply IH].
      rewrite list_elem_of_In, group_add_keys. intros [->|Hin].
      * now rewrite String.eqb_refl in E0.
      * apply Hk0. now apply list_elem_of_In.
Qed.

Lemma group_get_In (k : string) (vs : list value) (groups : list (string * list value)) :
  NoDup (map fst groups) -> In (k, vs) groups -> group_get k groups = vs.
Proof.
  induction groups as [|[k0 vs0] groups IH]; simpl; intros Hnd Hin; [destruct Hin|].
  apply NoDup_cons in Hnd as [Hk0 Hnd]. destruct Hin as [[= -> ->]|Hin].
  - now rewrite String.eqb_refl.
  - destruct (k0 =? k)%string eqn:E; [|now apply IH].
    apply String.eqb_eq in E. subst k0. exfalso. apply Hk0.
    apply list_elem_of_In. now apply (in_map fst) in Hin.
Qed.

Lemma property_contentType_heap (record : value) (h h' : heap) (r : outcome value) :
  property_contentType record h = (r, h') -> h' = h.
Proof.
  destruct record; try apply getp_heap; now intros [= _ <-].
Qed.

Lemma ct_key_run (h : heap) (record : value) (k : string) :
  ct_key h record = Some k ->
  (ct <- property_contentType record ;; to_key ct) h = (Ret k, h).
Proof.
  unfold ct_key.
  destruct (property_contentType record h) as [[ct|e] h1] eqn:Hg.
  - pose proof (property_contentType_heap _ _ _ _ Hg) as ->. rewrite (bind_eq _ _ _ _ _ Hg).
    destruct ct as [| |[]|n| |l]; cbn [to_key]; try (now intros [= ->]).
    + destruct (Z.abs n <? 10 ^ 21)%Z; [now intros [= ->]|discriminate].
    + unfold bind, deref. destruct (h !! l) as [[ps|es]|]; cbn; try discriminate.
      now intros [= ->].
  - now rewrite (bind_fail _ _ _ _ _ Hg).
Qed.

Lemma insert_by_index_perm (n : N) (group : string * list value)
    (sorted : list (N * (string * list value))) :
  Permutation (map snd (insert_by_index n group sorted)) (group :: map snd sorted).
Proof.
  induction sorted as [|[m group'] sorted IH]; cbn [insert_by_index map snd];
    [reflexivity|].
  destruct (n <? m)%N; cbn [map snd]; [reflexivity|].
  etransitivity; [apply perm_skip, IH|apply perm_swap].
Qed.

(** Enumeration lists every group once. *)
Lemma own_property_order_perm (groups : list (string * list value)) :
  Permutation (own_property_order groups) groups.
Proof.
  unfold own_property_order. induction groups as [|group groups IH]; [reflexivity|].
  cbn [fold_right List.filter]. destruct (array_index (fst group)) as [n|].
  - etransitivity; [apply Permutation_app_tail, insert_by_index_perm|].
    cbn [app]. now apply perm_skip.
  - etransitivity; [symmetry; apply Permutation_middle|]. now apply perm_skip.
Qed.

Lemma own_property_order_one (group : string * list value) :
  own_property_order [group] = [group].
Proof.
  unfold own_property_order. cbn [fold_right List.filter].
  now destruct (array_index (fst group)).
Qed.

Lemma has_ct_key_true (h : heap) (k : string) (r : value) :
  ct_key h r = Some k -> has_ct_key h k r = true.
Proof. intros H. unfold has_ct_key. rewrite H. apply String.eqb_refl. Qed.

Lemma groupBy_fold (h : heap) (records : list value) :
  Forall (fun r => is_Some (ct_key h r)) records ->
  forall acc,
    NoDup (map fst acc) ->
    exists groups,
      foldM (fun groups record =>
               ct <- property_contentType record ;;
               k <- to_key ct ;;
               ret (group_add k record groups)) records acc h = (Ret groups, h)
      /\ NoDup (map fst groups)
      /\ (forall k, group_get k groups
                    = group_get k acc
                      ++ List.filter (has_ct_key h k) records)
      /\ (forall k, In k (map fst groups) <->
                    In k (map fst acc) \/ exists r, In r records /\ ct_key h r = Some k).
Proof.
  induction 1 as [|r records [k Hk] Hrecords IH]; intros acc Hnd.
  - exists acc. split; [reflexivity|]. split; [exact Hnd|]. split.
    + intros k. simpl. now rewrite app_nil_r.
    + intros k. split; [now left|]. intros [H|(r & [] & _)]. exact H.
  - destruct (IH (group_add k r acc) (group_add_NoDup _ _ _ Hnd))
      as (groups & Hrun & Hnd' & Hget & Hkeys).
    exists groups. split; [|split; [exact Hnd'|split]].
    + cbn [foldM]. pose proof (ct_key_run _ _ _ Hk) as Hstep.
      rewrite bind_assoc.
      apply bind_inv in Hstep as (ct & h1 & Hg & Ht).
      pose proof (property_contentType_heap _ _ _ _ Hg) as ->.
      rewrite (bind_eq _ _ _ _ _ Hg). rewrite bind_assoc.
      rewrite (bind_eq _ _ _ _ _ Ht). mret. exact Hrun.
    + intros k'. rewrite Hget, group_get_add. cbn [List.filter].
      unfold has_ct_key at 2. rewrite Hk.
      destruct (k =? k')%string; [now rewrite <- app_assoc|reflexivity].
    + intros k'. rewrite Hkeys, group_add_keys. split.
      * intros [[->|H]|(r' & Hr' & Hk')].
        -- right. exists r. split; [now left|exact Hk].
        -- now left.
        -- right. exists r'. split; [now right|exact Hk'].
      * intros [H|(r' & [<-|Hr'] & Hk')].
        -- left. now right.
        -- left. left. congruence.
        -- right. eauto.
Qed.

(** [_.groupBy(records, 'contentType')] files every record under the string
    of its [contentType]: the keys of the result are distinct, each is the
    key of at least one record, and the group under a key holds exactly the
    records with that key, in the order they came in. The heap is not
    touched. *)
Theorem groupBy_contentType_partition (records : list value) (h : heap) :
  Forall (fun r => is_Some (ct_key h r)) records ->
  exists groups,
    groupBy_contentType records h = (Ret groups, h)
    /\ NoDup (map fst groups)
    /\ (forall k rs, In (k, rs) groups ->
                     rs <> []
                     /\ rs = List.filter (has_ct_key h k) records)
    /\ (forall r k, In r records -> ct_key h r = Some k ->
                    exists rs, In (k, rs) groups /\ In r rs).
Proof.
  intros Hrecords.
  destruct (groupBy_fold h records Hrecords [] (NoDup_nil_2))
    as (groups & Hrun & Hnd & Hget & Hkeys).
  pose proof (own_property_order_perm groups) as Hperm.
  exists (own_property_order groups).
  split; [unfold groupBy_contentType; now rewrite (bind_eq _ _ _ _ _ Hrun)|].
  split; [now rewrite Hperm|].
  assert (Hgroup : forall k rs, In (k, rs) groups ->
             rs = List.filter (has_ct_key h k) records).
  { intros k rs Hin. rewrite <- (group_get_In k rs groups Hnd Hin). apply Hget. }
  split.
  - intros k rs Hin. apply (Permutation_in _ Hperm) in Hin.
    split; [|now apply Hgroup].
    assert (Hk : In k (map fst groups)) by (now apply (in_map fst) in Hin).
    apply Hkeys in Hk as [[]|(r & Hr & Hk)].
    rewrite (Hgroup _ _ Hin). intros Hnil.
    assert (Hr' : In r (List.filter (has_ct_key h k) records)).
    { apply List.filter_In. split; [exact Hr|]. now apply has_ct_key_true. }
    rewrite Hnil in Hr'. destruct Hr'.
  - intros r k Hr Hk.
    assert (Hin : In k (map fst groups)) by (apply Hkeys; right; eauto).
    apply in_map_iff in Hin as ([k' rs] & [= ->] & Hin).
    exists rs. split; [exact (Permutation_in _ (Permutation_sym Hperm) Hin)|].
    rewrite (Hgroup _ _ Hin).
    apply List.filter_In. split; [exact Hr|]. now apply has_ct_key_true.
Qed.

Lemma groupBy_contentType_partition_witness :
  exists groups,
    groupBy_contentType [VRef 0; VRef 1] sample_records = (Ret groups, sample_records)
    /\ NoDup (map fst groups)
    /\ (forall k rs, In (k, rs) groups ->
                     rs <> []
                     /\ rs = List.filter (has_ct_key sample_records k) [VRef 0; VRef 1])
    /\ (forall r k, In r [VRef 0; VRef 1] -> ct_key sample_records r = Some k ->
                    exists rs, In (k, rs) groups /\ In r rs).
Proof.
  apply (groupBy_contentType_partition [VRef 0; VRef 1] sample_records).
  repeat constructor; vm_compute; eauto.
Defined.

(** ** Cleaning an entry: the envelope and the content-type tag *)

Lemma forM_app {A} (body : A -> M unit) (l1 l2 : list A) (h : heap) :
  forM (l1 ++ l2) body h = (forM l1 body ;;; forM l2 body) h.
Proof.
  revert h. induction l1 as [|x l1 IH]; intros h; cbn [forM app].
  - reflexivity.
  - rewrite bind_assoc. destruct (body x h) as [[[]|e] h1] eqn:E.
    + rewrite !(bind_eq _ _ _ _ _ E). apply IH.
    + now rewrite !(bind_fail _ _ _ _ _ E).
Qed.

Lemma forM_concat {A} (body : A -> M unit) (groups : list (list A)) (h : heap) :
  forM groups (fun group => forM group body) h = forM (concat groups) body h.
Proof.
  revert h. induction groups as [|g groups IH]; intros h; cbn [forM concat].
  - reflexivity.
  - rewrite forM_app. destruct (forM g body h) as [[[]|e] h1] eqn:E.
    + rewrite !(bind_eq _ _ _ _ _ E). apply IH.
    + now rewrite !(bind_fail _ _ _ _ _ E).
Qed.

Lemma assoc_get_del_other (k k' : string) (ps : list (string * value)) :
  k' <> k -> assoc_get k (assoc_del k' ps) = assoc_get k ps.
Proof.
  intros Hne. unfold assoc_del. induction ps as [|[k0 v0] ps IH]; simpl; [reflexivity|].
  destruct (k0 =? k')%string eqn:E0; simpl.
  - apply String.eqb_eq in E0. subst k0. apply String.eqb_neq in Hne. now rewrite Hne.
  - now rewrite IH.
Qed.

Lemma assoc_get_del_same (k : string) (ps : list (string * value)) :
  assoc_get k (assoc_del k ps) = None.
Proof.
  unfold assoc_del. induction ps as [|[k0 v0] ps IH]; simpl; [reflexivity|].
  destruct (k0 =? k)%string eqn:E0; simpl; [exact IH|]. now rewrite E0.
Qed.

Lemma heap_insert_id (h : heap) (l : loc) (o : object) :
  h !! l = Some o -> <[l := o]> h = h.
Proof. apply list_insert_id. Qed.

Lemma heap_insert_insert (h : heap) (l : loc) (o o' : object) :
  <[l := o]> (<[l := o']> h) = <[l := o]> h.
Proof. apply list_insert_insert_eq. Qed.

Lemma heap_lookup_insert (h : heap) (l : loc) (o o' : object) :
  h !! l = Some o' -> <[l := o]> h !! l = Some o.
Proof. intros H. apply list_lookup_insert_eq. now apply lookup_lt_Some in H. Qed.

Lemma heap_lookup_insert_ne (h : heap) (l l' : loc) (o : object) :
  l <> l' -> <[l := o]> h !! l' = h !! l'.
Proof. apply list_lookup_insert_ne. Qed.

Lemma heap_length_insert (h : heap) (l : loc) (o : object) :
  length (<[l := o]> h) = length h.
Proof. apply length_insert. Qed.

Lemma heap_lookup_old (h : heap) (o : object) (l : loc) :
  l < length h -> (h ++ [o]) !! l = h !! l.
Proof. intros H. now apply lookup_app_l. Qed.

(** The tags [_cleanEntry] writes: every locale code gets the content
    type. *)
Lemma tag_fold (contentType : value) (codes : list string) :
  forall tags code,
    (In code codes ->
     assoc_get code (fold_left (fun t c => assoc_set c contentType t) codes tags)
     = Some contentType)
    /\ (~ In code codes ->
        assoc_get code (fold_left (fun t c => assoc_set c contentType t) codes tags)
        = assoc_get code tags).
Proof.
  induction codes as [|c codes IH]; intros tags code; [split; [intros []|reflexivity]|].
  cbn [fold_left]. destruct (IH (assoc_set c contentType tags) code) as [Hin Hout]. split.
  - intros [->|H].
    + destruct (in_dec string_dec code codes) as [Hd|Hd]; [now apply Hin|].
      rewrite (Hout Hd). apply assoc_get_set_same.
    + now apply Hin.
  - intros Hn. rewrite Hout by (intros H; apply Hn; now right).
    apply assoc_get_set_other. intros ->. apply Hn. now left.
Qed.

Lemma tag_codes (ln lf lc : loc) (contentType : value) (codes : list string) :
  forall (h : heap) (pn pf tags : list (string * value)),
    h !! ln = Some (Obj pn) -> assoc_get "fields" pn = Some (VRef lf) ->
    h !! lf = Some (Obj pf) -> assoc_get "contentType" pf = Some (VRef lc) ->
    h !! lc = Some (Obj tags) -> lc <> ln -> lc <> lf ->
    forM codes (fun code =>
                  nf1 <- getp (VRef ln) "fields" ;;
                  c1 <- getp nf1 "contentType" ;;
                  setp c1 code contentType) h
    = (Ret tt,
       <[lc := Obj (fold_left (fun t c => assoc_set c contentType t) codes tags)]> h).
Proof.
  induction codes as [|c codes IH]; intros h pn pf tags Hn Hnf Hf Hfc Hc Hcn Hcf.
  - cbn [forM fold_left]. now rewrite (heap_insert_id h lc _ Hc).
  - cbn [forM fold_left].
    mstep (getp_eq _ _ "fields" _ Hn). unfold obj_get at 1. rewrite Hnf. cbn [default from_option id].
    mstep (getp_eq _ _ "contentType" _ Hf). unfold obj_get at 1. rewrite Hfc.
    cbn [default from_option id].
    mstep (setp_eq _ _ c contentType _ Hc).
    rewrite (IH _ pn pf (assoc_set c contentType tags)); auto.
    + now rewrite heap_insert_insert.
    + rewrite heap_lookup_insert_ne by exact Hcn. exact Hn.
    + rewrite heap_lookup_insert_ne by exact Hcf. exact Hf.
    + exact (heap_lookup_insert _ _ _ _ Hc).
Qed.

Lemma cleanEntry_rest_run (locales : option (list (list string))) (le ln lf : loc)
    (pe pn pf : list (string * value)) (contentType : value) (h : heap) :
  h !! le = Some (Obj pe) -> assoc_get "fields" pe = Some (VRef lf) ->
  h !! ln = Some (Obj pn) ->
  h !! lf = Some (Obj pf) -> truthy (default VUndef (assoc_get "contentType" pf)) = false ->
  ln <> lf ->
  let tagged := <[lf := Obj (assoc_set "contentType" (VRef (length h)) pf)]>
                  ((<[ln := Obj (assoc_set "fields" (VRef lf) pn)]> h) ++ [Obj []]) in
  cleanEntry_rest locales (VRef le) contentType (VRef ln) h
  = match locales with
    | None => (Fail TypeError, tagged)
    | Some groups => (Ret (VRef ln), <[length h := Obj (tag_all contentType groups)]> tagged)
    end.
Proof.
  intros Hle Hfields Hn Hf Hfalsy Hnf tagged. unfold cleanEntry_rest.
  mstep (getp_eq _ _ "fields" _ Hle). unfold obj_get at 1. rewrite Hfields.
  cbn [default from_option id].
  mstep (setp_eq _ _ "fields" (VRef lf) _ Hn).
  pose proof (heap_lookup_insert h ln (Obj (assoc_set "fields" (VRef lf) pn)) _ Hn) as Hn1.
  assert (Hf1 : <[ln := Obj (assoc_set "fields" (VRef lf) pn)]> h !! lf = Some (Obj pf))
    by (rewrite heap_lookup_insert_ne by exact Hnf; exact Hf).
  assert (Hlen : length (<[ln := Obj (assoc_set "fields" (VRef lf) pn)]> h) = length h)
    by apply length_insert.
  mstep (getp_eq _ _ "fields" _ Hn1). unfold obj_get. rewrite assoc_get_set_same.
  cbn [default from_option id typeof_object].
  mstep (getp_eq _ _ "contentType" _ Hf1). unfold obj_get. rewrite Hfalsy. cbn [negb].
  mstep (alloc_eq (Obj []) (<[ln := Obj (assoc_set "fields" (VRef lf) pn)]> h)).
  rewrite Hlen.
  mstep (setp_eq _ _ "contentType" (VRef (length h)) _ (lookup_alloc_old _ _ (Obj []) _ Hf1)).
  fold tagged.
  destruct locales as [groups|]; [|reflexivity].
  rewrite ?bind_assoc. rewrite (bind_cong _ _ _ _ (forM_concat _ groups tagged)).
  assert (Hlf : lf < length h) by (now apply lookup_lt_Some in Hf).
  assert (Hln : ln < length h) by (now apply lookup_lt_Some in Hn).
  assert (Hn3 : tagged !! ln = Some (Obj (assoc_set "fields" (VRef lf) pn))).
  { unfold tagged. rewrite heap_lookup_insert_ne by congruence.
    now apply lookup_alloc_old. }
  assert (Hf3 : tagged !! lf
                = Some (Obj (assoc_set "contentType" (VRef (length h)) pf))).
  { unfold tagged. eapply heap_lookup_insert, lookup_alloc_old, Hf1. }
  assert (Hc3 : tagged !! length h = Some (Obj [])).
  { unfold tagged. rewrite heap_lookup_insert_ne by lia.
    rewrite <- Hlen. apply lookup_alloc_new. }
  rewrite (bind_eq _ _ _ _ _
             (tag_codes ln lf (length h) contentType (concat groups) tagged _ _ []
                Hn3 (assoc_get_set_same _ _ _) Hf3 (assoc_get_set_same _ _ _) Hc3
                ltac:(lia) ltac:(lia))).
  reflexivity.
Qed.

Section CleanEntry.

Variable h : heap.
Variables le ls lct lcs lf : loc.
Variables pe psys pct pcs pf : list (string * value).

Hypothesis entry_there : h !! le = Some (Obj pe).
Hypothesis entry_sys : assoc_get "sys" pe = Some (VRef ls).
Hypothesis entry_fields : assoc_get "fields" pe = Some (VRef lf).
Hypothesis sys_there : h !! ls = Some (Obj psys).
Hypothesis sys_contentType : assoc_get "contentType" psys = Some (VRef lct).
Hypothesis contentType_there : h !! lct = Some (Obj pct).
Hypothesis contentType_sys : assoc_get "sys" pct = Some (VRef lcs).
Hypothesis contentType_sys_there : h !! lcs = Some (Obj pcs).
Hypothesis sys_apart : ls <> le.

(** [_cleanEntry] up to the point where [newEntry] is settled. *)
Lemma cleanEntry_prefix (locales : option (list (list string))) (full : bool) :
  let h3 := h ++ [Obj [("fields", VRef (S (length h)))]; Obj []] in
  let contentType := default VUndef (assoc_get "id" pcs) in
  _cleanEntry locales (VRef le) full h
  = if full
    then cleanEntry_rest locales (VRef le) contentType (VRef (length h))
           (<[le := Obj (assoc_del "sys" pe)]> h3)
    else cleanEntry_rest locales (VRef le) contentType (VRef ls)
           (<[ls := Obj (stripped psys)]> h3).
Proof.
  intros h3 contentType.
  assert (Hold : forall l o, h !! l = Some o -> h3 !! l = Some o).
  { intros l o Hl. unfold h3. rewrite lookup_app_l; [exact Hl|].
    now apply lookup_lt_Some in Hl. }
  change (_cleanEntry locales (VRef le) full h)
    with ((newEntry <- alloc (Obj []) ;;
           empty <- alloc (Obj []) ;;
           setp newEntry "fields" empty ;;;
           sys <- getp (VRef le) "sys" ;;
           r <- (if truthy sys then
                   ct <- getp sys "contentType" ;;
                   contentType <- (if truthy ct
                                   then s <- getp ct "sys" ;; getp s "id"
                                   else ret (VBool false)) ;;
                   if full then
                     delp (VRef le) "sys" ;;; ret (contentType, newEntry)
                   else
                     delp sys "space" ;;;
                     delp sys "contentType" ;;;
                     delp sys "type" ;;;
                     delp sys "revision" ;;;
                     ret (contentType, sys)
                 else ret (VBool false, newEntry)) ;;
           cleanEntry_rest locales (VRef le) (fst r) (snd r)) h).
  mstep (alloc_eq (Obj []) h). mstep (alloc_eq (Obj []) (h ++ [Obj []])).
  assert (Hl : ((h ++ [Obj []]) ++ [Obj []]) !! length h = Some (Obj [])).
  { apply lookup_alloc_old, lookup_alloc_new. }
  mstep (setp_eq _ _ "fields" (VRef (length (h ++ [Obj []]))) _ Hl).
  rewrite <- app_assoc. cbn [app]. rewrite insert_before_last, List.length_app.
  cbn [length assoc_set]. rewrite Nat.add_1_r. fold h3.
  mstep (getp_eq _ _ "sys" _ (Hold _ _ entry_there)). unfold obj_get.
  rewrite entry_sys. cbn [default from_option id truthy].
  mstep (getp_eq _ _ "contentType" _ (Hold _ _ sys_there)). unfold obj_get.
  rewrite sys_contentType. cbn [default from_option id truthy].
  mstep (getp_eq _ _ "sys" _ (Hold _ _ contentType_there)). unfold obj_get.
  rewrite contentType_sys. cbn [default from_option id].
  mstep (getp_eq _ _ "id" _ (Hold _ _ contentType_sys_there)). unfold obj_get.
  fold contentType.
  destruct full.
  - mstep (delp_eq _ _ "sys" _ (Hold _ _ entry_there)). mret. reflexivity.
  - pose proof (Hold _ _ sys_there) as Hs.
    mstep (delp_eq _ _ "space" _ Hs).
    mstep (delp_eq _ _ "contentType" _
             (heap_lookup_insert h3 ls (Obj (assoc_del "space" psys)) _ Hs)).
    rewrite heap_insert_insert.
    mstep (delp_eq _ _ "type" _
             (heap_lookup_insert h3 ls
                (Obj (assoc_del "contentType" (assoc_del "space" psys))) _ Hs)).
    rewrite heap_insert_insert.
    mstep (delp_eq _ _ "revision" _
             (heap_lookup_insert h3 ls
                (Obj (assoc_del "type" (assoc_del "contentType" (assoc_del "space" psys))))
                _ Hs)).
    rewrite heap_insert_insert. mret. reflexivity.
Qed.

End CleanEntry.

Lemma lookup_alloc_two (h : heap) (a b o : object) (l : loc) :
  h !! l = Some o -> (h ++ [a; b]) !! l = Some o.
Proof. intros H. rewrite lookup_app_l; [exact H|]. now apply lookup_lt_Some in H. Qed.

Lemma peek_eq (h : heap) (l : loc) (o : object) (k : string) :
  h !! l = Some o -> peek h (VRef l) k = obj_get o k.
Proof. intros H. unfold peek. now rewrite H. Qed.

Lemma stripped_get (k : string) (sys : list (string * value)) :
  assoc_get k (stripped sys)
  = if existsb (String.eqb k) ["space"; "contentType"; "type"; "revision"]
    then None else assoc_get k sys.
Proof.
  unfold stripped. cbn [existsb].
  destruct (k =? "revision")%string eqn:E1.
  { apply String.eqb_eq in E1. subst k. now rewrite assoc_get_del_same. }
  apply String.eqb_neq in E1. rewrite assoc_get_del_other by congruence.
  destruct (k =? "type")%string eqn:E2.
  { apply String.eqb_eq in E2. subst k. now rewrite assoc_get_del_same. }
  apply String.eqb_neq in E2. rewrite assoc_get_del_other by congruence.
  destruct (k =? "contentType")%string eqn:E3.
  { apply String.eqb_eq in E3. subst k. now rewrite assoc_get_del_same. }
  apply String.eqb_neq in E3. rewrite assoc_get_del_other by congruence.
  destruct (k =? "space")%string eqn:E4.
  { apply String.eqb_eq in E4. subst k. now rewrite assoc_get_del_same. }
  apply String.eqb_neq in E4. now rewrite assoc_get_del_other by congruence.
Qed.

(** ** Flattening without a locale configuration raises *)

(** With no locale configuration, flattening an entry as the source
    repository delivers it (an envelope that names the content type, and
    fields without a [contentType]) raises a [TypeError]: [_cleanEntry] asks
    the missing configuration for its groups before [_getLocalizedEntries]
    gets to the test that was meant for this case. *)
Theorem flatten_without_configuration_raises (fuel : nat) (le ls lct lcs lf : loc)
    (pe psys pct pcs pf : list (string * value)) (h : heap) :
  h !! le = Some (Obj pe) ->
  assoc_get "sys" pe = Some (VRef ls) ->
  assoc_get "fields" pe = Some (VRef lf) ->
  h !! ls = Some (Obj psys) ->
  assoc_get "contentType" psys = Some (VRef lct) ->
  h !! lct = Some (Obj pct) ->
  assoc_get "sys" pct = Some (VRef lcs) ->
  h !! lcs = Some (Obj pcs) ->
  h !! lf = Some (Obj pf) ->
  truthy (default VUndef (assoc_get "contentType" pf)) = false ->
  ls <> le -> ls <> lf ->
  fst (_cleanEntry None (VRef le) false h) = Fail TypeError
  /\ fst (_getLocalizedEntries None fuel (VRef le) h) = Fail TypeError.
Proof.
  intros Hle Hsys Hfields Hls Hct Hlct Hcts Hlcs Hlf Hfalsy Hse Hsf.
  assert (Hclean : exists h', _cleanEntry None (VRef le) false h = (Fail TypeError, h')).
  { rewrite (cleanEntry_prefix h le ls lct lcs pe psys pct pcs Hle Hsys Hls Hct Hlct Hcts Hlcs
               None false).
    cbv zeta.
    pose proof (lookup_lt_Some _ _ _ Hle) as Hle'.
    pose proof (lookup_lt_Some _ _ _ Hls) as Hls'.
    pose proof (lookup_lt_Some _ _ _ Hlf) as Hlf'.
    erewrite (cleanEntry_rest_run None le ls lf pe (stripped psys) pf); eauto.
    - rewrite heap_lookup_insert_ne by exact Hse. now apply lookup_alloc_two.
    - eapply heap_lookup_insert. apply lookup_alloc_two, Hls.
    - rewrite heap_lookup_insert_ne by exact Hsf. now apply lookup_alloc_two. }
  destruct Hclean as [h' Hclean]. split; [now rewrite Hclean|].
  unfold _getLocalizedEntries. now rewrite (bind_fail _ _ _ _ _ Hclean).
Qed.

Lemma flatten_without_configuration_raises_witness :
  fst (_cleanEntry None (VRef 0) false two_locale_entry) = Fail TypeError
  /\ fst (_getLocalizedEntries None 10 (VRef 0) two_locale_entry) = Fail TypeError.
Proof.
  apply (flatten_without_configuration_raises 10 0 1 2 3 4
           [("sys", VRef 1); ("fields", VRef 4)]
           [("id", VStr "e1"); ("type", VStr "Entry"); ("contentType", VRef 2);
            ("revision", VNum 1)]
           [("sys", VRef 3)] [("id", VStr "page")] [("title", VRef 5)]
           two_locale_entry); reflexivity || discriminate.
Defined.

(** ** Fields without arrays *)

Lemma getFields_no_arrays (locales : option (list (list string))) (fuel : nat)
    (lf : loc) (fs : list (string * value)) (locale : list string) (h : heap) :
  h !! lf = Some (Obj fs) ->
  (forall k l, assoc_get k fs = Some (VRef l) -> exists ps, h !! l = Some (Obj ps)) ->
  _getFields locales (S fuel) (VRef lf) locale h = (Ret (VRef lf), h).
Proof.
  intros Hlf Hfs. cbn [_getFields]. unfold for_in.
  mstep (keys_of_eq _ _ _ Hlf).
  assert (Hloop : forall keys,
             forM keys (fun key =>
                          present <- has_key (VRef lf) key ;;
                          if present : bool
                          then _getFieldEntry locales (_getFields locales fuel) fuel
                                 (VRef lf) key locale ;;; ret tt
                          else ret tt) h = (Ret tt, h)).
  { induction keys as [|key keys IH]; [reflexivity|].
    cbn [forM]. mstep (has_key_eq _ _ key _ Hlf).
    destruct (obj_has (Obj fs) key); [|now mret].
    unfold _getFieldEntry. mstep (getp_eq _ _ key _ Hlf). unfold obj_get.
    destruct (assoc_get key fs) as [v|] eqn:Hv; cbn [default from_option id];
      [|cbn [truthy negb]; mret; now mret].
    destruct (truthy v) eqn:Ht; cbn [negb]; [|mret; now mret].
    destruct v as [| |b|n|s|l]; try discriminate;
      try (unfold is_array; mret; mret; now mret).
    destruct (Hfs key l Hv) as [ps Hl].
    mstep (is_array_eq _ _ _ Hl). mret. now mret. }
  mstep (Hloop (obj_keys (Obj fs))). reflexivity.
Qed.

(** [_getFields] only acts on fields that hold an array: on a fields object
    whose values are scalars or plain objects it returns the object it was
    given and changes nothing. *)
Theorem getFields_without_arrays (locales : option (list (list string))) (fuel : nat)
    (lf : loc) (fs : list (string * value)) (locale : list string) (h : heap) :
  h !! lf = Some (Obj fs) ->
  (forall k l, In (k, VRef l) fs -> exists ps, h !! l = Some (Obj ps)) ->
  _getFields locales (S fuel) (VRef lf) locale h = (Ret (VRef lf), h).
Proof.
  intros Hlf Hfs. apply (getFields_no_arrays locales fuel lf fs); [exact Hlf|].
  intros k l Hk. exact (Hfs k l (assoc_get_In _ _ _ Hk)).
Qed.

Lemma getFields_without_arrays_witness :
  _getFields (Some [["en"]]) 1 (VRef 0) ["en"]
    [Obj [("title", VStr "A"); ("author", VRef 1); ("count", VNum 0)]; Obj [("sys", VRef 1)]]
  = (Ret (VRef 0),
     [Obj [("title", VStr "A"); ("author", VRef 1); ("count", VNum 0)]; Obj [("sys", VRef 1)]]).
Proof.
  apply (getFields_without_arrays (Some [["en"]]) 0 0
           [("title", VStr "A"); ("author", VRef 1); ("count", VNum 0)]).
  - reflexivity.
  - intros k l [H|[H|[H|[]]]]; try discriminate. injection H as _ <-. eauto.
Defined.

(** ** Localizing nested objects *)

Lemma cleanLocales_loop (le : loc) (pe : list (string * value)) (locale : list string)
    (h : heap) (keys : list string) :
  h !! le = Some (Obj pe) ->
  (forall k v, In k keys -> assoc_get k pe = Some v ->
               v <> VNull
               /\ forall l, v = VRef l ->
                            exists o, h !! l = Some o /\ truthy (obj_get o "fields") = false) ->
  forM keys (fun key =>
               present <- has_key (VRef le) key ;;
               if present : bool
               then v <- getp (VRef le) key ;;
                    if typeof_object v then
                      f <- getp v "fields" ;;
                      if truthy f then
                        r <- _getFieldsForLocale f locale ;; setp (VRef le) key r
                      else ret tt
                    else ret tt
               else ret tt) h = (Ret tt, h).
Proof.
  intros Hle. induction keys as [|key keys IH]; intros Hpe; [reflexivity|].
  cbn [forM]. mstep (has_key_eq _ _ key _ Hle).
  assert (IH' : forM keys (fun key =>
               present <- has_key (VRef le) key ;;
               if present : bool
               then v <- getp (VRef le) key ;;
                    if typeof_object v then
                      f <- getp v "fields" ;;
                      if truthy f then
                        r <- _getFieldsForLocale f locale ;; setp (VRef le) key r
                      else ret tt
                    else ret tt
               else ret tt) h = (Ret tt, h)).
  { apply IH. intros k v Hk. apply Hpe. now right. }
  destruct (obj_has (Obj pe) key); [|now mret].
  mstep (getp_eq _ _ key _ Hle). unfold obj_get.
  destruct (assoc_get key pe) as [v|] eqn:Hv; cbn [default from_option id];
    [|cbn [typeof_object]; now mret].
  destruct (Hpe key v (or_introl eq_refl) Hv) as [Hnull Href].
  destruct v as [| |b|n|s|l]; cbn [typeof_object]; try (now mret); [congruence|].
  destruct (Href l eq_refl) as (o & Hl & Hf).
  mstep (getp_eq _ _ "fields" _ Hl). rewrite Hf. now mret.
Qed.

(** [_cleanLocales] replaces only properties that are objects with a truthy
    [fields]: on a record whose properties are scalars, arrays or objects
    without [fields], none of them [null], it returns the record and
    changes nothing. *)
Theorem cleanLocales_unchanged (le : loc) (pe : list (string * value))
    (locale : list string) (h : heap) :
  h !! le = Some (Obj pe) ->
  (forall k v, In (k, v) pe ->
               v <> VNull
               /\ forall l, v = VRef l ->
                            exists o, h !! l = Some o /\ truthy (obj_get o "fields") = false) ->
  _cleanLocales (VRef le) locale h = (Ret (VRef le), h).
Proof.
  intros Hle Hpe. unfold _cleanLocales, for_in.
  mstep (keys_of_eq _ _ _ Hle).
  rewrite (bind_eq _ _ _ _ _ (cleanLocales_loop le pe locale h _ Hle
                                (fun k v _ Hv => Hpe k v (assoc_get_In _ _ _ Hv)))).
  reflexivity.
Qed.

Lemma cleanLocales_unchanged_witness :
  _cleanLocales (VRef 0) ["en"]
    [Obj [("id", VStr "e1"); ("author", VRef 1); ("tags", VRef 2)];
     Obj [("sys", VRef 1)]; Arr [VStr "a"]]
  = (Ret (VRef 0),
     [Obj [("id", VStr "e1"); ("author", VRef 1); ("tags", VRef 2)];
      Obj [("sys", VRef 1)]; Arr [VStr "a"]]).
Proof.
  apply (cleanLocales_unchanged 0 [("id", VStr "e1"); ("author", VRef 1); ("tags", VRef 2)]).
  - reflexivity.
  - intros k v [H|[H|[H|[]]]]; injection H as <- <-; (split; [discriminate|]);
      intros l [= <-]; eexists; split; reflexivity.
Defined.

(** A property that is [null] makes [_cleanLocales] raise a [TypeError]
    ([typeof null] is ['object'], and [null.fields] is read); the
    properties before it have been gone through, and the heap is as it
    was. *)
Theorem cleanLocales_null_property_raises (le : loc) (before after : list (string * value))
    (key : string) (locale : list string) (h : heap) :
  h !! le = Some (Obj (before ++ (key, VNull) :: after)) ->
  ~ In key (map fst before) ->
  (forall k v, In (k, v) before ->
               v <> VNull
               /\ forall l, v = VRef l ->
                            exists o, h !! l = Some o /\ truthy (obj_get o "fields") = false) ->
  _cleanLocales (VRef le) locale h = (Fail TypeError, h).
Proof.
  intros Hle Hkey Hbefore. unfold _cleanLocales, for_in.
  mstep (keys_of_eq _ _ _ Hle). cbn [obj_keys]. rewrite map_app. cbn [map fst].
  assert (Hget : forall k, In k (map fst before) ->
             assoc_get k (before ++ (key, VNull) :: after) = assoc_get k before).
  { clear. induction before as [|[k0 v0] before IH]; intros k; simpl; [tauto|].
    intros [->|H]; [now rewrite String.eqb_refl|].
    destruct (k0 =? k)%string; [reflexivity|now apply IH]. }
  assert (Hnull : assoc_get key (before ++ (key, VNull) :: after) = Some VNull).
  { clear - Hkey. induction before as [|[k0 v0] before IH]; simpl.
    - now rewrite String.eqb_refl.
    - simpl in Hkey. destruct (k0 =? key)%string eqn:E.
      + apply String.eqb_eq in E. tauto.
      + apply IH. tauto. }
  rewrite (bind_cong _ _ _ _ (forM_app _ _ _ _)). rewrite bind_assoc.
  rewrite (bind_eq _ _ _ _ _ (cleanLocales_loop le _ locale h (map fst before) Hle
             (fun k v Hk Hv =>
                Hbefore k v (assoc_get_In _ _ _ (eq_trans (eq_sym (Hget k Hk)) Hv))))).
  cbn [forM]. rewrite ?bind_assoc.
  rewrite (bind_eq _ _ _ _ _ (has_key_eq _ _ key _ Hle)).
  assert (Hhas : obj_has (Obj (before ++ (key, VNull) :: after)) key = true).
  { simpl. apply bool_decide_eq_true. rewrite Hnull. eauto. }
  rewrite Hhas. mstep (getp_eq _ _ key _ Hle). unfold obj_get. rewrite Hnull.
  reflexivity.
Qed.

Lemma cleanLocales_null_property_raises_witness :
  _cleanLocales (VRef 0) ["en"] [Obj ([("id", VStr "e1")] ++ ("image", VNull) :: [])]
  = (Fail TypeError, [Obj ([("id", VStr "e1")] ++ ("image", VNull) :: [])]).
Proof.
  apply (cleanLocales_null_property_raises 0 [("id", VStr "e1")] [] "image" ["en"]).
  - reflexivity.
  - simpl. intuition discriminate.
  - intros k v [H|[]]. injection H as <- <-. split; [discriminate|]. intros l. discriminate.
Defined.

(** ** Merging resolved fields into the envelope *)

Lemma strict_eq_scalar (a b : value) :
  isObject b = false -> strict_eq a b = true -> a = b.
Proof.
  destruct a as [| |x|x|x|x], b as [| |y|y|y|y]; simpl; try discriminate; try reflexivity.
  - intros _ H. now apply Bool.eqb_prop in H as ->.
  - intros _ H. now apply Z.eqb_eq in H as ->.
  - intros _ H. now apply String.eqb_eq in H as ->.
Qed.

Lemma merge_flat_loop (le : loc) (pm : list (string * value)) (h : heap)
    (body : string -> M unit) (o : object) :
  h !! le = Some o ->
  (forall k v, assoc_get k pm = Some v -> isObject v = false) ->
  (forall key ps,
      body key (<[le := Obj ps]> h)
      = assignMergeValue (VRef le) key (default VUndef (assoc_get key pm))
                         (<[le := Obj ps]> h)) ->
  forall (keys : list string) (ps : list (string * value)),
  exists ps',
    forM keys body (<[le := Obj ps]> h) = (Ret tt, <[le := Obj ps']> h)
    /\ (forall k, In k keys ->
                  is_undefined (default VUndef (assoc_get k pm)) = false ->
                  default VUndef (assoc_get k ps') = default VUndef (assoc_get k pm))
    /\ (forall k, ~ In k keys \/ is_undefined (default VUndef (assoc_get k pm)) = true ->
                  default VUndef (assoc_get k ps') = default VUndef (assoc_get k ps)).
Proof.
  intros Hle Hpm Hbody. induction keys as [|key keys IH]; intros ps.
  - exists ps. split; [reflexivity|]. split; [intros k []|reflexivity].
  - set (v := default VUndef (assoc_get key pm)).
    assert (Hv : isObject v = false).
    { unfold v. destruct (assoc_get key pm) as [x|] eqn:Hx; [|reflexivity].
      exact (Hpm _ _ Hx). }
    pose proof (heap_lookup_insert h le (Obj ps) o Hle) as Hps.
    set (c := (negb (is_undefined v) && negb (strict_eq (default VUndef (assoc_get key ps)) v))
              || (is_undefined v && negb (obj_has (Obj ps) key))).
    set (ps1 := if c then assoc_set key v ps else ps).
    assert (Hstep : body key (<[le := Obj ps]> h) = (Ret tt, <[le := Obj ps1]> h)).
    { rewrite Hbody. fold v. unfold assignMergeValue.
      mstep (getp_eq _ _ key _ Hps). mstep (has_key_eq _ _ key _ Hps).
      unfold obj_get. fold c. unfold ps1. destruct c.
      - rewrite (setp_eq _ _ key v _ Hps). now rewrite heap_insert_insert.
      - reflexivity. }
    destruct (IH ps1) as (ps' & Hrun & Hin & Hout).
    exists ps'. split; [cbn [forM]; now mstep Hstep|].
    assert (Hhead : is_undefined v = false ->
                    default VUndef (assoc_get key ps1) = v).
    { intros Hd. unfold ps1, c. rewrite Hd. cbn [negb andb orb].
      rewrite orb_false_r.
      destruct (strict_eq (default VUndef (assoc_get key ps)) v) eqn:E; cbn [negb].
      - now apply strict_eq_scalar.
      - now rewrite assoc_get_set_same. }
    assert (Hother : forall k, k <> key ->
                       default VUndef (assoc_get k ps1) = default VUndef (assoc_get k ps)).
    { intros k Hk. unfold ps1. destruct c; [|reflexivity].
      now rewrite assoc_get_set_other by congruence. }
    assert (Hundef : is_undefined v = true ->
                     default VUndef (assoc_get key ps1) = default VUndef (assoc_get key ps)).
    { intros Hd. unfold ps1, c. rewrite Hd. cbn [negb andb orb].
      destruct (obj_has (Obj ps) key) eqn:E; cbn [negb]; [reflexivity|].
      rewrite assoc_get_set_same. simpl in E. apply bool_decide_eq_false in E.
      destruct (assoc_get key ps) as [x|]; [exfalso; apply E; eauto|].
      destruct v; try discriminate. reflexivity. }
    split.
    + intros k [<-|Hk] Hd.
      * destruct (in_dec string_dec key keys) as [Hd'|Hd']; [now apply Hin|].
        rewrite Hout by now left. now apply Hhead.
      * now apply Hin.
    + intros k Hk. destruct (string_dec k key) as [->|Hne].
      * destruct Hk as [Hk|Hk]; [exfalso; apply Hk; now left|].
        rewrite Hout by now right. now apply Hundef.
      * rewrite Hout; [now apply Hother|].
        destruct Hk as [Hk|Hk]; [left; intros H; apply Hk; now right|now right].
Qed.

Lemma mergeFields_flat (fuel : nat) (le lm : loc)
    (pe pm : list (string * value)) (h : heap) :
  h !! le = Some (Obj pe) ->
  h !! lm = Some (Obj pm) ->
  le <> lm ->
  (forall k v, assoc_get k pm = Some v -> isObject v = false) ->
  exists ps,
    _mergeFields (S fuel) (VRef le) (VRef lm) h = (Ret (VRef le), <[le := Obj ps]> h)
    /\ assoc_get "fields" ps = None
    /\ (forall k, k <> "fields" ->
                  default VUndef (assoc_get k ps)
                  = if is_undefined (default VUndef (assoc_get k pm))
                    then default VUndef (assoc_get k pe)
                    else default VUndef (assoc_get k pm)).
Proof.
  intros Hle Hlm Hne Hpm.
  set (body := fun key : string =>
         srcValue <- getp (VRef lm) key ;;
         if isObject srcValue then
           objValue <- getp (VRef le) key ;;
           match stack_get srcValue [] with
           | Some stacked => assignMergeValue (VRef le) key stacked
           | None =>
               src <- deref srcValue ;;
               newValue <-
                 match src with
                 | Arr _ =>
                     arr <- is_array objValue ;;
                     if arr : bool then ret objValue else alloc (Arr [])
                 | Obj _ =>
                     if isObject objValue then ret objValue else alloc (Obj [])
                 end ;;
               baseMerge fuel newValue srcValue [(srcValue, newValue)] ;;;
               assignMergeValue (VRef le) key newValue
           end
         else assignMergeValue (VRef le) key srcValue).
  assert (Hbody : forall key ps,
             body key (<[le := Obj ps]> h)
             = assignMergeValue (VRef le) key (default VUndef (assoc_get key pm))
                                (<[le := Obj ps]> h)).
  { intros key ps. unfold body.
    assert (Hm : <[le := Obj ps]> h !! lm = Some (Obj pm))
      by (rewrite heap_lookup_insert_ne by exact Hne; exact Hlm).
    mstep (getp_eq _ _ key _ Hm). unfold obj_get.
    destruct (assoc_get key pm) as [x|] eqn:Hx; [|reflexivity].
    cbn [default from_option id]. now rewrite (Hpm _ _ Hx). }
  destruct (merge_flat_loop le pm h body _ Hle Hpm Hbody (map fst pm) pe)
    as (ps & Hrun & Hin & Hout).
  rewrite (heap_insert_id h le _ Hle) in Hrun.
  exists (assoc_del "fields" ps). split; [|split].
  - unfold _mergeFields. cbn [is_undefined]. mret. mret. unfold merge. mret.
    cbn [truthy baseMerge strict_eq].
    assert (Hneq : (le =? lm)%nat = false) by now apply Nat.eqb_neq.
    rewrite Hneq. mstep (keys_of_eq _ _ _ Hlm). cbn [obj_keys].
    fold body. mstep Hrun. mret.
    mstep (delp_eq _ _ "fields" _ (heap_lookup_insert h le (Obj ps) _ Hle)).
    now rewrite heap_insert_insert.
  - apply assoc_get_del_same.
  - intros k Hk. rewrite assoc_get_del_other by congruence.
    destruct (is_undefined (default VUndef (assoc_get k pm))) eqn:Hd.
    + apply Hout. now right.
    + destruct (in_dec string_dec k (map fst pm)) as [Hi|Hi]; [now apply Hin|].
      exfalso. destruct (assoc_get k pm) as [x|] eqn:Hx; [|discriminate].
      apply Hi. apply assoc_get_In in Hx. now apply (in_map fst) in Hx.
Qed.

(** Merged into the envelope, resolved fields that are scalars override
    the envelope's properties of the same name (a field called [id]
    replaces the entry's id), a field that is [undefined] leaves the
    envelope's property as it is, and [fields] is gone; the result is the
    envelope object itself, and no other object changes. *)
Theorem mergeFields_flat_override (fuel : nat) (le lm : loc)
    (pe pm : list (string * value)) (h : heap) :
  h !! le = Some (Obj pe) ->
  h !! lm = Some (Obj pm) ->
  le <> lm ->
  (forall k v, In (k, v) pm -> isObject v = false) ->
  exists ps,
    _mergeFields (S fuel) (VRef le) (VRef lm) h = (Ret (VRef le), <[le := Obj ps]> h)
    /\ assoc_get "fields" ps = None
    /\ (forall k, k <> "fields" ->
                  default VUndef (assoc_get k ps)
                  = if is_undefined (default VUndef (assoc_get k pm))
                    then default VUndef (assoc_get k pe)
                    else default VUndef (assoc_get k pm)).
Proof.
  intros Hle Hlm Hne Hpm. apply mergeFields_flat; auto.
  intros k v Hk. exact (Hpm k v (assoc_get_In _ _ _ Hk)).
Qed.

Lemma mergeFields_flat_override_witness :
  exists ps,
    _mergeFields 1 (VRef 0) (VRef 1)
      [Obj [("id", VStr "e1"); ("fields", VRef 2)];
       Obj [("title", VStr "A"); ("id", VStr "mine"); ("teaser", VUndef)]; Obj []]
    = (Ret (VRef 0),
       <[0 := Obj ps]>
         [Obj [("id", VStr "e1"); ("fields", VRef 2)];
          Obj [("title", VStr "A"); ("id", VStr "mine"); ("teaser", VUndef)]; Obj []])
    /\ assoc_get "fields" ps = None
    /\ default VUndef (assoc_get "id" ps) = VStr "mine".
Proof.
  destruct (mergeFields_flat_override 0 0 1 [("id", VStr "e1"); ("fields", VRef 2)]
              [("title", VStr "A"); ("id", VStr "mine"); ("teaser", VUndef)]
              [Obj [("id", VStr "e1"); ("fields", VRef 2)];
               Obj [("title", VStr "A"); ("id", VStr "mine"); ("teaser", VUndef)]; Obj []])
    as (ps & Hrun & Hfields & Hget).
  - reflexivity.
  - reflexivity.
  - discriminate.
  - intros k v [H|[H|[H|[]]]]; injection H as <- <-; reflexivity.
  - exists ps. split; [exact Hrun|]. split; [exact Hfields|].
    rewrite Hget by discriminate. reflexivity.
Defined.

(** ** Flattening a regular entry *)

Lemma scalars_harmless (h : heap) (ps : list (string * value)) :
  (forall k v, assoc_get k ps = Some v -> isObject v = false /\ v <> VNull) ->
  forall (keys : list string) (k : string) (v : value),
    In k keys -> assoc_get k ps = Some v ->
    v <> VNull
    /\ forall l, v = VRef l ->
                 exists o, h !! l = Some o /\ truthy (obj_get o "fields") = false.
Proof.
  intros Hinv keys k v _ Hv. destruct (Hinv k v Hv) as [Hobj Hnull].
  split; [exact Hnull|]. intros l ->. discriminate.
Qed.

(** One turn of the loop of [_getLocalizedEntries], from the resolved
    fields on: they are merged into the record, and that is all. *)
Lemma flatten_step_tail (locales : option (list (list string))) (fuel : nat)
    (ls m : loc) (g : list string) (acc : list value) (ps rs : list (string * value))
    (hh : heap) :
  hh !! ls = Some (Obj ps) ->
  hh !! m = Some (Obj rs) ->
  ls <> m ->
  (forall k v, assoc_get k rs = Some v -> isObject v = false /\ v <> VNull) ->
  (forall k v, k <> "fields" -> assoc_get k ps = Some v -> isObject v = false /\ v <> VNull) ->
  exists ps',
    (fields <- _getFields locales (S fuel) (VRef m) g ;;
     newEntry <- _mergeFields (S fuel) (VRef ls) fields ;;
     delp newEntry "fields" ;;;
     newEntry <- _cleanMore locales (S fuel) newEntry g None ;;
     newEntry <- _cleanLocales newEntry g ;;
     ret (acc ++ [newEntry])) hh
    = (Ret (acc ++ [VRef ls]), (<[ls := Obj ps']> hh) ++ [Obj []])
    /\ assoc_get "fields" ps' = None
    /\ (forall k, k <> "fields" ->
                  default VUndef (assoc_get k ps')
                  = if is_undefined (default VUndef (assoc_get k rs))
                    then default VUndef (assoc_get k ps)
                    else default VUndef (assoc_get k rs))
    /\ (forall k v, assoc_get k ps' = Some v -> isObject v = false /\ v <> VNull).
Proof.
  intros Hls Hm Hne Hrs Hps.
  assert (Hnoref : forall k l, assoc_get k rs = Some (VRef l) ->
                              exists x, hh !! l = Some (Obj x)).
  { intros k l Hin. now destruct (Hrs _ _ Hin) as [? _]. }
  destruct (mergeFields_flat fuel ls m ps rs hh Hls Hm Hne (fun k v H => proj1 (Hrs k v H)))
    as (ps3 & Hmerge & Hnof & Hget).
  set (ps4 := assoc_del "fields" ps3).
  assert (Hget4 : forall k, k <> "fields" ->
             default VUndef (assoc_get k ps4)
             = if is_undefined (default VUndef (assoc_get k rs))
               then default VUndef (assoc_get k ps)
               else default VUndef (assoc_get k rs)).
  { intros k Hk. unfold ps4. rewrite assoc_get_del_other by congruence. now apply Hget. }
  assert (Hinv : forall k v, assoc_get k ps4 = Some v -> isObject v = false /\ v <> VNull).
  { intros k v Hv.
    assert (Hk : k <> "fields").
    { intros ->. unfold ps4 in Hv. now rewrite assoc_get_del_same in Hv. }
    pose proof (Hget4 k Hk) as Heq. rewrite Hv in Heq. cbn [default from_option id] in Heq.
    destruct (assoc_get k rs) as [x|] eqn:Hx; cbn [default from_option id] in Heq.
    - destruct (is_undefined x) eqn:Hu.
      + destruct (assoc_get k ps) as [y|] eqn:Hy; cbn [default from_option id] in Heq.
        * subst y. exact (Hps k v Hk Hy).
        * subst v. split; [reflexivity|discriminate].
      + subst x. exact (Hrs _ _ Hx).
    - cbn [is_undefined] in Heq.
      destruct (assoc_get k ps) as [y|] eqn:Hy; cbn [default from_option id] in Heq.
      + subst y. exact (Hps k v Hk Hy).
      + subst v. split; [reflexivity|discriminate]. }
  exists ps4. split; [|split; [apply assoc_get_del_same|split; [exact Hget4|exact Hinv]]].
  mstep (getFields_no_arrays locales fuel m rs g hh Hm Hnoref).
  mstep Hmerge.
  mstep (delp_eq _ _ "fields" _ (heap_lookup_insert hh ls (Obj ps3) _ Hls)).
  rewrite heap_insert_insert. fold ps4.
  rewrite ?bind_assoc.
  rewrite (bind_eq _ _ _ _ _
             (cleanMore_returns_early locales fuel (VRef ls) g None (<[ls := Obj ps4]> hh)
                ltac:(unfold indexOf; simpl; lia))).
  assert (Hls4 : (<[ls := Obj ps4]> hh ++ [Obj []]) !! ls = Some (Obj ps4)).
  { apply lookup_alloc_old. exact (heap_lookup_insert hh ls (Obj ps4) _ Hls). }
  assert (Hclean : _cleanLocales (VRef ls) g (<[ls := Obj ps4]> hh ++ [Obj []])
                   = (Ret (VRef ls), <[ls := Obj ps4]> hh ++ [Obj []])).
  { unfold _cleanLocales, for_in. mstep (keys_of_eq _ _ _ Hls4).
    rewrite (bind_eq _ _ _ _ _
               (cleanLocales_loop ls ps4 g _ (obj_keys (Obj ps4)) Hls4
                  (scalars_harmless _ ps4 Hinv _))).
    reflexivity. }
  mstep Hclean. reflexivity.
Qed.

(** A step whose first action is known up to computation. *)
Ltac mstep_conv H := etransitivity; [apply bind_eq; exact H|]; cbv beta.

(** A later turn of the loop: the entry's [fields] are gone by then, so
    all the turn does is to write the group's first code over [locale]. *)
Lemma flatten_later_group (locales : option (list (list string))) (fuel : nat)
    (ls : loc) (g : list string) (acc : list value) (ps : list (string * value))
    (hh : heap) :
  hh !! ls = Some (Obj ps) ->
  assoc_get "fields" ps = None ->
  (forall k v, assoc_get k ps = Some v -> isObject v = false /\ v <> VNull) ->
  exists ps' hh',
    (fields <- getp (VRef ls) "fields" ;;
     fields <- _getFieldsForLocale fields g ;;
     fields <- _getFields locales (S fuel) fields g ;;
     newEntry <- _mergeFields (S fuel) (VRef ls) fields ;;
     delp newEntry "fields" ;;;
     newEntry <- _cleanMore locales (S fuel) newEntry g None ;;
     newEntry <- _cleanLocales newEntry g ;;
     ret (acc ++ [newEntry])) hh
    = (Ret (acc ++ [VRef ls]), hh')
    /\ hh' !! ls = Some (Obj ps')
    /\ assoc_get "fields" ps' = None
    /\ (forall k v, assoc_get k ps' = Some v -> isObject v = false /\ v <> VNull)
    /\ (forall k, k <> "locale" ->
                  default VUndef (assoc_get k ps') = default VUndef (assoc_get k ps))
    /\ default VUndef (assoc_get "locale" ps')
       = match g with
         | c :: _ => VStr c
         | [] => default VUndef (assoc_get "locale" ps)
         end.
Proof.
  intros Hls Hnof Hinv.
  set (hd := match g with c :: _ => VStr c | [] => VUndef end).
  set (rs := [("locale", hd)]).
  pose proof (lookup_lt_Some _ _ _ Hls) as Hlt.
  assert (Hres : _getFieldsForLocale VUndef g hh = (Ret (VRef (length hh)), hh ++ [Obj rs])).
  { unfold _getFieldsForLocale. mstep (alloc_eq (Obj []) hh).
    unfold for_in. cbn [keys_of]. mret. cbn [forM]. mret.
    mstep (setp_eq _ _ "locale" hd _ (lookup_alloc_new hh (Obj []))).
    now rewrite insert_last. }
  assert (Hrs : forall k v, assoc_get k rs = Some v -> isObject v = false /\ v <> VNull).
  { intros k v. unfold rs. cbn [assoc_get].
    destruct ("locale" =? k)%string; [|discriminate].
    intros [= <-]. unfold hd. destruct g; (split; [reflexivity|discriminate]). }
  destruct (flatten_step_tail locales fuel ls (length hh) g acc ps rs (hh ++ [Obj rs])
              (lookup_alloc_old hh _ _ _ Hls) (lookup_alloc_new hh (Obj rs))
              ltac:(lia) Hrs (fun k v _ Hv => Hinv k v Hv))
    as (ps' & Hrun & Hnof' & Hget & Hinv').
  exists ps', ((<[ls := Obj ps']> (hh ++ [Obj rs])) ++ [Obj []]).
  split; [|split; [|split; [exact Hnof'|split; [exact Hinv'|split]]]].
  - mstep (getp_eq _ _ "fields" _ Hls). unfold obj_get. rewrite Hnof.
    cbn [default from_option id]. mstep Hres. exact Hrun.
  - apply lookup_alloc_old. eapply heap_lookup_insert, lookup_alloc_old, Hls.
  - intros k Hk. destruct (string_dec k "fields") as [->|Hf].
    + now rewrite Hnof', Hnof.
    + rewrite (Hget k Hf). unfold rs. cbn [assoc_get].
      destruct ("locale" =? k)%string eqn:E; [|reflexivity].
      apply String.eqb_eq in E. congruence.
  - rewrite (Hget "locale") by discriminate. unfold rs, hd. cbn [assoc_get].
    rewrite String.eqb_refl. cbn [default from_option id]. now destruct g.
Qed.

(** The turns after the first. *)
Lemma flatten_later_groups (locales : option (list (list string))) (fuel : nat) (ls : loc)
    (later : list (list string)) :
  forall (acc : list value) (ps : list (string * value)) (hh : heap),
    hh !! ls = Some (Obj ps) ->
    assoc_get "fields" ps = None ->
    (forall k v, assoc_get k ps = Some v -> isObject v = false /\ v <> VNull) ->
    exists ps' hh',
      foldM (fun localizedEntries locale =>
               fields <- getp (VRef ls) "fields" ;;
               fields <- _getFieldsForLocale fields locale ;;
               fields <- _getFields locales (S fuel) fields locale ;;
               newEntry <- _mergeFields (S fuel) (VRef ls) fields ;;
               delp newEntry "fields" ;;;
               newEntry <- _cleanMore locales (S fuel) newEntry locale None ;;
               newEntry <- _cleanLocales newEntry locale ;;
               ret (localizedEntries ++ [newEntry])) later acc hh
      = (Ret (acc ++ repeat (VRef ls) (length later)), hh')
      /\ hh' !! ls = Some (Obj ps')
      /\ assoc_get "fields" ps' = None
      /\ (forall k, k <> "locale" ->
                    default VUndef (assoc_get k ps') = default VUndef (assoc_get k ps))
      /\ default VUndef (assoc_get "locale" ps')
         = fold_left (fun cur g => match g with c :: _ => VStr c | [] => cur end)
                     later (default VUndef (assoc_get "locale" ps)).
Proof.
  induction later as [|g later IH]; intros acc ps hh Hls Hnof Hinv.
  - exists ps, hh. cbn [foldM length repeat fold_left]. rewrite app_nil_r.
    repeat split; auto.
  - destruct (flatten_later_group locales fuel ls g acc ps hh Hls Hnof Hinv)
      as (ps1 & hh1 & Hrun1 & Hls1 & Hnof1 & Hinv1 & Hkeep1 & Hloc1).
    destruct (IH (acc ++ [VRef ls]) ps1 hh1 Hls1 Hnof1 Hinv1)
      as (ps' & hh' & Hrun & Hls' & Hnof' & Hkeep & Hloc).
    exists ps', hh'. split; [|split; [exact Hls'|split; [exact Hnof'|split]]].
    + cbn [foldM]. mstep_conv Hrun1.
      rewrite Hrun. cbn [length repeat]. now rewrite <- app_assoc.
    + intros k Hk. now rewrite Hkeep, Hkeep1.
    + rewrite Hloc. cbn [fold_left]. now rewrite Hloc1.
Qed.

(** [_cleanEntry] on an entry as the source repository delivers it: the
    heap it leaves. *)
Lemma cleanEntry_regular (groups : list (list string)) (le ls lct lcs lf : loc)
    (pe psys pct pcs pf : list (string * value)) (h : heap) :
  h !! le = Some (Obj pe) ->
  assoc_get "sys" pe = Some (VRef ls) ->
  assoc_get "fields" pe = Some (VRef lf) ->
  h !! ls = Some (Obj psys) ->
  assoc_get "contentType" psys = Some (VRef lct) ->
  h !! lct = Some (Obj pct) ->
  assoc_get "sys" pct = Some (VRef lcs) ->
  h !! lcs = Some (Obj pcs) ->
  h !! lf = Some (Obj pf) ->
  truthy (default VUndef (assoc_get "contentType" pf)) = false ->
  ls <> le -> ls <> lf ->
  exists h1 : heap,
    _cleanEntry (Some groups) (VRef le) false h = (Ret (VRef ls), h1)
    /\ length h1 = length h + 3
    /\ h1 !! ls = Some (Obj (assoc_set "fields" (VRef lf) (stripped psys)))
    /\ h1 !! lf = Some (Obj (assoc_set "contentType" (VRef (length h + 2)) pf))
    /\ h1 !! (length h + 2)
       = Some (Obj (tag_all (default VUndef (assoc_get "id" pcs)) groups))
    /\ (forall l, l < length h -> l <> ls -> l <> lf -> h1 !! l = h !! l).
Proof.
  intros Hle Hsys Hfields Hls Hct Hlct Hcts Hlcs Hlf Hfalsy Hse Hsf.
  rewrite (cleanEntry_prefix h le ls lct lcs pe psys pct pcs Hle Hsys Hls Hct Hlct Hcts Hlcs
             (Some groups) false).
  cbv zeta.
  set (h3 := h ++ [Obj [("fields", VRef (S (length h)))]; Obj []]).
  set (h4 := <[ls := Obj (stripped psys)]> h3).
  set (idv := default VUndef (assoc_get "id" pcs)).
  assert (Hold : forall l, l < length h -> h3 !! l = h !! l).
  { intros l Hl. unfold h3. now apply lookup_app_l. }
  assert (Hlen3 : length h3 = length h + 2).
  { unfold h3. rewrite List.length_app. reflexivity. }
  assert (Hlen4 : length h4 = length h + 2).
  { unfold h4. now rewrite length_insert. }
  pose proof (lookup_lt_Some _ _ _ Hle) as Hle'.
  pose proof (lookup_lt_Some _ _ _ Hls) as Hls'.
  pose proof (lookup_lt_Some _ _ _ Hlf) as Hlf'.
  assert (H4e : h4 !! le = Some (Obj pe)).
  { unfold h4. rewrite heap_lookup_insert_ne by exact Hse. now rewrite Hold. }
  assert (H4s : h4 !! ls = Some (Obj (stripped psys))).
  { unfold h4. apply (heap_lookup_insert h3 ls _ (Obj psys)). now rewrite Hold. }
  assert (H4f : h4 !! lf = Some (Obj pf)).
  { unfold h4. rewrite heap_lookup_insert_ne by exact Hsf. now rewrite Hold. }
  rewrite (cleanEntry_rest_run (Some groups) le ls lf pe (stripped psys) pf idv h4
             H4e Hfields H4s H4f Hfalsy Hsf).
  cbv zeta. rewrite Hlen4.
  set (h5 := <[ls := Obj (assoc_set "fields" (VRef lf) (stripped psys))]> h4).
  set (h6 := <[lf := Obj (assoc_set "contentType" (VRef (length h + 2)) pf)]>
               (h5 ++ [Obj []])).
  assert (Hlen5 : length h5 = length h + 2) by (unfold h5; now rewrite length_insert).
  assert (H6 : forall l, l < length h + 2 -> l <> lf -> h6 !! l = h5 !! l).
  { intros l Hl Hne. unfold h6. rewrite heap_lookup_insert_ne by congruence.
    apply heap_lookup_old. lia. }
  assert (H6f : h6 !! lf = Some (Obj (assoc_set "contentType" (VRef (length h + 2)) pf))).
  { unfold h6. apply (heap_lookup_insert _ lf _ (Obj pf)).
    rewrite heap_lookup_old by lia. unfold h5.
    rewrite heap_lookup_insert_ne by exact Hsf. exact H4f. }
  assert (H6n : h6 !! (length h + 2) = Some (Obj [])).
  { unfold h6. rewrite heap_lookup_insert_ne by lia. rewrite <- Hlen5.
    apply lookup_alloc_new. }
  assert (H5s : h5 !! ls = Some (Obj (assoc_set "fields" (VRef lf) (stripped psys)))).
  { unfold h5. exact (heap_lookup_insert _ _ _ _ H4s). }
  pose (h7 := <[length h + 2 := Obj (tag_all idv groups)]> h6 : heap).
  exists h7. split; [reflexivity|]. split; [|split; [|split; [|split]]].
  - unfold h7, h6. rewrite !length_insert, List.length_app, Hlen5. simpl. lia.
  - unfold h7. rewrite heap_lookup_insert_ne by lia.
    rewrite H6 by (lia || congruence). exact H5s.
  - unfold h7. rewrite heap_lookup_insert_ne by lia. exact H6f.
  - exact (heap_lookup_insert _ _ _ _ H6n).
  - intros l Hl Hnes Hnef. unfold h7. rewrite heap_lookup_insert_ne by lia.
    rewrite H6 by (lia || congruence). unfold h5, h4.
    rewrite !heap_lookup_insert_ne by congruence. now apply Hold.
Qed.

(** On an entry as the source repository delivers it (an envelope [sys]
    that names the content type, and [fields] without a [contentType]),
    [_cleanEntry] returns the envelope object itself: it has lost [space],
    [contentType], [type] and [revision], kept its other properties and
    gained [fields], which is the entry's own fields object. That object
    has gained a [contentType], a new object that maps every locale code of
    every fallback group to the content type's id, and nothing else. The
    entry still refers to the envelope, and no other object has changed. *)
Theorem cleanEntry_strips_and_tags (groups : list (list string)) (le ls lct lcs lf : loc)
    (pe psys pct pcs pf : list (string * value)) (h : heap) :
  h !! le = Some (Obj pe) ->
  assoc_get "sys" pe = Some (VRef ls) ->
  assoc_get "fields" pe = Some (VRef lf) ->
  h !! ls = Some (Obj psys) ->
  assoc_get "contentType" psys = Some (VRef lct) ->
  h !! lct = Some (Obj pct) ->
  assoc_get "sys" pct = Some (VRef lcs) ->
  h !! lcs = Some (Obj pcs) ->
  h !! lf = Some (Obj pf) ->
  truthy (default VUndef (assoc_get "contentType" pf)) = false ->
  ls <> le -> ls <> lf ->
  exists h',
    _cleanEntry (Some groups) (VRef le) false h = (Ret (VRef ls), h')
    /\ peek h' (VRef ls) "fields" = VRef lf
    /\ (forall k, In k ["space"; "contentType"; "type"; "revision"] ->
                  peek h' (VRef ls) k = VUndef)
    /\ (forall k, ~ In k ["space"; "contentType"; "type"; "revision"; "fields"] ->
                  peek h' (VRef ls) k = peek h (VRef ls) k)
    /\ peek h' (VRef lf) "contentType" = VRef (length h + 2)
    /\ (forall k, k <> "contentType" -> peek h' (VRef lf) k = peek h (VRef lf) k)
    /\ (forall code, In code (concat groups) ->
                     peek h' (VRef (length h + 2)) code = peek h (VRef lcs) "id")
    /\ (forall code, ~ In code (concat groups) ->
                     peek h' (VRef (length h + 2)) code = VUndef)
    /\ (forall l, l < length h -> l <> ls -> l <> lf -> h' !! l = h !! l).
Proof.
  intros Hle Hsys Hfields Hls Hct Hlct Hcts Hlcs Hlf Hfalsy Hse Hsf.
  destruct (cleanEntry_regular groups le ls lct lcs lf pe psys pct pcs pf h
              Hle Hsys Hfields Hls Hct Hlct Hcts Hlcs Hlf Hfalsy Hse Hsf)
    as (h7 & Hrun & _ & Hs' & Hf' & Hn' & Hframe).
  set (idv := default VUndef (assoc_get "id" pcs)) in *.
  exists h7. split; [exact Hrun|].
  split; [rewrite (peek_eq _ _ _ _ Hs'); unfold obj_get; now rewrite assoc_get_set_same|].
  split.
  { intros k Hk. rewrite (peek_eq _ _ _ _ Hs'). unfold obj_get.
    rewrite assoc_get_set_other, stripped_get.
    - simpl in Hk. destruct Hk as [<-|[<-|[<-|[<-|[]]]]]; reflexivity.
    - simpl in Hk. intros <-. intuition discriminate. }
  split.
  { intros k Hk. rewrite (peek_eq _ _ _ _ Hs'), (peek_eq _ _ _ _ Hls). unfold obj_get.
    rewrite assoc_get_set_other, stripped_get.
    - destruct (existsb (String.eqb k) ["space"; "contentType"; "type"; "revision"]) eqn:E;
        [|reflexivity].
      apply existsb_exists in E as (k' & Hin & Heq). apply String.eqb_eq in Heq. subst k'.
      exfalso. apply Hk. simpl in *. tauto.
    - intros <-. apply Hk. simpl. tauto. }
  split; [rewrite (peek_eq _ _ _ _ Hf'); unfold obj_get; now rewrite assoc_get_set_same|].
  split.
  { intros k Hk. rewrite (peek_eq _ _ _ _ Hf'), (peek_eq _ _ _ _ Hlf). unfold obj_get.
    now rewrite assoc_get_set_other by congruence. }
  split.
  { intros code Hin. rewrite (peek_eq _ _ _ _ Hn'), (peek_eq _ _ _ _ Hlcs).
    unfold obj_get, tag_all. now rewrite (proj1 (tag_fold idv _ [] code) Hin). }
  split.
  { intros code Hout. rewrite (peek_eq _ _ _ _ Hn').
    unfold obj_get, tag_all. now rewrite (proj2 (tag_fold idv _ [] code) Hout). }
  exact Hframe.
Qed.

Lemma cleanEntry_strips_and_tags_witness :
  exists h',
    _cleanEntry (Some [["en"; "de"]]) (VRef 0) false two_locale_entry = (Ret (VRef 1), h')
    /\ peek h' (VRef 1) "fields" = VRef 4
    /\ peek h' (VRef 1) "contentType" = VUndef
    /\ peek h' (VRef 1) "id" = VStr "e1"
    /\ peek h' (VRef 4) "contentType" = VRef 8
    /\ peek h' (VRef 8) "de" = VStr "page".
Proof.
  destruct (cleanEntry_strips_and_tags [["en"; "de"]] 0 1 2 3 4
              [("sys", VRef 1); ("fields", VRef 4)]
              [("id", VStr "e1"); ("type", VStr "Entry"); ("contentType", VRef 2);
               ("revision", VNum 1)]
              [("sys", VRef 3)] [("id", VStr "page")] [("title", VRef 5)]
              two_locale_entry)
    as (h' & Hrun & Hfields & Hgone & Hkept & Htag & _ & Hcodes & _);
    try reflexivity; try discriminate.
  exists h'. split; [exact Hrun|]. split; [exact Hfields|].
  split; [apply Hgone; simpl; tauto|].
  split.
  - rewrite Hkept; [reflexivity|]. simpl. intuition discriminate.
  - split; [exact Htag|]. rewrite Hcodes; [reflexivity|]. simpl. tauto.
Defined.

Lemma first_truthy_cases (mapping : list (string * value)) (group : list string) :
  first_truthy mapping group = VUndef
  \/ truthy (first_truthy mapping group) = true
     /\ exists code, assoc_get code mapping = Some (first_truthy mapping group).
Proof.
  unfold first_truthy.
  destruct (List.find _ group) as [code|] eqn:E; [|now left].
  apply List.find_some in E as [_ Ht]. right. split; [exact Ht|].
  exists code. destruct (assoc_get code mapping); [reflexivity|discriminate].
Qed.

Lemma first_truthy_tag (contentType : value) (groups : list (list string))
    (c : string) (g : list string) :
  In (c :: g) groups ->
  truthy contentType = true ->
  first_truthy (tag_all contentType groups) (c :: g) = contentType.
Proof.
  intros Hin Ht.
  assert (Hc : assoc_get c (tag_all contentType groups) = Some contentType).
  { unfold tag_all. apply tag_fold. apply in_concat. exists (c :: g). split; [exact Hin|].
    now left. }
  unfold first_truthy. cbn [List.find]. rewrite Hc. cbn [default from_option id].
  rewrite Ht. cbn [default from_option id]. now rewrite Hc.
Qed.

Lemma tag_all_values (contentType x : value) (groups : list (list string)) (c : string) :
  assoc_get c (tag_all contentType groups) = Some x -> x = contentType.
Proof.
  unfold tag_all. intros H.
  destruct (in_dec string_dec c (concat groups)) as [Hin|Hout].
  - rewrite (proj1 (tag_fold contentType _ [] c) Hin) in H. congruence.
  - rewrite (proj2 (tag_fold contentType _ [] c) Hout) in H. discriminate.
Qed.

Lemma assoc_set_keys (k k' : string) (v : value) (ps : list (string * value)) :
  In k (map fst (assoc_set k' v ps)) <-> k = k' \/ In k (map fst ps).
Proof.
  induction ps as [|[k0 v0] ps IH]; simpl.
  - intuition.
  - destruct (k0 =? k')%string eqn:E; simpl.
    + apply String.eqb_eq in E. subst k0. intuition.
    + rewrite IH. intuition.
Qed.

Lemma assoc_get_none_keys (k : string) (ps : list (string * value)) :
  assoc_get k ps = None -> ~ In k (map fst ps).
Proof.
  intros H Hin. apply assoc_get_key_in in Hin as [v Hv]. congruence.
Qed.

Section FirstTurn.

Variable groups : list (list string).
Variable fuel : nat.
Variables (c : string) (g : list string).
Variable h : heap.
Variables le ls lct lcs lf : loc.
Variables pe psys pct pcs pf : list (string * value).
Variable ct : string.

Hypothesis group_listed : In (c :: g) groups.
Hypothesis entry_there : h !! le = Some (Obj pe).
Hypothesis entry_sys : assoc_get "sys" pe = Some (VRef ls).
Hypothesis entry_fields : assoc_get "fields" pe = Some (VRef lf).
Hypothesis sys_there : h !! ls = Some (Obj psys).
Hypothesis sys_contentType : assoc_get "contentType" psys = Some (VRef lct).
Hypothesis contentType_there : h !! lct = Some (Obj pct).
Hypothesis contentType_sys : assoc_get "sys" pct = Some (VRef lcs).
Hypothesis contentType_sys_there : h !! lcs = Some (Obj pcs).
Hypothesis contentType_id : assoc_get "id" pcs = Some (VStr ct).
Hypothesis contentType_named : ct <> "".
Hypothesis fields_there : h !! lf = Some (Obj pf).
Hypothesis fields_untagged : assoc_get "contentType" pf = None.
Hypothesis sys_apart : ls <> le.
Hypothesis sys_not_fields : ls <> lf.
Hypothesis envelope_scalars :
  forall k v, In (k, v) psys ->
              ~ In k ["space"; "contentType"; "type"; "revision"] ->
              isObject v = false /\ v <> VNull.
Hypothesis fields_localized :
  forall k v, In (k, v) pf ->
              exists l mapping,
                v = VRef l /\ h !! l = Some (Obj mapping)
                /\ forall code x, In (code, x) mapping -> isObject x = false.

Lemma mapping_apart (k : string) (l : loc) (mapping : list (string * value)) :
  In (k, VRef l) pf -> h !! l = Some (Obj mapping) ->
  (forall code x, In (code, x) mapping -> isObject x = false) ->
  l <> ls /\ l <> lf.
Proof.
  intros Hin Hl Hm. split; intros ->.
  - rewrite sys_there in Hl. injection Hl as <-.
    now pose proof (Hm _ _ (assoc_get_In _ _ _ sys_contentType)).
  - rewrite fields_there in Hl. injection Hl as <-.
    now pose proof (Hm _ _ Hin).
Qed.

(** The first turn of the loop on a regular entry. *)
Lemma flatten_first_turn :
  exists (h1 h2 : heap) (ps1 : list (string * value)),
    _cleanEntry (Some groups) (VRef le) false h = (Ret (VRef ls), h1)
    /\ (fields <- getp (VRef ls) "fields" ;;
        fields <- _getFieldsForLocale fields (c :: g) ;;
        fields <- _getFields (Some groups) (S fuel) fields (c :: g) ;;
        newEntry <- _mergeFields (S fuel) (VRef ls) fields ;;
        delp newEntry "fields" ;;;
        newEntry <- _cleanMore (Some groups) (S fuel) newEntry (c :: g) None ;;
        newEntry <- _cleanLocales newEntry (c :: g) ;;
        ret ([] ++ [newEntry])) h1
       = (Ret ([] ++ [VRef ls]), h2)
    /\ h2 !! ls = Some (Obj ps1)
    /\ assoc_get "fields" ps1 = None
    /\ (forall k v, assoc_get k ps1 = Some v -> isObject v = false /\ v <> VNull)
    /\ default VUndef (assoc_get "locale" ps1) = VStr c
    /\ default VUndef (assoc_get "contentType" ps1) = VStr ct
    /\ (forall k l mapping,
           ~ In k ["fields"; "locale"; "contentType"] ->
           assoc_get k pf = Some (VRef l) ->
           h !! l = Some (Obj mapping) ->
           default VUndef (assoc_get k ps1)
           = if is_undefined (first_truthy mapping (c :: g))
             then default VUndef (assoc_get k (stripped psys))
             else first_truthy mapping (c :: g))
    /\ (forall k, ~ In k ["fields"; "locale"; "contentType"] ->
                  assoc_get k pf = None ->
                  default VUndef (assoc_get k ps1)
                  = default VUndef (assoc_get k (stripped psys))).
Proof.
  assert (Hfalsy : truthy (default VUndef (assoc_get "contentType" pf)) = false)
    by now rewrite fields_untagged.
  destruct (cleanEntry_regular groups le ls lct lcs lf pe psys pct pcs pf h
              entry_there entry_sys entry_fields sys_there sys_contentType
              contentType_there contentType_sys contentType_sys_there fields_there
              Hfalsy sys_apart sys_not_fields)
    as (h1 & Hclean & Hlen1 & Hs1 & Hf1 & Htags & Hframe).
  rewrite contentType_id in Htags. cbn [default from_option id] in Htags.
  set (psys' := assoc_set "fields" (VRef lf) (stripped psys)) in *.
  set (pf' := assoc_set "contentType" (VRef (length h + 2)) pf) in *.
  set (tags := tag_all (VStr ct) groups) in *.
  pose proof (lookup_lt_Some _ _ _ sys_there) as Hls'.
  pose proof (lookup_lt_Some _ _ _ fields_there) as Hlf'.
  assert (Hmaps : forall k l mapping,
             In (k, VRef l) pf -> h !! l = Some (Obj mapping) ->
             (forall code x, In (code, x) mapping -> isObject x = false) ->
             h1 !! l = Some (Obj mapping)).
  { intros k l mapping Hin Hl Hm.
    destruct (mapping_apart k l mapping Hin Hl Hm) as [Hnes Hnef].
    rewrite Hframe; [exact Hl|now apply lookup_lt_Some in Hl|exact Hnes|exact Hnef]. }
  assert (Hrefs : forall k v, In (k, v) pf' ->
             exists l mapping, v = VRef l /\ h1 !! l = Some (Obj mapping)).
  { intros k v Hin. unfold pf' in Hin. apply assoc_set_In in Hin as [->|Hin].
    - exists (length h + 2), tags. now split.
    - destruct (fields_localized k v Hin) as (l & mapping & -> & Hl & Hm).
      exists l, mapping. split; [reflexivity|]. exact (Hmaps k l mapping Hin Hl Hm). }
  destruct (getFieldsForLocale_loop lf pf' (c :: g) h1 Hf1 Hrefs (map fst pf') [])
    as (ps & Hrun & Hout & Hin); [tauto|].
  set (rs := assoc_set "locale" (VStr c) ps).
  assert (Hres : _getFieldsForLocale (VRef lf) (c :: g) h1
                 = (Ret (VRef (length h1)), h1 ++ [Obj rs])).
  { unfold _getFieldsForLocale. mstep (alloc_eq (Obj []) h1). unfold for_in.
    mstep (keys_of_eq _ _ _ (lookup_alloc_old h1 _ (Obj []) _ Hf1)).
    cbn [obj_keys]. mstep Hrun.
    mstep (setp_eq _ _ "locale" (VStr c) _ (lookup_alloc_new h1 (Obj ps))).
    now rewrite insert_last. }
  assert (Hps : forall k l mapping,
             assoc_get k pf' = Some (VRef l) -> h1 !! l = Some (Obj mapping) ->
             assoc_get k ps = Some (first_truthy mapping (c :: g))).
  { intros k l mapping Hk Hl. eapply Hin; eauto.
    apply assoc_get_In in Hk. now apply (in_map fst) in Hk. }
  assert (Hrs : forall k v, assoc_get k rs = Some v -> isObject v = false /\ v <> VNull).
  { intros k v Hv. unfold rs in Hv. rewrite assoc_get_set in Hv.
    destruct ("locale" =? k)%string; [injection Hv as <-; split; [reflexivity|discriminate]|].
    destruct (in_dec string_dec k (map fst pf')) as [Hk|Hk].
    - destruct (assoc_get_key_in _ _ Hk) as [v0 Hv0].
      pose proof (assoc_get_In _ _ _ Hv0) as Hin0.
      assert (Hsc : exists l mapping,
                 v0 = VRef l /\ h1 !! l = Some (Obj mapping)
                 /\ forall code x, assoc_get code mapping = Some x -> isObject x = false).
      { unfold pf' in Hin0. apply assoc_set_In in Hin0 as [->|Hin0].
        - exists (length h + 2), tags. split; [reflexivity|]. split; [exact Htags|].
          intros code x Hx. now rewrite (tag_all_values _ _ _ _ Hx).
        - destruct (fields_localized k v0 Hin0) as (l & mapping & -> & Hl & Hm).
          exists l, mapping. split; [reflexivity|].
          split; [exact (Hmaps k l mapping Hin0 Hl Hm)|].
          intros code x Hx. exact (Hm _ _ (assoc_get_In _ _ _ Hx)). }
      destruct Hsc as (l & mapping & -> & Hl & Hm).
      rewrite (Hps k l mapping Hv0 Hl) in Hv. injection Hv as <-.
      destruct (first_truthy_cases mapping (c :: g)) as [->|[Ht [code Hcode]]].
      + split; [reflexivity|discriminate].
      + split; [exact (Hm _ _ Hcode)|]. intros E. rewrite E in Ht. discriminate.
    - rewrite (Hout k Hk) in Hv. discriminate. }
  assert (Hpsys : forall k v, k <> "fields" -> assoc_get k psys' = Some v ->
                              isObject v = false /\ v <> VNull).
  { intros k v Hk Hv. unfold psys' in Hv. rewrite assoc_get_set_other in Hv by congruence.
    rewrite stripped_get in Hv.
    destruct (existsb (String.eqb k) ["space"; "contentType"; "type"; "revision"]) eqn:E;
      [discriminate|].
    apply (envelope_scalars k v (assoc_get_In _ _ _ Hv)).
    intros Hin'. apply Bool.not_true_iff_false in E. apply E.
    apply existsb_exists. exists k. split; [exact Hin'|apply String.eqb_refl]. }
  destruct (flatten_step_tail (Some groups) fuel ls (length h1) (c :: g) [] psys' rs
              (h1 ++ [Obj rs]) (lookup_alloc_old h1 _ _ _ Hs1)
              (lookup_alloc_new h1 (Obj rs)) ltac:(lia) Hrs Hpsys)
    as (ps1 & Htail & Hnof & Hget & Hinv).
  exists h1, ((<[ls := Obj ps1]> (h1 ++ [Obj rs])) ++ [Obj []]), ps1.
  split; [exact Hclean|]. split.
  { mstep (getp_eq _ _ "fields" _ Hs1). unfold obj_get, psys'.
    rewrite assoc_get_set_same. cbn [default from_option id]. mstep Hres. exact Htail. }
  split.
  { apply lookup_alloc_old. eapply heap_lookup_insert, lookup_alloc_old, Hs1. }
  split; [exact Hnof|]. split; [exact Hinv|].
  assert (Hrs_other : forall k, k <> "locale" -> assoc_get k rs = assoc_get k ps).
  { intros k Hk. unfold rs. apply assoc_get_set_other. congruence. }
  assert (Hpsys_get : forall k, k <> "fields" ->
             default VUndef (assoc_get k psys') = default VUndef (assoc_get k (stripped psys))).
  { intros k Hk. unfold psys'. now rewrite assoc_get_set_other by congruence. }
  split.
  { rewrite (Hget "locale") by discriminate. unfold rs. now rewrite assoc_get_set_same. }
  split.
  { rewrite (Hget "contentType") by discriminate.
    rewrite (Hrs_other "contentType") by discriminate.
    rewrite (Hps "contentType" (length h + 2) tags (assoc_get_set_same _ _ _) Htags).
    unfold tags. rewrite (first_truthy_tag (VStr ct) groups c g group_listed).
    - reflexivity.
    - simpl. apply String.eqb_neq in contentType_named. now rewrite contentType_named. }
  split.
  { intros k l mapping Hk Hkf Hl.
    assert (Hk1 : k <> "fields") by (intros ->; apply Hk; simpl; tauto).
    assert (Hk2 : k <> "locale") by (intros ->; apply Hk; simpl; tauto).
    assert (Hk3 : k <> "contentType") by (intros ->; apply Hk; simpl; tauto).
    rewrite (Hget k Hk1), (Hrs_other k Hk2), (Hpsys_get k Hk1).
    destruct (fields_localized k _ (assoc_get_In _ _ _ Hkf))
      as (l' & mapping' & [= <-] & Hl' & Hm).
    rewrite Hl in Hl'. injection Hl' as <-.
    rewrite (Hps k l mapping).
    - reflexivity.
    - unfold pf'. rewrite assoc_get_set_other by congruence. exact Hkf.
    - exact (Hmaps k l mapping (assoc_get_In _ _ _ Hkf) Hl Hm). }
  intros k Hk Hkf.
  assert (Hk1 : k <> "fields") by (intros ->; apply Hk; simpl; tauto).
  assert (Hk2 : k <> "locale") by (intros ->; apply Hk; simpl; tauto).
  assert (Hk3 : k <> "contentType") by (intros ->; apply Hk; simpl; tauto).
  rewrite (Hget k Hk1), (Hrs_other k Hk2), (Hpsys_get k Hk1).
  rewrite Hout; [reflexivity|].
  unfold pf'. rewrite assoc_set_keys. intros [->|Hin']; [congruence|].
  exact (assoc_get_none_keys _ _ Hkf Hin').
Qed.

End FirstTurn.

Lemma last_locale (later : list (list string)) :
  Forall (fun g => g <> []) later ->
  forall (c : string) (g : list string),
    fold_left (fun cur g => match g with c :: _ => VStr c | [] => cur end) later (VStr c)
    = VStr (hd "" (List.last later (c :: g))).
Proof.
  induction 1 as [|g1 later Hg1 Hlater IH]; intros c g; [reflexivity|].
  destruct g1 as [|c1 g1]; [congruence|]. cbn [fold_left]. rewrite (IH c1 g1).
  destruct later as [|g2 later]; [reflexivity|]. f_equal. f_equal.
  clear. revert g2. induction later as [|g3 later IH]; intros g2; [reflexivity|].
  change (List.last (g2 :: g3 :: later) (c1 :: g1)) with (List.last (g3 :: later) (c1 :: g1)).
  change (List.last ((c1 :: g1) :: g2 :: g3 :: later) (c :: g)) with (List.last (g3 :: later) (c :: g)).
  rewrite (IH g3).
  change (List.last ((c1 :: g1) :: g3 :: later) (c :: g)) with (List.last (g3 :: later) (c :: g)).
  reflexivity.
Qed.

Lemma flatten_regular (fuel : nat) (c : string) (g : list string)
    (later : list (list string)) (le ls lct lcs lf : loc)
    (pe psys pct pcs pf : list (string * value)) (ct : string) (h : heap) :
  h !! le = Some (Obj pe) ->
  assoc_get "sys" pe = Some (VRef ls) ->
  assoc_get "fields" pe = Some (VRef lf) ->
  h !! ls = Some (Obj psys) ->
  assoc_get "contentType" psys = Some (VRef lct) ->
  h !! lct = Some (Obj pct) ->
  assoc_get "sys" pct = Some (VRef lcs) ->
  h !! lcs = Some (Obj pcs) ->
  assoc_get "id" pcs = Some (VStr ct) ->
  ct <> "" ->
  h !! lf = Some (Obj pf) ->
  assoc_get "contentType" pf = None ->
  ls <> le -> ls <> lf ->
  (forall k v, In (k, v) psys ->
               ~ In k ["space"; "contentType"; "type"; "revision"] ->
               isObject v = false /\ v <> VNull) ->
  (forall k v, In (k, v) pf ->
               exists l mapping,
                 v = VRef l /\ h !! l = Some (Obj mapping)
                 /\ forall code x, In (code, x) mapping -> isObject x = false) ->
  Forall (fun g => g <> []) later ->
  exists h',
    _getLocalizedEntries (Some ((c :: g) :: later)) (S fuel) (VRef le) h
    = (Ret (FlatMany (repeat (VRef ls) (S (length later)))), h')
    /\ (exists ps', h' !! ls = Some (Obj ps'))
    /\ peek h' (VRef ls) "fields" = VUndef
    /\ peek h' (VRef ls) "locale" = VStr (hd "" (List.last later (c :: g)))
    /\ peek h' (VRef ls) "contentType" = VStr ct
    /\ (forall k l v,
           ~ In k ["fields"; "locale"; "contentType"; "space"; "type"; "revision"] ->
           assoc_get k pf = Some (VRef l) ->
           _getLocaleString (VRef l) (c :: g) h = (Ret v, h) ->
           peek h' (VRef ls) k = if is_undefined v then peek h (VRef ls) k else v)
    /\ (forall k,
           ~ In k ["fields"; "locale"; "contentType"; "space"; "type"; "revision"] ->
           assoc_get k pf = None ->
           peek h' (VRef ls) k = peek h (VRef ls) k)
    /\ (forall k, In k ["space"; "type"; "revision"] ->
                  assoc_get k pf = None ->
                  peek h' (VRef ls) k = VUndef).
Proof.
  intros Hle Hsys Hfields Hls Hct Hlct Hcts Hlcs Hid Hnamed Hlf Hnotag Hse Hsf Henv Hloc
         Hlater.
  destruct (flatten_first_turn ((c :: g) :: later) fuel c g h le ls lct lcs lf
              pe psys pct pcs pf ct (or_introl eq_refl) Hle Hsys Hfields Hls Hct Hlct Hcts
              Hlcs Hid Hnamed Hlf Hnotag Hse Hsf Henv Hloc)
    as (h1 & h2 & ps1 & Hclean & Hturn & Hls2 & Hnof & Hinv & Hloc1 & Hct1 & Hfield1 & Hother1).
  destruct (flatten_later_groups (Some ((c :: g) :: later)) fuel ls later ([] ++ [VRef ls])
              ps1 h2 Hls2 Hnof Hinv)
    as (ps' & h' & Hfold & Hls' & Hnof' & Hkeep & Hloc').
  assert (Hstripped : forall k,
             ~ In k ["space"; "contentType"; "type"; "revision"] ->
             default VUndef (assoc_get k (stripped psys)) = peek h (VRef ls) k).
  { intros k Hk. rewrite (peek_eq _ _ _ _ Hls). unfold obj_get. rewrite stripped_get.
    destruct (existsb (String.eqb k) ["space"; "contentType"; "type"; "revision"]) eqn:E;
      [|reflexivity].
    apply existsb_exists in E as (k' & Hin & Heq). apply String.eqb_eq in Heq. subst k'.
    contradiction. }
  exists h'. split.
  { unfold _getLocalizedEntries. mstep Hclean. cbn [foldM]. rewrite bind_assoc.
    mstep_conv Hturn. mstep_conv Hfold. reflexivity. }
  split; [eauto|].
  split.
  { rewrite (peek_eq _ _ _ _ Hls'). unfold obj_get. now rewrite Hnof'. }
  split.
  { rewrite (peek_eq _ _ _ _ Hls'). unfold obj_get. rewrite Hloc', Hloc1.
    now apply last_locale. }
  split.
  { rewrite (peek_eq _ _ _ _ Hls'). unfold obj_get. rewrite Hkeep by discriminate.
    exact Hct1. }
  split.
  { intros k l v Hk Hkf Hv.
    destruct (Hloc k _ (assoc_get_In _ _ _ Hkf)) as (l' & mapping & [= <-] & Hl & _).
    rewrite (getLocaleString_first_truthy l mapping (c :: g) h Hl) in Hv.
    injection Hv as <-.
    rewrite (peek_eq _ _ _ _ Hls'). unfold obj_get.
    rewrite Hkeep by (intros ->; apply Hk; simpl; tauto).
    rewrite (Hfield1 k l mapping); [|simpl in *; tauto|exact Hkf|exact Hl].
    rewrite Hstripped; [reflexivity|]. simpl in *. tauto. }
  split.
  { intros k Hk Hkf. rewrite (peek_eq _ _ _ _ Hls'). unfold obj_get.
    rewrite Hkeep by (intros ->; apply Hk; simpl; tauto).
    rewrite (Hother1 k); [|simpl in *; tauto|exact Hkf].
    apply Hstripped. simpl in *. tauto. }
  intros k Hk Hkf. rewrite (peek_eq _ _ _ _ Hls'). unfold obj_get.
  rewrite Hkeep by (intros ->; simpl in Hk; intuition discriminate).
  rewrite (Hother1 k); [|simpl in *; intuition (subst; discriminate)|exact Hkf].
  rewrite stripped_get. simpl in Hk.
  destruct Hk as [<-|[<-|[<-|[]]]]; reflexivity.
Qed.

(** The flattener on a regular entry: an envelope of scalars, none of them
    [null], that names the content type, and fields that map locale codes
    to scalars, none of them called [contentType]. With at least one
    fallback group, all of them non-empty, it returns one reference per
    group, all to the envelope object. By then the envelope has no
    [fields], carries the content type's id as [contentType] and has, as
    [locale], the first code of the LAST group. A field that is not called
    [fields], [locale], [contentType], [space], [type] or [revision] is
    held as [_getLocaleString] resolves it for the FIRST group; where it
    resolves to [undefined] the envelope's own property of that name
    stays. A property of the envelope with none of these six names and no
    field of its name is as it was. The envelope's [space], [type] and
    [revision] are gone, unless a field has that name. *)
Theorem flatten_regular_entry (fuel : nat) (c : string) (g : list string)
    (later : list (list string)) (le ls lct lcs lf : loc)
    (pe psys pct pcs pf : list (string * value)) (ct : string) (h : heap) :
  h !! le = Some (Obj pe) ->
  assoc_get "sys" pe = Some (VRef ls) ->
  assoc_get "fields" pe = Some (VRef lf) ->
  h !! ls = Some (Obj psys) ->
  assoc_get "contentType" psys = Some (VRef lct) ->
  h !! lct = Some (Obj pct) ->
  assoc_get "sys" pct = Some (VRef lcs) ->
  h !! lcs = Some (Obj pcs) ->
  assoc_get "id" pcs = Some (VStr ct) ->
  ct <> "" ->
  h !! lf = Some (Obj pf) ->
  assoc_get "contentType" pf = None ->
  ls <> le -> ls <> lf ->
  (forall k v, In (k, v) psys ->
               ~ In k ["space"; "contentType"; "type"; "revision"] ->
               isObject v = false /\ v <> VNull) ->
  (forall k v, In (k, v) pf ->
               exists l mapping,
                 v = VRef l /\ h !! l = Some (Obj mapping)
                 /\ forall code x, In (code, x) mapping -> isObject x = false) ->
  Forall (fun g => g <> []) later ->
  exists h',
    _getLocalizedEntries (Some ((c :: g) :: later)) (S fuel) (VRef le) h
    = (Ret (FlatMany (repeat (VRef ls) (S (length later)))), h')
    /\ peek h' (VRef ls) "fields" = VUndef
    /\ peek h' (VRef ls) "locale" = VStr (hd "" (List.last later (c :: g)))
    /\ peek h' (VRef ls) "contentType" = VStr ct
    /\ (forall k l v,
           ~ In k ["fields"; "locale"; "contentType"; "space"; "type"; "revision"] ->
           assoc_get k pf = Some (VRef l) ->
           _getLocaleString (VRef l) (c :: g) h = (Ret v, h) ->
           peek h' (VRef ls) k = if is_undefined v then peek h (VRef ls) k else v)
    /\ (forall k,
           ~ In k ["fields"; "locale"; "contentType"; "space"; "type"; "revision"] ->
           assoc_get k pf = None ->
           peek h' (VRef ls) k = peek h (VRef ls) k)
    /\ (forall k, In k ["space"; "type"; "revision"] ->
                  assoc_get k pf = None ->
                  peek h' (VRef ls) k = VUndef).
Proof.
  intros Hle Hsys Hfields Hls Hct Hlct Hcts Hlcs Hid Hnamed Hlf Hnotag Hse Hsf Henv Hloc
         Hlater.
  destruct (flatten_regular fuel c g later le ls lct lcs lf pe psys pct pcs pf ct h
              Hle Hsys Hfields Hls Hct Hlct Hcts Hlcs Hid Hnamed Hlf Hnotag Hse Hsf Henv Hloc
              Hlater)
    as (h' & Hrun & _ & Hrest).
  exists h'. split; [exact Hrun|exact Hrest].
Qed.

Lemma flatten_regular_entry_witness :
  exists h',
    _getLocalizedEntries (Some (["en"] :: [["de"]])) 1 (VRef 0) two_locale_entry
    = (Ret (FlatMany (repeat (VRef 1) 2)), h')
    /\ peek h' (VRef 1) "fields" = VUndef
    /\ peek h' (VRef 1) "locale" = VStr "de"
    /\ peek h' (VRef 1) "contentType" = VStr "page"
    /\ peek h' (VRef 1) "title" = VStr "A"
    /\ peek h' (VRef 1) "id" = VStr "e1".
Proof.
  destruct (flatten_regular_entry 0 "en" [] [["de"]] 0 1 2 3 4
              [("sys", VRef 1); ("fields", VRef 4)]
              [("id", VStr "e1"); ("type", VStr "Entry"); ("contentType", VRef 2);
               ("revision", VNum 1)]
              [("sys", VRef 3)] [("id", VStr "page")] [("title", VRef 5)] "page"
              two_locale_entry)
    as (h' & Hrun & Hnof & Hlocale & Hct & Hfield & Hkept & _);
    try reflexivity; try discriminate.
  - intros k v [H|[H|[H|[H|[]]]]] Hk; injection H as <- <-;
      try (split; [reflexivity|discriminate]); exfalso; apply Hk; simpl; tauto.
  - intros k v [H|[]]. injection H as <- <-.
    exists 5, [("en", VStr "A"); ("de", VStr "B")]. split; [reflexivity|].
    split; [reflexivity|].
    intros code x [H|[H|[]]]; injection H as <- <-; reflexivity.
  - repeat constructor. discriminate.
  - exists h'. split; [exact Hrun|]. split; [exact Hnof|]. split; [exact Hlocale|].
    split; [exact Hct|]. split.
    + rewrite (Hfield "title" 5 (VStr "A")); [reflexivity| |reflexivity|reflexivity].
      simpl. intuition discriminate.
    + rewrite Hkept; [reflexivity| |reflexivity]. simpl. intuition discriminate.
Defined.

(** ** Array fields: links become stubs *)

Lemma assoc_del_absent (k : string) (ps : list (string * value)) :
  assoc_get k ps = None -> assoc_del k ps = ps.
Proof.
  unfold assoc_del. induction ps as [|[k0 v0] ps IH]; simpl; [reflexivity|].
  destruct (k0 =? k)%string; [discriminate|]. intros H. simpl. now rewrite IH.
Qed.

Lemma assoc_del_del (k : string) (ps : list (string * value)) :
  assoc_del k (assoc_del k ps) = assoc_del k ps.
Proof. apply assoc_del_absent, assoc_get_del_same. Qed.

Lemma unlinked_refl (h : heap) : unlinked h h.
Proof. split; [lia|]. intros l _. now left. Qed.

Lemma unlinked_trans (h h1 h2 : heap) : unlinked h h1 -> unlinked h1 h2 -> unlinked h h2.
Proof.
  intros [Hlen1 H1] [Hlen2 H2]. split; [lia|]. intros l Hl.
  destruct (H1 l Hl) as [E1|(pl & Hpl & E1)];
    destruct (H2 l ltac:(lia)) as [E2|(pl2 & Hpl2 & E2)].
  - left. congruence.
  - right. exists pl2. split; congruence.
  - right. exists pl. split; congruence.
  - right. exists pl. split; [exact Hpl|]. rewrite E1 in Hpl2. injection Hpl2 as <-.
    now rewrite assoc_del_del in E2.
Qed.

Lemma link_like_unlinked (h h' : heap) (v : value) :
  unlinked h h' -> link_like h v -> link_like h' v.
Proof.
  intros [Hlen Hun] (l & pl & -> & Hl & Hnof & Hsys).
  assert (Hl' : exists pl', h' !! l = Some (Obj pl')
                            /\ assoc_get "fields" pl' = None
                            /\ (assoc_get "sys" pl' = None
                                \/ assoc_get "sys" pl' = assoc_get "sys" pl)).
  { destruct (Hun l (lookup_lt_Some _ _ _ Hl)) as [E|(pl0 & Hpl0 & E)].
    - exists pl. split; [congruence|]. split; [exact Hnof|now right].
    - rewrite Hl in Hpl0. injection Hpl0 as <-. exists (assoc_del "sys" pl).
      split; [exact E|]. split; [|left; apply assoc_get_del_same].
      now rewrite assoc_get_del_other by discriminate. }
  destruct Hl' as (pl' & Hl' & Hnof' & Hsys').
  exists l, pl'. split; [reflexivity|]. split; [exact Hl'|]. split; [exact Hnof'|].
  destruct Hsys' as [Hnone|Hsame]; [now left|]. rewrite Hsame.
  destruct Hsys as [Hnone|(s & ps & Hs & Hps & Hct)]; [now left|]. right.
  destruct (Hun s (lookup_lt_Some _ _ _ Hps)) as [E|(ps0 & Hps0 & E)].
  - exists s, ps. split; [exact Hs|]. split; [congruence|exact Hct].
  - rewrite Hps in Hps0. injection Hps0 as <-. exists s, (assoc_del "sys" ps).
    split; [exact Hs|]. split; [exact E|].
    now rewrite assoc_get_del_other by discriminate.
Qed.

Section ArrayFields.

Variable locales : option (list (list string)).
Variable fuel : nat.
Variable locale : list string.

(** One object of an array field: cleaned in full, merged, gone through
    and resolved, all that is left of a link is its locale. *)
Lemma link_becomes_stub (v : value) (h : heap) :
  link_like h v ->
  exists h',
    (entry <- _cleanEntry locales v true ;;
     f <- getp entry "fields" ;;
     entry <- _mergeFields (S fuel) entry f ;;
     entry <- _getFields locales (S fuel) entry locale ;;
     _getFieldsForLocale entry locale) h
    = (Ret (VRef (length h + 3)), h')
    /\ unlinked h h'
    /\ length h' = length h + 4
    /\ h' !! (length h + 3)
       = Some (Obj [("locale", match locale with code :: _ => VStr code | [] => VUndef end)])
    /\ peek h' v "sys" = VUndef.
Proof.
  intros (l & pl & -> & Hl & Hnof & Hsys).
  set (hd := match locale with code :: _ => VStr code | [] => VUndef end).
  set (n := length h).
  pose proof (lookup_lt_Some _ _ _ Hl) as Hlt. fold n in Hlt.
  set (h3 := h ++ [Obj [("fields", VRef (S n))]; Obj []]).
  set (h4 := <[l := Obj (assoc_del "sys" pl)]> h3 : heap).
  assert (Hl3 : h3 !! l = Some (Obj pl)) by (now apply lookup_alloc_two).
  assert (Hl4 : h4 !! l = Some (Obj (assoc_del "sys" pl)))
    by exact (heap_lookup_insert h3 l _ _ Hl3).
  assert (Hn3 : h3 !! n = Some (Obj [("fields", VRef (S n))])).
  { unfold h3, n. rewrite lookup_app_r by lia. now rewrite Nat.sub_diag. }
  assert (Hn4 : h4 !! n = Some (Obj [("fields", VRef (S n))])).
  { unfold h4. rewrite heap_lookup_insert_ne by lia. exact Hn3. }
  assert (Hlen4 : length h4 = n + 2).
  { unfold h4, h3. rewrite length_insert, List.length_app. reflexivity. }
  (* the cleaning *)
  assert (Hclean : _cleanEntry locales (VRef l) true h
                   = (Ret (VRef n), <[n := Obj [("fields", VUndef)]]> h4)).
  { unfold _cleanEntry.
    mstep (alloc_eq (Obj []) h). mstep (alloc_eq (Obj []) (h ++ [Obj []])).
    assert (Hnew : ((h ++ [Obj []]) ++ [Obj []]) !! length h = Some (Obj [])).
    { apply lookup_alloc_old, lookup_alloc_new. }
    mstep (setp_eq _ _ "fields" (VRef (length (h ++ [Obj []]))) _ Hnew).
    rewrite <- app_assoc. cbn [app]. rewrite insert_before_last, List.length_app.
    cbn [length assoc_set truthy negb]. rewrite Nat.add_1_r. fold n h3.
    mstep (getp_eq _ _ "sys" _ Hl3). unfold obj_get.
    assert (Hrest : forall contentType : value,
               (f <- getp (VRef l) "fields" ;;
                setp (VRef n) "fields" f ;;;
                nf <- getp (VRef n) "fields" ;;
                (if typeof_object nf then
                   c <- getp nf "contentType" ;;
                   if negb (truthy c) then
                     c' <- alloc (Obj []) ;;
                     setp nf "contentType" c' ;;;
                     match locales with
                     | None => fail TypeError
                     | Some groups =>
                         forM groups (fun locale =>
                           forM locale (fun code =>
                             nf1 <- getp (VRef n) "fields" ;;
                             c1 <- getp nf1 "contentType" ;;
                             setp c1 code contentType))
                     end
                   else ret tt
                 else ret tt) ;;;
                ret (VRef n)) h4
               = (Ret (VRef n), <[n := Obj [("fields", VUndef)]]> h4)).
    { intros contentType. mstep (getp_eq _ _ "fields" _ Hl4). unfold obj_get.
      rewrite assoc_get_del_other by discriminate. rewrite Hnof.
      cbn [default from_option id].
      mstep (setp_eq _ _ "fields" VUndef _ Hn4). cbn [assoc_set String.eqb Ascii.eqb Bool.eqb].
      mstep (getp_eq _ _ "fields" _ (heap_lookup_insert h4 n (Obj [("fields", VUndef)]) _ Hn4)).
      cbn [obj_get assoc_get String.eqb Ascii.eqb Bool.eqb default from_option id
           typeof_object].
      mret. reflexivity. }
    destruct Hsys as [Hnone|(s & ps & Hs & Hps & Hct)].
    - rewrite Hnone. cbn [default from_option id truthy]. mret. cbn [fst snd].
      assert (Hsame : h4 = h3).
      { unfold h4. rewrite (assoc_del_absent _ _ Hnone). exact (heap_insert_id h3 l _ Hl3). }
      rewrite <- Hsame. apply Hrest.
    - rewrite Hs. cbn [default from_option id truthy].
      assert (Hps3 : h3 !! s = Some (Obj ps)) by (now apply lookup_alloc_two).
      mstep (getp_eq _ _ "contentType" _ Hps3).
      unfold obj_get. rewrite Hct. mret.
      mstep (delp_eq _ _ "sys" _ Hl3). mret. cbn [fst snd]. apply Hrest. }
  set (h5 := <[n := Obj [("fields", VUndef)]]> h4 : heap).
  assert (Hn5 : h5 !! n = Some (Obj [("fields", VUndef)]))
    by exact (heap_lookup_insert h4 n _ _ Hn4).
  assert (Hlen5 : length h5 = n + 2) by (unfold h5; now rewrite heap_length_insert).
  (* the merge with the fields that are not there *)
  set (h6 := <[n := Obj []]> (h5 ++ [Obj []]) : heap).
  assert (Hmerge : _mergeFields (S fuel) (VRef n) VUndef h5 = (Ret (VRef n), h6)).
  { unfold _mergeFields. cbn [is_undefined]. mret. mstep (alloc_eq (Obj []) h5).
    unfold merge. mret. cbn [truthy baseMerge strict_eq]. rewrite Hlen5.
    assert (Hneq : (n =? n + 2)%nat = false) by (apply Nat.eqb_neq; lia).
    rewrite Hneq.
    assert (Hnew : (h5 ++ [Obj []]) !! (n + 2) = Some (Obj [])).
    { rewrite <- Hlen5. apply lookup_alloc_new. }
    mstep (keys_of_eq _ _ _ Hnew). cbn [obj_keys map forM]. mret. mret.
    mstep (delp_eq _ _ "fields" _ (lookup_alloc_old h5 _ (Obj []) _ Hn5)).
    reflexivity. }
  assert (Hn6 : h6 !! n = Some (Obj [])).
  { unfold h6. exact (heap_lookup_insert _ n _ _ (lookup_alloc_old h5 _ (Obj []) _ Hn5)). }
  assert (Hlen6 : length h6 = n + 3).
  { unfold h6. rewrite heap_length_insert, List.length_app, Hlen5. simpl. lia. }
  assert (Hfields : _getFields locales (S fuel) (VRef n) locale h6 = (Ret (VRef n), h6)).
  { apply (getFields_no_arrays locales fuel n [] locale h6 Hn6). intros k l0. discriminate. }
  assert (Hres : _getFieldsForLocale (VRef n) locale h6
                 = (Ret (VRef (n + 3)), h6 ++ [Obj [("locale", hd)]])).
  { unfold _getFieldsForLocale. mstep (alloc_eq (Obj []) h6). rewrite Hlen6.
    unfold for_in. mstep (keys_of_eq _ _ _ (lookup_alloc_old h6 _ (Obj []) _ Hn6)).
    cbn [obj_keys map forM]. mret.
    assert (Hnew : (h6 ++ [Obj []]) !! (n + 3) = Some (Obj [])).
    { rewrite <- Hlen6. apply lookup_alloc_new. }
    mstep (setp_eq _ _ "locale" hd _ Hnew). rewrite <- Hlen6. now rewrite insert_last. }
  exists (h6 ++ [Obj [("locale", hd)]]).
  assert (Hold : forall l', l' < n -> l' <> l -> (h6 ++ [Obj [("locale", hd)]]) !! l' = h !! l').
  { intros l' Hl' Hne. rewrite heap_lookup_old by lia. unfold h6.
    rewrite heap_lookup_insert_ne by lia. rewrite heap_lookup_old by lia. unfold h5.
    rewrite heap_lookup_insert_ne by lia. unfold h4.
    rewrite heap_lookup_insert_ne by congruence. unfold h3. now apply lookup_app_l. }
  assert (Hlink : (h6 ++ [Obj [("locale", hd)]]) !! l = Some (Obj (assoc_del "sys" pl))).
  { rewrite heap_lookup_old by lia. unfold h6.
    rewrite heap_lookup_insert_ne by lia. rewrite heap_lookup_old by lia. unfold h5.
    rewrite heap_lookup_insert_ne by lia. exact Hl4. }
  split; [|split; [|split; [|split]]].
  - mstep Hclean. fold h5. mstep (getp_eq _ _ "fields" _ Hn5).
    cbn [obj_get assoc_get String.eqb Ascii.eqb Bool.eqb default from_option id].
    mstep Hmerge. mstep Hfields. exact Hres.
  - split; [rewrite List.length_app, Hlen6; simpl; lia|].
    intros l' Hl'. destruct (Nat.eq_dec l' l) as [->|Hne].
    + right. exists pl. now split.
    + left. now apply Hold.
  - rewrite List.length_app, Hlen6. simpl. lia.
  - rewrite <- Hlen6. apply lookup_alloc_new.
  - rewrite (peek_eq _ _ _ _ Hlink). unfold obj_get. now rewrite assoc_get_del_same.
Qed.

End ArrayFields.

Lemma stubbed_later (h h1 h' : heap) (locale : list string) (e m : value) :
  length h <= length h1 -> stubbed h1 h' locale e m -> stubbed h h' locale e m.
Proof.
  unfold stubbed. destruct (isObject e); [|auto].
  intros Hlen (l' & -> & Hl' & Hstub). exists l'. split; [reflexivity|]. split; [lia|exact Hstub].
Qed.

Lemma unlinked_sys_gone (h h' : heap) (l : loc) :
  unlinked h h' -> l < length h -> peek h (VRef l) "sys" = VUndef ->
  peek h' (VRef l) "sys" = VUndef.
Proof.
  intros [_ Hun] Hl Hp. unfold peek in *.
  destruct (Hun l Hl) as [E|(pl & Hpl & E)]; rewrite E; [exact Hp|].
  unfold obj_get. now rewrite assoc_get_del_same.
Qed.

Section ArrayElements.

Variable locales : option (list (list string)).
Variable fuel : nat.
Variable locale : list string.

(** The [map] over the elements of an array field. *)
Lemma array_elements_stubbed (es : list value) :
  forall h : heap,
    Forall (fun e => isObject e = false \/ link_like h e) es ->
    exists h' mapped,
      mapM (fun entry =>
              if negb (isObject entry) then ret entry
              else
                entry <- _cleanEntry locales entry true ;;
                f <- getp entry "fields" ;;
                entry <- _mergeFields (S fuel) entry f ;;
                entry <- _getFields locales (S fuel) entry locale ;;
                _getFieldsForLocale entry locale) es h
      = (Ret mapped, h')
      /\ unlinked h h'
      /\ Forall2 (stubbed h h' locale) es mapped
      /\ Forall (fun e => isObject e = true -> peek h' e "sys" = VUndef) es.
Proof.
  induction es as [|e es IH]; intros h Hes.
  - exists h, []. split; [reflexivity|]. split; [apply unlinked_refl|]. split; constructor.
  - apply Forall_cons in Hes as [He Hes]. cbn [mapM].
    destruct (isObject e) eqn:Hobj.
    + destruct He as [He|He]; [discriminate|].
      destruct (link_becomes_stub locales fuel locale e h He)
        as (h1 & Hrun1 & Hun1 & Hlen1 & Hstub1 & Hsys1).
      destruct (IH h1) as (h' & mapped & Hrun & Hun & Hall & Hsys).
      { eapply Forall_impl; [exact Hes|]. intros x [Hx|Hx]; [now left|right].
        eapply link_like_unlinked; eauto. }
      exists h', (VRef (length h + 3) :: mapped).
      split; [|split; [eapply unlinked_trans; eauto|split]].
      * cbn [negb]. rewrite (bind_eq _ _ _ _ _ Hrun1). mstep Hrun. reflexivity.
      * constructor.
        -- unfold stubbed. rewrite Hobj. exists (length h + 3).
           split; [reflexivity|]. split; [lia|].
           destruct Hun as [_ Hun].
           destruct (Hun (length h + 3) ltac:(lia)) as [E|(pl & Hpl & E)].
           ++ etransitivity; [exact E|exact Hstub1].
           ++ etransitivity; [exact E|].
              assert (Heq : Some (Obj pl)
                            = Some (Obj [("locale", match locale with
                                                    | code :: _ => VStr code
                                                    | [] => VUndef
                                                    end)]))
                by (etransitivity; [symmetry; exact Hpl|exact Hstub1]).
              injection Heq as ->. reflexivity.
        -- eapply Forall2_impl; [exact Hall|]. intros x y. apply stubbed_later.
           destruct Hun1 as [Hlen _]. exact Hlen.
      * constructor; [|exact Hsys]. intros _.
        destruct He as (l & pl & -> & Hl & _).
        apply (unlinked_sys_gone h1 h' l Hun); [|exact Hsys1].
        apply lookup_lt_Some in Hl. lia.
    + destruct (IH h Hes) as (h' & mapped & Hrun & Hun & Hall & Hsys).
      exists h', (e :: mapped). split; [|split; [exact Hun|split]].
      * cbn [negb]. mret. mstep Hrun. reflexivity.
      * constructor; [|exact Hall]. unfold stubbed. now rewrite Hobj.
      * constructor; [congruence|exact Hsys].
Qed.

End ArrayElements.

(** A field that holds an array is replaced by a new array: its scalar
    elements are kept, and each element that is an unresolved link (an
    object without [fields] whose [sys] names no content type) is replaced
    by a new object that holds the first locale code of the group and
    nothing else, while the link itself loses its [sys]. The old array is
    left as it was. *)
Theorem getFieldEntry_links_become_stubs (locales : option (list (list string)))
    (fuel : nat) (lf la : loc) (fs : list (string * value)) (key : string)
    (es : list value) (locale : list string) (h : heap) :
  h !! lf = Some (Obj fs) ->
  assoc_get key fs = Some (VRef la) ->
  h !! la = Some (Arr es) ->
  Forall (fun e => isObject e = false \/ link_like h e) es ->
  ~ In (VRef lf) es ->
  exists h' la' mapped,
    _getFieldEntry locales (_getFields locales (S fuel)) (S fuel) (VRef lf) key locale h
    = (Ret (VRef lf), h')
    /\ peek h' (VRef lf) key = VRef la'
    /\ length h <= la'
    /\ h' !! la' = Some (Arr mapped)
    /\ Forall2 (stubbed h h' locale) es mapped
    /\ Forall (fun e => isObject e = true -> peek h' e "sys" = VUndef) es
    /\ h' !! la = Some (Arr es).
Proof.
  intros Hlf Hkey Hla Hes Hself.
  destruct (array_elements_stubbed locales fuel locale es h Hes)
    as (hm & mapped & Hrun & Hun & Hall & Hsys).
  pose proof (lookup_lt_Some _ _ _ Hlf) as Hlf'.
  pose proof (lookup_lt_Some _ _ _ Hla) as Hla'.
  destruct Hun as [Hlen Hun].
  assert (Hlfm : exists fsm, hm !! lf = Some (Obj fsm)).
  { destruct (Hun lf Hlf') as [E|(pl & _ & E)]; eexists; etransitivity; eauto. }
  destruct Hlfm as [fsm Hlfm].
  assert (Hlam : hm !! la = Some (Arr es)).
  { destruct (Hun la Hla') as [E|(pl & Hpl & _)]; [etransitivity; eauto|].
    assert (Heq : Some (Arr es) = Some (Obj pl))
      by (etransitivity; [symmetry; exact Hla|exact Hpl]).
    discriminate. }
  assert (Hne : lf <> la).
  { intros ->. assert (Heq : Some (Obj fs) = Some (Arr es))
      by (etransitivity; [symmetry; exact Hlf|exact Hla]). discriminate. }
  set (h' := <[lf := Obj (assoc_set key (VRef (length hm)) fsm)]> (hm ++ [Arr mapped]) : heap).
  assert (Hother : forall l : loc, l < length hm -> l <> lf -> h' !! l = hm !! l).
  { intros l Hl Hnl. unfold h'. rewrite heap_lookup_insert_ne by congruence.
    now apply heap_lookup_old. }
  exists h', (length hm), mapped.
  split; [|split; [|split; [lia|split; [|split; [|split]]]]].
  - unfold _getFieldEntry. mstep (getp_eq _ _ key _ Hlf). unfold obj_get. rewrite Hkey.
    cbn [default from_option id truthy negb].
    mstep (is_array_eq _ _ _ Hla). mstep (deref_eq _ _ _ Hla). mstep Hrun.
    mstep (alloc_eq (Arr mapped) hm).
    mstep (setp_eq _ _ key (VRef (length hm)) _ (lookup_alloc_old hm _ (Arr mapped) _ Hlfm)).
    reflexivity.
  - assert (Hl : h' !! lf = Some (Obj (assoc_set key (VRef (length hm)) fsm))).
    { unfold h'. exact (heap_lookup_insert _ lf _ _ (lookup_alloc_old hm _ _ _ Hlfm)). }
    rewrite (peek_eq _ _ _ _ Hl). unfold obj_get. now rewrite assoc_get_set_same.
  - unfold h'. rewrite heap_lookup_insert_ne by lia. apply lookup_alloc_new.
  - eapply Forall2_impl; [exact Hall|]. intros e m. unfold stubbed.
    destruct (isObject e); [|auto]. intros (l' & -> & Hl' & Hstub).
    exists l'. split; [reflexivity|]. split; [exact Hl'|].
    rewrite Hother; [exact Hstub|now apply lookup_lt_Some in Hstub|lia].
  - rewrite List.Forall_forall in Hsys, Hes. apply List.Forall_forall. intros e He Hobj.
    pose proof (Hsys e He Hobj) as Hp.
    destruct (Hes e He) as [Hsc|(l & pl & -> & Hl & _)]; [congruence|].
    assert (Hnl : l <> lf) by (intros ->; contradiction).
    unfold peek in *. rewrite Hother; [exact Hp| |exact Hnl].
    apply lookup_lt_Some in Hl. lia.
  - rewrite Hother; [exact Hlam|lia|congruence].
Qed.

Lemma getFieldEntry_links_become_stubs_witness :
  let h := [ Obj [("related", VRef 1)];
             Arr [VStr "a"; VRef 2];
             Obj [("sys", VRef 3)];
             Obj [("type", VStr "Link"); ("id", VStr "e9")] ] in
  exists h' la' mapped,
    _getFieldEntry (Some [["en"]]) (_getFields (Some [["en"]]) 1) 1 (VRef 0) "related" ["en"] h
    = (Ret (VRef 0), h')
    /\ peek h' (VRef 0) "related" = VRef la'
    /\ h' !! la' = Some (Arr mapped)
    /\ Forall2 (stubbed h h' ["en"]) [VStr "a"; VRef 2] mapped
    /\ peek h' (VRef 2) "sys" = VUndef.
Proof.
  intros h.
  destruct (getFieldEntry_links_become_stubs (Some [["en"]]) 0 0 1 [("related", VRef 1)]
              "related" [VStr "a"; VRef 2] ["en"] h)
    as (h' & la' & mapped & Hrun & Hkey & _ & Harr & Hall & Hsys & _).
  - reflexivity.
  - reflexivity.
  - reflexivity.
  - constructor; [now left|]. constructor; [|constructor]. right.
    exists 2, [("sys", VRef 3)]. split; [reflexivity|]. split; [reflexivity|].
    split; [reflexivity|]. right.
    exists 3, [("type", VStr "Link"); ("id", VStr "e9")]. now repeat split.
  - simpl. intuition discriminate.
  - exists h', la', mapped. split; [exact Hrun|]. split; [exact Hkey|].
    split; [exact Harr|]. split; [exact Hall|].
    rewrite List.Forall_forall in Hsys. apply (Hsys (VRef 2)); [simpl; tauto|reflexivity].
Defined.

(** ** Entries of other content types *)

Lemma filterM_app {A} (p : A -> M bool) (l1 l2 : list A) (h : heap) :
  filterM p (l1 ++ l2) h
  = (k1 <- filterM p l1 ;; k2 <- filterM p l2 ;; ret (k1 ++ k2)) h.
Proof.
  revert h. induction l1 as [|x l1 IH]; intros h; cbn [filterM app]; unfold bind, ret in *.
  - destruct (filterM p l2 h) as [[k2|e] h2]; reflexivity.
  - destruct (p x h) as [[keep|e] h1]; [|reflexivity]. rewrite IH.
    destruct (filterM p l1 h1) as [[k1|e] h2]; [|reflexivity].
    destruct (filterM p l2 h2) as [[k2|e] h3]; [|reflexivity].
    now destruct keep.
Qed.

(** The filter of [getEntries] reads and never writes. *)
Lemma wanted_pure (contentTypes : list string) (entries : list value) :
  forall h,
    snd (filterM (fun entry =>
                    sys <- getp entry "sys" ;;
                    ct <- getp sys "contentType" ;;
                    ctsys <- getp ct "sys" ;;
                    id <- getp ctsys "id" ;;
                    ret (existsb (fun t => strict_eq (VStr t) id) contentTypes))
                 entries h) = h.
Proof.
  induction entries as [|e entries IH]; intros h; [reflexivity|].
  cbn [filterM]. unfold bind at 1.
  assert (Hp : forall r h1,
             (sys <- getp e "sys" ;;
              ct <- getp sys "contentType" ;;
              ctsys <- getp ct "sys" ;;
              id <- getp ctsys "id" ;;
              ret (existsb (fun t => strict_eq (VStr t) id) contentTypes)) h = (r, h1) ->
             h1 = h).
  { intros r h1. unfold bind.
    destruct (getp e "sys" h) as [[sys|?] h2] eqn:E1;
      apply getp_heap in E1; subst h2; [|now intros [= _ <-]].
    destruct (getp sys "contentType" h) as [[ct|?] h2] eqn:E2;
      apply getp_heap in E2; subst h2; [|now intros [= _ <-]].
    destruct (getp ct "sys" h) as [[ctsys|?] h2] eqn:E3;
      apply getp_heap in E3; subst h2; [|now intros [= _ <-]].
    destruct (getp ctsys "id" h) as [[id|?] h2] eqn:E4;
      apply getp_heap in E4; subst h2; now intros [= _ <-]. }
  destruct ((sys <- getp e "sys" ;;
             ct <- getp sys "contentType" ;;
             ctsys <- getp ct "sys" ;;
             id <- getp ctsys "id" ;;
             ret (existsb (fun t => strict_eq (VStr t) id) contentTypes)) h)
    as [[keep|err] h1]; pose proof (Hp _ _ eq_refl) as ->; [|reflexivity].
  unfold bind. specialize (IH h).
  destruct (filterM _ entries h) as [[kept|err] h2]; simpl in IH; now subst.
Qed.

(** An entry whose content type is not among the requested ones is left
    out before anything is flattened: the result of [getEntries], and the
    heap it leaves, are those for the list without that entry. (The filter
    runs over all entries before the first is flattened, as lodash does
    on arrays of fewer than two hundred elements.) *)
Theorem getEntries_ignores_unlisted (locales : option (list (list string)))
    (manipulateSingle : option (value -> list value -> M value)) (fuel : nat)
    (contentTypes : list string) (before after : list value)
    (le ls lct lcs : loc) (pe psys pct pcs : list (string * value)) (h : heap) :
  h !! le = Some (Obj pe) ->
  assoc_get "sys" pe = Some (VRef ls) ->
  h !! ls = Some (Obj psys) ->
  assoc_get "contentType" psys = Some (VRef lct) ->
  h !! lct = Some (Obj pct) ->
  assoc_get "sys" pct = Some (VRef lcs) ->
  h !! lcs = Some (Obj pcs) ->
  (forall t, In t contentTypes -> default VUndef (assoc_get "id" pcs) <> VStr t) ->
  getEntries locales manipulateSingle fuel contentTypes (before ++ VRef le :: after) h
  = getEntries locales manipulateSingle fuel contentTypes (before ++ after) h.
Proof.
  intros Hle Hsys Hls Hct Hlct Hcts Hlcs Hid.
  unfold getEntries. apply bind_cong. rewrite !filterM_app.
  set (p := fun entry : value =>
              sys <- getp entry "sys" ;;
              ct <- getp sys "contentType" ;;
              ctsys <- getp ct "sys" ;;
              id <- getp ctsys "id" ;;
              ret (existsb (fun t => strict_eq (VStr t) id) contentTypes)).
  pose proof (wanted_pure contentTypes before h) as Hpure. fold p in Hpure.
  destruct (filterM p before h) as [[k1|e] h1] eqn:E; simpl in Hpure; subst h1;
    [|now rewrite !(bind_fail _ _ _ _ _ E)].
  rewrite !(bind_eq _ _ _ _ _ E). apply bind_cong. cbn [filterM].
  assert (Hp : p (VRef le) h = (Ret false, h)).
  { unfold p. mstep (getp_eq _ _ "sys" _ Hle). unfold obj_get. rewrite Hsys.
    cbn [default from_option id].
    mstep (getp_eq _ _ "contentType" _ Hls). unfold obj_get. rewrite Hct.
    cbn [default from_option id].
    mstep (getp_eq _ _ "sys" _ Hlct). unfold obj_get. rewrite Hcts.
    cbn [default from_option id].
    mstep (getp_eq _ _ "id" _ Hlcs). unfold obj_get, ret. f_equal. f_equal.
    apply Bool.not_true_iff_false. intros Hex.
    apply existsb_exists in Hex as (t & Ht & Heq). apply (Hid t Ht).
    destruct (default VUndef (assoc_get "id" pcs)) as [| | | |s|]; try discriminate.
    simpl in Heq. apply String.eqb_eq in Heq. now subst. }
  rewrite (bind_eq _ _ _ _ _ Hp).
  destruct (filterM p after h) as [[k2|e] h2] eqn:E2.
  - now rewrite (bind_eq _ _ _ _ _ E2).
  - now rewrite (bind_fail _ _ _ _ _ E2).
Qed.

Lemma getEntries_ignores_unlisted_witness :
  getEntries (Some [["en"]]) None 10 ["post"] ([] ++ VRef 0 :: []) two_locale_entry
  = getEntries (Some [["en"]]) None 10 ["post"] ([] ++ []) two_locale_entry.
Proof.
  apply (getEntries_ignores_unlisted (Some [["en"]]) None 10 ["post"] [] [] 0 1 2 3
           [("sys", VRef 1); ("fields", VRef 4)]
           [("id", VStr "e1"); ("type", VStr "Entry"); ("contentType", VRef 2);
            ("revision", VNum 1)]
           [("sys", VRef 3)] [("id", VStr "page")]); try reflexivity.
  intros t [<-|[]]. discriminate.
Defined.

(** ** From an entry to the requests sent *)

Lemma groupBy_one_type (record : value) (ct : string) (h : heap) (n : nat) :
  property_contentType record h = (Ret (VStr ct), h) ->
  forall vs : list value,
    foldM (fun groups record =>
             ct <- property_contentType record ;;
             k <- to_key ct ;;
             ret (group_add k record groups)) (repeat record n) [(ct, vs)] h
    = (Ret [(ct, vs ++ repeat record n)], h).
Proof.
  intros Hget. induction n as [|n IH]; intros vs; cbn [repeat foldM].
  - now rewrite app_nil_r.
  - mstep Hget. cbn [to_key]. mret. mret. cbn [group_add]. rewrite String.eqb_refl.
    rewrite IH. now rewrite <- app_assoc.
Qed.

Lemma settle_ret {A} (c : M A) (h h' : heap) (a : A) :
  c h = (Ret a, h') -> settle c h = (Ret (Resolved a), h').
Proof. intros H. unfold settle. now rewrite H. Qed.

Lemma filter_all {A} (p : A -> bool) (l : list A) :
  (forall x, In x l -> p x = true) -> List.filter p l = l.
Proof.
  induction l as [|x l IH]; intros H; simpl; [reflexivity|].
  rewrite (H x (or_introl eq_refl)). f_equal. apply IH. intros y Hy. apply H. now right.
Qed.

(** One run of [sync] over one regular entry of a requested content type,
    with non-empty fallback groups, no observer and no transform, against
    an index that holds nothing: the run browses the index once and then
    asks it to add as many records as there are groups, all of them the one
    envelope object, whose [locale] is the first code of the last group. *)
Theorem sync_regular_entry_into_empty_index (fuel : nat) (c : string) (g : list string)
    (later : list (list string)) (contentTypes : list string) (le ls lct lcs lf : loc)
    (pe psys pct pcs pf : list (string * value)) (ct eid : string) (w : world) (h : heap) :
  h !! le = Some (Obj pe) ->
  assoc_get "sys" pe = Some (VRef ls) ->
  assoc_get "fields" pe = Some (VRef lf) ->
  h !! ls = Some (Obj psys) ->
  assoc_get "contentType" psys = Some (VRef lct) ->
  h !! lct = Some (Obj pct) ->
  assoc_get "sys" pct = Some (VRef lcs) ->
  h !! lcs = Some (Obj pcs) ->
  assoc_get "id" pcs = Some (VStr ct) ->
  ct <> "" ->
  h !! lf = Some (Obj pf) ->
  assoc_get "contentType" pf = None ->
  ls <> le -> ls <> lf ->
  (forall k v, In (k, v) psys ->
               ~ In k ["space"; "contentType"; "type"; "revision"] ->
               isObject v = false /\ v <> VNull) ->
  (forall k v, In (k, v) pf ->
               exists l mapping,
                 v = VRef l /\ h !! l = Some (Obj mapping)
                 /\ forall code x, In (code, x) mapping -> isObject x = false) ->
  Forall (fun g => g <> []) later ->
  In ct contentTypes ->
  assoc_get "id" psys = Some (VStr eid) ->
  assoc_get "id" pf = None ->
  assoc_get "objectID" psys = None ->
  assoc_get "objectID" pf = None ->
  server w (sent w) BrowseAll = Hits [] ->
  exists rs w' h',
    sync (Some ((c :: g) :: later)) None None (S fuel) contentTypes [VRef le] w h
    = (Ret (rs, w'), h')
    /\ sent w' = sent w ++ [BrowseAll; AddObjects (repeat (VRef ls) (S (length later)))]
    /\ peek h' (VRef ls) "locale" = VStr (hd "" (List.last later (c :: g))).
Proof.
  intros Hle Hsys Hfields Hls Hct Hlct Hcts Hlcs Hid Hnamed Hlf Hnotag Hse Hsf Henv Hloc
         Hlater Hlisted Hsysid Hnoid Hnooid Hnooid' Hempty.
  destruct (flatten_regular fuel c g later le ls lct lcs lf pe psys pct pcs pf ct h
              Hle Hsys Hfields Hls Hct Hlct Hcts Hlcs Hid Hnamed Hlf Hnotag Hse Hsf Henv Hloc
              Hlater)
    as (h' & Hflat & [ps' Hls'] & _ & Hlocale & Hctype & _ & Hkept & _).
  set (locale' := hd "" (List.last later (c :: g))) in *.
  set (records := repeat (VRef ls) (S (length later))).
  (* what the record holds *)
  assert (Hpeek : forall k, peek h' (VRef ls) k = default VUndef (assoc_get k ps')).
  { intros k. now rewrite (peek_eq _ _ _ _ Hls'). }
  assert (Hrid : assoc_get "id" ps' = Some (VStr eid)).
  { pose proof (Hkept "id" ltac:(simpl; intuition discriminate) Hnoid) as E.
    rewrite Hpeek, (peek_eq _ _ _ _ Hls) in E. unfold obj_get in E. rewrite Hsysid in E.
    destruct (assoc_get "id" ps'); cbn [default from_option id] in E;
      [now subst|discriminate]. }
  assert (Hrloc : assoc_get "locale" ps' = Some (VStr locale')).
  { rewrite Hpeek in Hlocale.
    destruct (assoc_get "locale" ps'); cbn [default from_option id] in Hlocale;
      [now subst|discriminate]. }
  assert (Hroid : peek h' (VRef ls) "objectID" = VUndef).
  { rewrite (Hkept "objectID" ltac:(simpl; intuition discriminate) Hnooid').
    rewrite (peek_eq _ _ _ _ Hls). unfold obj_get. now rewrite Hnooid. }
  assert (Hrct : getp (VRef ls) "contentType" h' = (Ret (VStr ct), h')).
  { rewrite (getp_eq _ _ "contentType" _ Hls'). rewrite Hpeek in Hctype.
    unfold obj_get. now rewrite Hctype. }
  (* the content handed to the orchestrator *)
  assert (Hentries : getEntries (Some ((c :: g) :: later)) None (S fuel) contentTypes
                       [VRef le] h = (Ret [(ct, records)], h')).
  { unfold getEntries. cbn [filterM].
    mstep (getp_eq _ _ "sys" _ Hle). unfold obj_get. rewrite Hsys.
    cbn [default from_option id].
    mstep (getp_eq _ _ "contentType" _ Hls). unfold obj_get. rewrite Hct.
    cbn [default from_option id].
    mstep (getp_eq _ _ "sys" _ Hlct). unfold obj_get. rewrite Hcts.
    cbn [default from_option id].
    mstep (getp_eq _ _ "id" _ Hlcs). unfold obj_get. rewrite Hid.
    cbn [default from_option id]. mret. mret. mret.
    assert (Hwanted : existsb (fun t => strict_eq (VStr t) (VStr ct)) contentTypes = true).
    { apply existsb_exists. exists ct. split; [exact Hlisted|apply String.eqb_refl]. }
    rewrite Hwanted. cbn [mapM]. mstep Hflat. mret. mret. mret.
    cbn [flat_map]. rewrite app_nil_r. unfold groupBy_contentType. fold records.
    unfold records at 1. cbn [repeat foldM property_contentType].
    mstep Hrct. cbn [to_key]. mret. mret.
    cbn [group_add].
    rewrite (bind_eq _ _ _ _ _ (groupBy_one_type (VRef ls) ct h' (length later) Hrct _)).
    now rewrite own_property_order_one. }
  (* the pipeline of the one content type *)
  assert (Hkey : key_of (VRef ls) h' = Some (fingerprint eid locale')).
  { unfold key_of. now rewrite (getEntryKey_record_eq ls ps' eid locale' h' Hls' Hrid Hrloc). }
  assert (Hkeyed : Forall (fun e => is_Some (key_of e h')) records).
  { apply List.Forall_forall. intros e He. apply repeat_spec in He. subst e. eauto. }
  destruct (keyBy_spec h' records Hkeyed) as (idx & Hidx & _).
  set (w1 := {| server := server w; sent := sent w ++ [BrowseAll] |}).
  assert (Hissue : singleCallback_issue None records w h'
                   = (Ret ({| p_data := records; p_index := idx; p_hits := Resolved [] |}, w1),
                      h')).
  { unfold singleCallback_issue. mret. mstep Hidx. unfold snapshot, newAlgolia, send.
    cbn [cachedResults]. now rewrite Hempty. }
  assert (Hcreated : List.filter (fun e => negb (truthy (peek h' e "objectID"))) records
                     = records).
  { apply filter_all. intros e He. apply repeat_spec in He. subst e. now rewrite Hroid. }
  assert (Hdiff : diffHits records idx None [] h'
                  = (Ret {| created := records; updated := []; deleted := [] |}, h')).
  { assert (Hobjs : forall e, In e records -> exists l o, e = VRef l /\ h' !! l = Some o).
    { intros e He. apply repeat_spec in He. subst e. eauto. }
    unfold diffHits, restrict. cbn [supplied foldM]. mret.
    rewrite (bind_eq _ _ _ _ _ (created_filter records h' Hobjs)).
    now rewrite Hcreated. }
  set (w2 := {| server := server w;
                sent := ((sent w1 ++ bulk_request AddObjects records)
                         ++ bulk_request SaveObjects []) ++ bulk_request DeleteObjects [] |}).
  assert (Hsettle : exists r,
             singleCallback_settle
               {| p_data := records; p_index := idx; p_hits := Resolved [] |} w1 h'
             = (Ret (r, w2), h')).
  { unfold singleCallback_settle. cbn [p_hits p_data p_index].
    rewrite (bind_eq _ _ _ _ _ (settle_ret _ _ _ _ Hdiff)).
    cbn [created updated deleted].
    unfold indexObjects, addObjects, updateObjects, deleteObjects.
    rewrite (bulk_send AddObjects records w1).
    rewrite (bulk_send SaveObjects (@nil value)).
    rewrite (bulk_send DeleteObjects (@nil string)).
    cbn [server sent]. eexists. reflexivity. }
  destruct Hsettle as [r Hsettle].
  exists [r], w2, h'. split; [|split; [|exact Hlocale]].
  - unfold sync. mstep Hentries. unfold sync_each. cbn [issue_all].
    unfold bind at 1. rewrite Hissue. unfold ret at 1. cbv beta iota.
    cbn [fst snd settle_all]. mstep Hsettle. mret. reflexivity.
  - unfold w2, w1. cbn [sent bulk_request]. unfold records. cbn [repeat bulk_request].
    rewrite !app_nil_r. now rewrite <- app_assoc.
Qed.

Lemma sync_regular_entry_into_empty_index_witness :
  exists rs w' h',
    sync (Some (["en"] :: [["de"]])) None None 1 ["page"] [VRef 0]
         {| server := fun _ r => match r with BrowseAll => Hits [] | _ => Content [] end;
            sent := [] |} two_locale_entry
    = (Ret (rs, w'), h')
    /\ sent w' = [] ++ [BrowseAll; AddObjects (repeat (VRef 1) 2)]
    /\ peek h' (VRef 1) "locale" = VStr "de".
Proof.
  apply (sync_regular_entry_into_empty_index 0 "en" [] [["de"]] ["page"] 0 1 2 3 4
           [("sys", VRef 1); ("fields", VRef 4)]
           [("id", VStr "e1"); ("type", VStr "Entry"); ("contentType", VRef 2);
            ("revision", VNum 1)]
           [("sys", VRef 3)] [("id", VStr "page")] [("title", VRef 5)] "page" "e1");
    try reflexivity; try discriminate.
  - intros k v [H|[H|[H|[H|[]]]]] Hk; injection H as <- <-;
      try (split; [reflexivity|discriminate]); exfalso; apply Hk; simpl; tauto.
  - intros k v [H|[]]. injection H as <- <-.
    exists 5, [("en", VStr "A"); ("de", VStr "B")]. split; [reflexivity|].
    split; [reflexivity|].
    intros code x [H|[H|[]]]; injection H as <- <-; reflexivity.
  - repeat constructor. discriminate.
  - now left.
Defined.

(** ** A stored record without a fingerprint *)

Section UnkeyedHit.

Variable h : heap.
Variable entriesIndex : list (string * value).
Variable contentType : option string.

Hypothesis index_keys_hold :
  forall k v, assoc_get k entriesIndex = Some v -> key_of v h = Some k.

Lemma classify_unkeyed (hits : list IndexHit) :
  (exists x, In x hits /\ key_of x h = None) ->
  forall (results : SyncBatch) (h1 : heap),
    attached h h1 ->
    exists h2, foldM (classify entriesIndex contentType) hits results h1
               = (Fail TypeError, h2).
Proof.
  induction hits as [|x0 hits IH]; intros (x & Hin & Hx) results h1 Ha; [destruct Hin|].
  cbn [foldM]. destruct (key_of x0 h) as [k|] eqn:Hk.
  - destruct (classify_run h entriesIndex contentType index_keys_hold results x0 h1
                ltac:(eauto) Ha) as (r1 & h2 & Hrun & Ha2 & _).
    rewrite (bind_eq _ _ _ _ _ Hrun). apply IH; [|exact Ha2].
    destruct Hin as [<-|Hin]; [congruence|eauto].
  - exists h1. apply bind_fail. unfold classify. apply bind_fail.
    rewrite getEntryKey_hit. unfold key_of in Hk. rewrite getEntryKey_hit in Hk.
    cbn [fst] in Hk.
    destruct (hit_attr x0 "id") as [[]|]; try reflexivity;
      destruct (hit_attr x0 "locale") as [[]|]; try reflexivity; discriminate.
Qed.

End UnkeyedHit.

(** One record of the snapshot (inside the content-type filter, if there
    is one) that has no string under [id] or under [locale] is enough to
    make the diff raise a [TypeError] inside the promise: [indexData] then
    yields no identifiers and sends nothing after the browse request, so
    nothing of the content type is written. *)
Theorem indexData_unkeyed_hit_blocks (a : Algolia) (data : list value)
    (contentType : option string) (hits : list IndexHit) (x : IndexHit)
    (w : world) (h : heap) :
  Forall (fun e => is_Some (key_of e h)) data ->
  cachedResults a = None ->
  server w (sent w) BrowseAll = Hits hits ->
  In x (restrict contentType hits) ->
  key_of x h = None ->
  exists h',
    indexData a data contentType w h
    = (Ret (None, {| cachedResults := Some (Resolved hits) |},
            {| server := server w; sent := sent w ++ [BrowseAll] |}), h').
Proof.
  intros Hdata Hc Hbrowse Hin Hx.
  destruct (keyBy_spec h data Hdata) as (idx & Hkey & Hfrom & _).
  destruct (classify_unkeyed h idx contentType (fun k v Hv => proj2 (Hfrom k v Hv))
              (restrict contentType hits) (ex_intro _ x (conj Hin Hx))
              {| created := []; updated := []; deleted := [] |} h (attached_refl h))
    as (h2 & Hfail).
  exists h2. unfold indexData, getElementsPromise. mstep Hkey.
  unfold snapshot, send. rewrite Hc, Hbrowse.
  assert (Hsettle : settle (diffHits data idx contentType hits) h = (Ret Rejected, h2)).
  { unfold settle, diffHits. now rewrite (bind_fail _ _ _ _ _ Hfail). }
  mstep Hsettle. mret. reflexivity.
Qed.

Lemma indexData_unkeyed_hit_blocks_witness :
  exists h',
    indexData newAlgolia [] None
      {| server := fun _ _ => Hits [{| objectID := "obj7"; attrs := [("id", JStr "e7")] |}];
         sent := [] |} []
    = (Ret (None,
            {| cachedResults :=
                 Some (Resolved [{| objectID := "obj7"; attrs := [("id", JStr "e7")] |}]) |},
            {| server := fun _ _ =>
                           Hits [{| objectID := "obj7"; attrs := [("id", JStr "e7")] |}];
               sent := [] ++ [BrowseAll] |}), h').
Proof.
  apply (indexData_unkeyed_hit_blocks newAlgolia [] None
           [{| objectID := "obj7"; attrs := [("id", JStr "e7")] |}]
           {| objectID := "obj7"; attrs := [("id", JStr "e7")] |}
           {| server := fun _ _ => Hits [{| objectID := "obj7"; attrs := [("id", JStr "e7")] |}];
              sent := [] |} []).
  - constructor.
  - reflexivity.
  - reflexivity.
  - now left.
  - reflexivity.
Defined.
